(** * glide/core.py: node contexts, argument resolution, fan-out, reducer
      and the command-line surface, embedded and verified.

    Python dicts are stdpp finite maps ([gmap string _]) where only the
    mapping matters and association lists where iteration order matters
    (OrderedDict, keyword arguments).  Exceptions are an explicit result
    type; pushes and calls of [run] are recorded in an event trace. *)

From Stdlib Require Import ZArith Lia Ascii String.
From stdpp Require Import base gmap strings list fin_maps.

Set Warnings "-register-all".

(** ** Python values *)

Inductive value : Type :=
| VNone
| VBool (b : bool)
| VInt (z : Z)
| VStr (s : string)
| VList (l : list value).

(** Python truthiness ([bool(v)]). *)
Definition truthy (v : value) : bool :=
  match v with
  | VNone => false
  | VBool b => b
  | VInt z => negb (z =? 0)%Z
  | VStr s => negb (String.eqb s "")
  | VList l => match l with [] => false | _ => true end
  end.

(** [type(v)], as far as the code inspects it. *)
Inductive pytype := TNoneType | TBool | TInt | TStr | TList.

Definition type_of (v : value) : pytype :=
  match v with
  | VNone => TNoneType
  | VBool _ => TBool
  | VInt _ => TInt
  | VStr _ => TStr
  | VList _ => TList
  end.

Definition pytype_eqb (a b : pytype) : bool :=
  match a, b with
  | TNoneType, TNoneType | TBool, TBool | TInt, TInt
  | TStr, TStr | TList, TList => true
  | _, _ => false
  end.

Abbreviation dict := (gmap string value).

(** ** Exceptions and results *)

Inductive exn : Type :=
| MissingRunArg (run_arg : string) (context : dict)
    (* Exception('Required run arg "%s" is missing from context: %s'
                 % (run_arg, self.context)) *)
| CleanUpErrors (errors : list string)
    (* Exception("Errors during clean_up: %s" % errors) *)
| AssertionError (msg : string)
| NotImplementedError
| KeyError (key : string)
| UnboundLocalError (var : string)
| ValueError (msg : string)
| AttributeError (attr : string)
| IndexError
| TypeError
    (* a call that cannot be bound to the parameters of the function *)
| Raised (what : string).   (* an exception thrown by user-supplied code *)

Inductive outcome (A : Type) : Type :=
| Ok (a : A)
| Raise (e : exn).
Arguments Ok {A} a.
Arguments Raise {A} e.

Definition obind {A B} (m : outcome A) (k : A → outcome B) : outcome B :=
  match m with
  | Ok a => k a
  | Raise e => Raise e
  end.

Global Instance outcome_bind : MBind outcome := λ A B k m, obind m k.
Global Instance outcome_ret : MRet outcome := @Ok.

(** ** Ordered dictionaries *)

(** [d[k] = v] on an OrderedDict: an existing key keeps its position. *)
Fixpoint od_set {V} (k : string) (v : V) (d : list (string * V))
  : list (string * V) :=
  match d with
  | [] => [(k, v)]
  | (k', v') :: d' =>
      if String.eqb k' k then (k, v) :: d' else (k', v') :: od_set k v d'
  end.

Fixpoint od_get {V} (k : string) (d : list (string * V)) : option V :=
  match d with
  | [] => None
  | (k', v') :: d' => if String.eqb k' k then Some v' else od_get k d'
  end.

Definition od_mem {V} (k : string) (d : list (string * V)) : bool :=
  match od_get k d with Some _ => true | None => false end.

Definition str_mem (k : string) (l : list string) : bool :=
  existsb (String.eqb k) l.

(** ** GlobalState *)

(** [class GlobalState]: a mapping whose [__bool__] is constantly [True]. *)
Record GlobalState := { gs_items : dict }.

Definition GlobalState_bool (g : GlobalState) : bool := true.

Definition GlobalState_contains (g : GlobalState) (k : string) : bool :=
  bool_decide (is_Some (gs_items g !! k)).

(** ** Run contracts: [Node._get_run_args] *)

Inductive param_kind :=
| POSITIONAL_ONLY | POSITIONAL_OR_KEYWORD | VAR_POSITIONAL
| KEYWORD_ONLY | VAR_KEYWORD.

(** [inspect.Parameter]; [p_default = None] stands for [Parameter.empty]. *)
Record SigParameter := {
  p_name : string;
  p_kind : param_kind;
  p_default : option value
}.

Definition kind_message (k : param_kind) : string :=
  match k with
  | POSITIONAL_ONLY => "POSITIONAL_ONLY"
  | POSITIONAL_OR_KEYWORD => "POSITIONAL_OR_KEYWORD"
  | VAR_POSITIONAL => "VAR_POSITIONAL"
  | KEYWORD_ONLY => "KEYWORD_ONLY"
  | VAR_KEYWORD => "VAR_KEYWORD"
  end +:+ " params are not allowed in run()".

(** The loop body of [_get_run_args] over [enumerate(sig.parameters)]. *)
Fixpoint get_run_args_loop (i : nat) (params : list SigParameter)
    (positionals : list (string * value)) (keywords : list (string * value))
  : outcome (list (string * value) * list (string * value)) :=
  match params with
  | [] => Ok (positionals, keywords)
  | param :: rest =>
      match i with
      | O => get_run_args_loop (S i) rest positionals keywords
      | S _ =>
          match p_kind param, p_default param with
          | POSITIONAL_ONLY, _ =>
              get_run_args_loop (S i) rest
                (od_set (p_name param) VNone positionals) keywords
          | POSITIONAL_OR_KEYWORD, None =>
              get_run_args_loop (S i) rest
                (od_set (p_name param) VNone positionals) keywords
          | POSITIONAL_OR_KEYWORD, Some d =>
              get_run_args_loop (S i) rest
                positionals (od_set (p_name param) d keywords)
          | VAR_KEYWORD, _ =>
              get_run_args_loop (S i) rest positionals keywords
          | k, _ => Raise (AssertionError (kind_message k))
          end
      end
  end.

Definition _get_run_args (sig : list SigParameter)
  : outcome (list (string * value) * list (string * value)) :=
  get_run_args_loop 0 sig [] [].

(** ** Argument resolution: [Node._populate_run_args] *)

Section populate.
Variable context : dict.
Variable global_state : option GlobalState.

(** [self.global_state and run_arg in self.global_state] *)
Definition global_state_has (run_arg : string) : bool :=
  match global_state with
  | None => false
  | Some g => GlobalState_bool g && GlobalState_contains g run_arg
  end.

Definition global_state_get (run_arg : string) : outcome value :=
  match global_state with
  | None => Raise (AttributeError "__getitem__")
  | Some g =>
      match gs_items g !! run_arg with
      | Some v => Ok v
      | None => Raise (KeyError run_arg)
      end
  end.

(** The first loop: one positional value per required argument. *)
Fixpoint populate_args (run_args : list string) (_args : list value)
  : outcome (list value) :=
  match run_args with
  | [] => Ok _args
  | run_arg :: rest =>
      match context !! run_arg with
      | None =>
          if global_state_has run_arg then
            v ← global_state_get run_arg ;
            populate_args rest (_args ++ [v])
          else Raise (MissingRunArg run_arg context)
      | Some v => populate_args rest (_args ++ [v])
      end
  end.

(** The second loop: every other context key becomes a keyword. *)
Definition populate_kwargs (run_args : list string) : dict :=
  filter (λ kv, str_mem kv.1 run_args = false) context.

Definition _populate_run_args (run_args : list (string * value))
  : outcome (list value * dict) :=
  _args ← populate_args run_args.*1 [] ;
  Ok (_args, populate_kwargs run_args.*1).
End populate.

(** ** Nodes and their context dictionaries

    A node holds references to two dict objects.  [update_context]
    mutates the dict behind [context] in place; [reset_context] rebinds
    [context] to a fresh copy of the dict behind [default_context]. *)

Abbreviation loc := positive.
Abbreviation heap := (gmap loc dict).

Record Node := {
  name : string;
  default_context : loc;
  context : loc;
  run_args : list (string * value);
  run_kwargs : list (string * value)
}.

Definition deref (h : heap) (l : loc) : dict := default ∅ (h !! l).

(** A new dict object holding [d]. *)
Definition alloc (d : dict) (h : heap) : loc * heap :=
  let l := fresh (dom h) in (l, <[l := d]> h).

(** [d.copy()] *)
Definition dict_copy (l : loc) (h : heap) : loc * heap :=
  alloc (deref h l) h.

(** [d.update(other)]: keys of [other] win. *)
Definition dict_update (l : loc) (other : dict) (h : heap) : heap :=
  <[l := other ∪ deref h l]> h.

Definition update_context (n : Node) (ctx : dict) (h : heap) : heap :=
  dict_update (context n) ctx h.

Definition reset_context (n : Node) (h : heap) : Node * heap :=
  let '(l, h') := dict_copy (default_context n) h in
  ({| name := name n; default_context := default_context n; context := l;
      run_args := run_args n; run_kwargs := run_kwargs n |}, h').

(** [Node.__init__(name, **default_context)]; [sig] is the signature of
    the node's [run] method. *)
Definition Node_init (nm : string) (dflt : dict) (sig : list SigParameter)
    (h : heap) : outcome (Node * heap) :=
  let '(ld, h1) := alloc dflt h in
  let '(n, h2) :=
    reset_context {| name := nm; default_context := ld; context := ld;
                     run_args := []; run_kwargs := [] |} h1 in
  '(pos, kw) ← _get_run_args sig ;
  Ok ({| name := nm; default_context := ld; context := context n;
         run_args := pos; run_kwargs := kw |}, h2).

(** ** Items, pushes and [run] *)

Inductive item : Type :=
| Tabular (columns : list string) (rows : list (list value))
| Plain (v : value).

(** Modelled from the spec: [glide.utils.is_pandas] is not part of the
    file; the spec speaks of a "tabular item". *)
Definition is_pandas (it : item) : bool :=
  match it with Tabular _ _ => true | Plain _ => false end.

(** [item.empty] of a frame: some axis has length zero. *)
Definition item_empty (it : item) : bool :=
  match it with
  | Tabular cols rows =>
      match cols, rows with [], _ | _, [] => true | _, _ => false end
  | Plain _ => false
  end.

(** [not item] on a non-tabular item. *)
Definition item_falsy (it : item) : bool :=
  match it with
  | Tabular _ _ => false
  | Plain v => negb (truthy v)
  end.

Inductive event : Type :=
| EPush (it : item)
| ERun (it : item) (args : list value) (kwargs : dict).

Definition run_calls (tr : list event) : list (item * list value * dict) :=
  omap (λ e, match e with ERun it a k => Some (it, a, k) | _ => None end) tr.

Definition pushes (tr : list event) : list item :=
  omap (λ e, match e with EPush it => Some it | _ => None end) tr.

(** The call [self._run(item, *_args, **_kwargs)] binds the parameters
    [self] and [item] of [_run(self, item, *args, **kwargs)] by position.
    A keyword named [self] or [item] is a second value for a parameter
    that is bound already: Python raises [TypeError] ("got multiple
    values for argument", naming whichever of the two the dict yields
    first) before the body of [_run] starts. *)
Definition keyword_clash (kwargs : dict) : bool :=
  bool_decide (is_Some (kwargs !! "self"))
  || bool_decide (is_Some (kwargs !! "item")).

Section running.
(** The body of the subclass's [run]: the items it pushes, and whether
    it returns or throws. *)
Variable run : item → list value → dict → list item * outcome unit.

(** [self.run(item, *args, **kwargs)] *)
Definition call_run (it : item) (args : list value) (kwargs : dict)
  : list event * outcome unit :=
  let '(pushed, r) := run it args kwargs in
  (ERun it args kwargs :: (EPush <$> pushed), r).

(** [Node._run(self, item, *args, **kwargs)], called as
    [self._run(item, *_args, **_kwargs)]: the call is bound first, then
    the body runs. *)
Definition Node_run (it : item) (args : list value) (kwargs : dict)
  : list event * outcome unit :=
  if keyword_clash kwargs then ([], Raise TypeError)
  else call_run it args kwargs.

(** [SkipFalseNode._run(self, item, *args, **kwargs)], called the same
    way. *)
Definition SkipFalseNode_run (it : item) (args : list value) (kwargs : dict)
  : list event * outcome unit :=
  if keyword_clash kwargs then ([], Raise TypeError)
  else if is_pandas it then
    if item_empty it then ([EPush it], Ok ())
    else call_run it args kwargs
  else
    if item_falsy it then ([EPush it], Ok ())
    else call_run it args kwargs.

(** [Node.process], for a node whose [_run] is [_run]. *)
Definition process
    (_run : item → list value → dict → list event * outcome unit)
    (n : Node) (h : heap) (gs : option GlobalState) (it : item)
  : list event * outcome unit :=
  match _populate_run_args (deref h (context n)) gs (run_args n) with
  | Raise e => ([], Raise e)
  | Ok (_args, _kwargs) => _run it _args _kwargs
  end.
End running.

(** [Node.run] of the base class. *)
Definition Node_base_run (it : item) (args : list value) (kwargs : dict)
  : list item * outcome unit := ([], Raise NotImplementedError).

(** ** Reducer *)

Module Reducer.
Section reducer.
Context {I : Type}.

(** [self.results]; [None] before the first [begin]. *)
Definition state := option (list I).

(** [def run(self, item, **kwargs)] *)
Definition signature : list SigParameter :=
  [ {| p_name := "item"; p_kind := POSITIONAL_OR_KEYWORD; p_default := None |};
    {| p_name := "kwargs"; p_kind := VAR_KEYWORD; p_default := None |} ].

Definition begin (st : state) : state := Some [].

Definition run (st : state) (it : I) (kwargs : dict) : outcome state :=
  match st with
  | None => Raise (AttributeError "results")
  | Some results => Ok (Some (results ++ [it]))
  end.

(** [end]: the one place where the reducer pushes. *)
Definition end_ (st : state) : outcome (list (list I)) :=
  match st with
  | None => Raise (AttributeError "results")
  | Some results => Ok [results]
  end.

(** [process(item)]: resolve the arguments of [run], then call
    [self._run(item, *_args, **_kwargs)], which calls [run].  Returns
    the pushes of this step and the new state. *)
Definition process (ctx : dict) (gs : option GlobalState)
    (st : state) (it : I) : outcome (list (list I) * state) :=
  '(pos, kw) ← _get_run_args signature ;
  '(_args, _kwargs) ← _populate_run_args ctx gs pos ;
  if keyword_clash _kwargs then Raise TypeError
  else
    st' ← run st it _kwargs ;
    Ok ([], st').

Fixpoint process_all (ctx : dict) (gs : option GlobalState)
    (st : state) (items : list I) : outcome (list (list I) * state) :=
  match items with
  | [] => Ok ([], st)
  | it :: rest =>
      '(p1, st1) ← process ctx gs st it ;
      '(p2, st2) ← process_all ctx gs st1 rest ;
      Ok (p1 ++ p2, st2)
  end.

(** One pass of the pipeline engine over this node: [begin], one
    [process] per item in arrival order, [end].  Returns every push of
    the pass, in order. *)
Definition consume_pass (ctx : dict) (gs : option GlobalState)
    (st : state) (items : list I) : outcome (list (list I)) :=
  '(p, st') ← process_all ctx gs (begin st) items ;
  q ← end_ st' ;
  Ok (p ++ q).
End reducer.
End Reducer.

(** ** Fan-out: [FuturesPushNode._push] *)

(** *** numpy's conversion of a Python list to an array

    [numpy.array_split] slices [numpy.swapaxes(ary, axis, 0)], and
    [swapaxes] turns an item that is not an array into one.  The
    conversion is modelled for lists of [None], booleans, integers,
    strings and nested lists (a tuple converts like a list), as numpy
    1.24 and later do it: the nesting must be rectangular, and all
    scalars are converted to one common dtype. *)

Inductive dtype :=
| np_bool | np_int64 | np_uint64 | np_float64 | np_str | np_object.

(** An element of an array along its first axis: the Python scalar [v]
    converted to the dtype [d] of the array, or a sub-array. *)
Inductive ndvalue : Type :=
| NdScalar (d : dtype) (v : value)
| NdArray (rows : list ndvalue).

(** The shape numpy discovers, [None] when the nesting is ragged. *)
Fixpoint np_shape (v : value) : option (list nat) :=
  match v with
  | VList l =>
      match np_shape <$> l with
      | [] => Some [0]
      | None :: _ => None
      | Some s :: rest =>
          if forallb (λ o, bool_decide (o = Some s)) rest
          then Some (length l :: s) else None
      end
  | _ => Some []
  end.

Fixpoint np_leaves (v : value) : list value :=
  match v with
  | VList l => concat (np_leaves <$> l)
  | _ => [v]
  end.

(** The dtype numpy discovers for one Python scalar. *)
Definition scalar_dtype (v : value) : dtype :=
  match v with
  | VBool _ => np_bool
  | VInt z =>
      if (- 2 ^ 63 <=? z)%Z && (z <? 2 ^ 63)%Z then np_int64
      else if (0 <=? z)%Z && (z <? 2 ^ 64)%Z then np_uint64
      else np_object
  | VStr _ => np_str
  | VNone | VList _ => np_object
  end.

(** [numpy.promote_types], on the dtypes above. *)
Definition promote_types (a b : dtype) : dtype :=
  match a, b with
  | np_object, _ | _, np_object => np_object
  | np_str, _ | _, np_str => np_str
  | np_float64, _ | _, np_float64 => np_float64
  | np_int64, np_uint64 | np_uint64, np_int64 => np_float64
  | np_int64, _ | _, np_int64 => np_int64
  | np_uint64, _ | _, np_uint64 => np_uint64
  | np_bool, np_bool => np_bool
  end.

(** The dtype of the array: the common dtype of its scalars, [float64]
    when it has none. *)
Definition result_dtype (scalars : list value) : dtype :=
  match scalars with
  | [] => np_float64
  | _ => foldr promote_types np_bool (scalar_dtype <$> scalars)
  end.

Fixpoint np_cast (d : dtype) (v : value) : ndvalue :=
  match v with
  | VList l => NdArray (np_cast d <$> l)
  | _ => NdScalar d v
  end.

(** [numpy.asarray(ary)] for a list [ary]: the elements of the array
    along its first axis.  The message of the [ValueError] goes on with
    the shape numpy detected. *)
Definition np_asarray (ary : list value) : outcome (list ndvalue) :=
  match np_shape (VList ary) with
  | None => Raise (ValueError "setting an array element with a sequence.")
  | Some _ => Ok (np_cast (result_dtype (np_leaves (VList ary))) <$> ary)
  end.

(** The Python object an element of the array was converted from. *)
Fixpoint nd_source (x : ndvalue) : value :=
  match x with
  | NdScalar _ v => v
  | NdArray rows => VList (nd_source <$> rows)
  end.

(** [numpy.asarray] of an item that is an array already. *)
Definition ndarray_asarray {B} (ary : list B) : outcome (list B) := Ok ary.

(** *** [numpy.array_split] *)

(** [numpy.array_split(ary, n)] along the first axis, following numpy's
    own implementation: section sizes, their running sum, one slice per
    pair of consecutive division points. *)
Fixpoint cumsum_from (acc : nat) (l : list nat) : list nat :=
  match l with
  | [] => []
  | x :: l' => (acc + x) :: cumsum_from (acc + x) l'
  end.

Definition cumsum (l : list nat) : list nat := cumsum_from 0 l.

(** [sary[st:end]] *)
Definition slice {A} (st en : nat) (ary : list A) : list A :=
  take (en - st) (drop st ary).

Definition section_sizes (Ntotal Nsections : nat) : list nat :=
  let Neach_section := Ntotal / Nsections in
  let extras := Ntotal mod Nsections in
  [0] ++ replicate extras (Neach_section + 1)
      ++ replicate (Nsections - extras) Neach_section.

(** What a submitted task is handed: the item itself, or a slice of the
    array made of it. *)
Inductive task_item (A B : Type) : Type :=
| Whole (it : list A)
| Slice (s : list B).
Arguments Whole {A B} it.
Arguments Slice {A B} s.

(** The loop [for i, downstream in enumerate(self._downstream_nodes)]:
    one submitted task [(downstream, splits[i])] per stage. *)
Fixpoint submit_splits {T} (i : nat) (downstream : list string)
    (splits : list T) : outcome (list (string * T)) :=
  match downstream with
  | [] => Ok []
  | d :: rest =>
      match splits !! i with
      | None => Raise IndexError
      | Some s =>
          futures ← submit_splits (S i) rest splits ;
          Ok ((d, s) :: futures)
      end
  end.

Section fan_out.
Context {A B : Type}.
(** The array conversion that [swapaxes] applies to the item: the
    elements of the array along its first axis, or the exception numpy
    raises. *)
Variable asarray : list A → outcome (list B).

(** [Ntotal] is [len(ary)] of the item as given; the slices are taken
    from the converted item [sary]. *)
Definition array_split (ary : list A) (Nsections : nat)
  : outcome (list (list B)) :=
  let Ntotal := length ary in
  if Nat.leb Nsections 0 then
    Raise (ValueError "number sections must be larger than 0.")
  else
    let div_points := cumsum (section_sizes Ntotal Nsections) in
    sary ← asarray ary ;
    Ok ((λ i, slice (nth i div_points 0) (nth (i + 1) div_points 0) sary)
          <$> seq 0 Nsections).

(** The tasks [_push] submits to the executor, in submission order. *)
Definition push_submissions (ctx : dict) (downstream : list string)
    (it : list A) : outcome (list (string * task_item A B)) :=
  if truthy (default (VBool false) (ctx !! "split")) then
    splits ← array_split it (length downstream) ;
    submit_splits 0 downstream (Slice <$> splits)
  else
    Ok ((λ d, (d, Whole it)) <$> downstream).

(** [ProcessPoolParaGlider.consume], [ThreadPoolParaGlider.consume]: the
    slices for which one [consume] task each is submitted. *)
Definition paraglider_splits (data : list A) (_max_workers : nat)
  : outcome (list (list B)) :=
  array_split data (Nat.min (length data) _max_workers).
End fan_out.

(** ** Strings: [str.split] and [str.join] *)

Fixpoint split (sep : Ascii.ascii) (s : string) : list string :=
  match s with
  | EmptyString => [""]
  | String c s' =>
      if Ascii.eqb c sep then "" :: split sep s'
      else match split sep s' with
           | [] => [String c ""]
           | p :: ps => String c p :: ps
           end
  end.

Fixpoint join (sep : string) (parts : list string) : string :=
  match parts with
  | [] => ""
  | [p] => p
  | p :: ps => p +:+ sep +:+ join sep ps
  end.

(** ** The command-line surface: [GliderScript] *)

Definition SCRIPT_DATA_ARG : string := "data".

(** The constructor arguments of a [toolbox.Arg]; a field is [None]
    when the keyword is not passed. *)
Record Arg := {
  a_flag : string;
  a_nargs : option string;
  a_required : option bool;
  a_type : option pytype;
  a_action : option string;
  a_default : option value
}.

(** Modelled from the spec: [toolbox.Arg.name] is not part of the file;
    the surface names arguments [<node-name>_<parameter-name>], that is
    the flag without its leading dashes. *)
Fixpoint Arg_name_of (flag : string) : string :=
  match flag with
  | String "-"%char s => Arg_name_of s
  | _ => flag
  end.

Definition Arg_name (a : Arg) : string := Arg_name_of (a_flag a).

Record GliderScript := {
  nodes : list Node;              (* glider.get_node_lookup().values() *)
  glider_global_state : GlobalState;
  blacklist : list string;
  inject : list (string * (unit → value));
  clean : list (string * (value → outcome unit))
}.

(** [GliderScript.__init__]: injected names join the blacklist. *)
Definition GliderScript_init (ns : list Node) (g : GlobalState)
    (bl : list string) (inj : list (string * (unit → value)))
    (cl : list (string * (value → outcome unit))) : GliderScript :=
  {| nodes := ns; glider_global_state := g;
     blacklist := bl ++ inj.*1; inject := inj; clean := cl |}.

Definition get_injected_kwargs (self : GliderScript)
  : list (string * value) :=
  foldl (λ result kf, od_set kf.1 (kf.2 ()) result) [] (inject self).

Definition _get_script_arg_name (node_name arg_name : string) : string :=
  node_name +:+ "_" +:+ arg_name.

Definition blacklisted (self : GliderScript) (node_name arg_name : string)
  : bool :=
  if str_mem arg_name (blacklist self) then true
  else if str_mem (_get_script_arg_name node_name arg_name) (blacklist self)
  then true
  else false.

Definition node_known (ns : list Node) (nm : string) : bool :=
  existsb (λ n, String.eqb nm (name n)) ns.

Section surface.
Variable self : GliderScript.
Variable h : heap.

Definition _get_script_arg (node : Node) (arg_name : string)
    (required : bool) (dflt : value) : option Arg :=
  if blacklisted self (name node) arg_name then None
  else
    let '(required, dflt) :=
      if od_mem arg_name (inject self) then (false, VNone)
      else match deref h (context node) !! arg_name with
           | Some v => (false, v)
           | None =>
               match gs_items (glider_global_state self) !! arg_name with
               | Some v => (false, v)
               | None => (required, dflt)
               end
           end in
    let arg_type := if truthy dflt then type_of dflt else TStr in
    let flag := "--" +:+ _get_script_arg_name (name node) arg_name in
    if pytype_eqb arg_type TBool then
      let action := if truthy dflt then "store_false" else "store_true" in
      Some {| a_flag := flag; a_nargs := None; a_required := Some required;
              a_type := None; a_action := Some action;
              a_default := Some dflt |}
    else
      Some {| a_flag := flag; a_nargs := None; a_required := Some required;
              a_type := Some arg_type; a_action := None;
              a_default := Some dflt |}.

Definition add_script_arg (script_arg : option Arg)
    (script_args : list (string * Arg)) : list (string * Arg) :=
  match script_arg with
  | None => script_args
  | Some a => od_set (Arg_name a) a script_args
  end.

Definition node_script_args (script_args : list (string * Arg)) (node : Node)
  : list (string * Arg) :=
  let script_args :=
    foldl (λ acc kv, add_script_arg (_get_script_arg node kv.1 true VNone) acc)
          script_args (run_args node) in
  foldl (λ acc kv, add_script_arg (_get_script_arg node kv.1 false kv.2) acc)
        script_args (run_kwargs node).

Fixpoint add_custom_args (custom : list Arg)
    (script_args : list (string * Arg)) : outcome (list (string * Arg)) :=
  match custom with
  | [] => Ok script_args
  | c :: rest =>
      if blacklisted self "" (Arg_name c) then
        Raise (AssertionError
                 ("Blacklisted arg '" +:+ Arg_name c
                  +:+ "' passed as a custom arg"))
      else add_custom_args rest (od_set (Arg_name c) c script_args)
  end.

Definition _get_script_args (custom_script_args : list Arg)
  : outcome (list Arg) :=
  let script_args :=
    if blacklisted self "" SCRIPT_DATA_ARG then []
    else [(SCRIPT_DATA_ARG,
           {| a_flag := SCRIPT_DATA_ARG; a_nargs := Some "+";
              a_required := None; a_type := None; a_action := None;
              a_default := None |})] in
  let script_args := foldl node_script_args script_args (nodes self) in
  script_args ← add_custom_args custom_script_args script_args ;
  Ok script_args.*2.
End surface.

(** ** Un-flattening: [_get_injected_node_contexts], [_convert_kwargs] *)

(** [node_contexts.setdefault(node_name, {})[arg_name] = v] on a dict
    iterated later, which therefore keeps its insertion order. *)
Definition od_setdefault_set (node_name arg_name : string) (v : value)
    (node_contexts : list (string * dict)) : list (string * dict) :=
  match od_get node_name node_contexts with
  | Some d => od_set node_name (<[arg_name := v]> d) node_contexts
  | None => od_set node_name {[arg_name := v]} node_contexts
  end.

(** [kwargs[k]] *)
Definition kwargs_get (kwargs : list (string * value)) (k : string)
  : outcome value :=
  match od_get k kwargs with
  | Some v => Ok v
  | None => Raise (KeyError k)
  end.

Section unflatten.
Variable self : GliderScript.

(** The state of [_get_injected_node_contexts]: the dict being built and
    the function-local variable [arg_name], unbound until the first loop
    has assigned it. *)
Definition inj_state : Type := list (string * dict) * option string.

(** [for arg_name, _ in node.run_args.items(): ...] *)
Fixpoint inject_run_args (kwargs : list (string * value)) (node_name : string)
    (args : list string) (st : inj_state) : outcome inj_state :=
  match args with
  | [] => Ok st
  | arg_name :: rest =>
      if od_mem arg_name (inject self) then
        v ← kwargs_get kwargs arg_name ;
        inject_run_args kwargs node_name rest
          (od_setdefault_set node_name arg_name v st.1, Some arg_name)
      else inject_run_args kwargs node_name rest (st.1, Some arg_name)
  end.

(** [for kwarg_name, kwarg_default in node.run_kwargs.items(): ...]; the
    assignment evaluates [kwargs[kwarg_name]] first and subscripts with
    the variable [arg_name]. *)
Fixpoint inject_run_kwargs (kwargs : list (string * value))
    (node_name : string) (kws : list string) (st : inj_state)
  : outcome inj_state :=
  match kws with
  | [] => Ok st
  | kwarg_name :: rest =>
      if od_mem kwarg_name (inject self) then
        v ← kwargs_get kwargs kwarg_name ;
        match st.2 with
        | None => Raise (UnboundLocalError "arg_name")
        | Some arg_name =>
            inject_run_kwargs kwargs node_name rest
              (od_setdefault_set node_name arg_name v st.1, st.2)
        end
      else inject_run_kwargs kwargs node_name rest st
  end.

Fixpoint inject_nodes (kwargs : list (string * value)) (ns : list Node)
    (st : inj_state) : outcome inj_state :=
  match ns with
  | [] => Ok st
  | node :: rest =>
      st ← inject_run_args kwargs (name node) (run_args node).*1 st ;
      st ← inject_run_kwargs kwargs (name node) (run_kwargs node).*1 st ;
      inject_nodes kwargs rest st
  end.

Definition _get_injected_node_contexts (kwargs : list (string * value))
  : outcome (list (string * dict)) :=
  st ← inject_nodes kwargs (nodes self) ([], None) ;
  Ok st.1.

(** An entry of the converted keywords: a node's context update or a
    keyword passed through. *)
Inductive kwarg : Type :=
| NodeContext (d : dict)
| TopLevel (v : value).

(** The first loop of [_convert_kwargs]. *)
Fixpoint convert_loop (items : list (string * value))
    (node_contexts : gmap string dict) (unused : list string)
  : outcome (gmap string dict * list string) :=
  match items with
  | [] => Ok (node_contexts, unused)
  | (key, v) :: rest =>
      let key_parts := split "_" key in
      let node_name := hd "" key_parts in
      if negb (node_known (nodes self) node_name) then
        convert_loop rest node_contexts
          (if str_mem key unused then unused else unused ++ [key])
      else if negb (Nat.ltb 1 (length key_parts)) then
        Raise (AssertionError
                 ("Invalid keyword arg " +:+ key
                  +:+ ", can not be a node name"))
      else
        let arg_name := join "_" (tl key_parts) in
        convert_loop rest
          (<[node_name := <[arg_name := v]>
                            (default ∅ (node_contexts !! node_name))]>
             node_contexts)
          unused
  end.

(** The second loop: injected arguments are merged last. *)
Definition merge_injected (node_contexts : gmap string dict)
    (injected : list (string * dict)) : gmap string dict :=
  foldl (λ nc ia,
           match nc !! ia.1 with
           | Some d => <[ia.1 := ia.2 ∪ d]> nc
           | None => <[ia.1 := ia.2]> nc
           end)
        node_contexts injected.

(** The third loop: [final_kwargs[key] = kwargs[key]]. *)
Fixpoint pass_through (kwargs : list (string * value)) (unused : list string)
    (final_kwargs : gmap string kwarg) : outcome (gmap string kwarg) :=
  match unused with
  | [] => Ok final_kwargs
  | key :: rest =>
      v ← kwargs_get kwargs key ;
      pass_through kwargs rest (<[key := TopLevel v]> final_kwargs)
  end.

Definition _convert_kwargs (kwargs : list (string * value))
  : outcome (gmap string kwarg) :=
  '(node_contexts, unused) ← convert_loop kwargs ∅ [] ;
  injected_node_contexts ← _get_injected_node_contexts kwargs ;
  let node_contexts := merge_injected node_contexts injected_node_contexts in
  pass_through kwargs unused (NodeContext <$> node_contexts).

(** ** Clean-up: [GliderScript.clean_up] *)

(** The loop of [clean_up]; besides the collected messages it records
    which teardown functions were called, and on what.  [try: ... except:
    pass] swallows the [KeyError] of a missing argument and whatever the
    teardown function throws. *)
Fixpoint clean_up_loop (entries : list (string * (value → outcome unit)))
    (kwargs : list (string * value))
    (errors : list string) (calls : list (string * value))
  : list string * list (string * value) :=
  match entries with
  | [] => (errors, calls)
  | (key, func) :: rest =>
      match od_get key kwargs with
      | None =>
          clean_up_loop rest kwargs
            (errors ++ ["Could not clean up " +:+ key +:+ ", no arg found"])
            calls
      | Some v =>
          match func v with
          | Ok _ => clean_up_loop rest kwargs errors (calls ++ [(key, v)])
          | Raise _ => clean_up_loop rest kwargs errors (calls ++ [(key, v)])
          end
      end
  end.

Definition clean_up (kwargs : list (string * value))
  : list (string * value) * outcome unit :=
  match clean self with
  | [] => ([], Ok ())
  | _ =>
      let '(errors, calls) := clean_up_loop (clean self) kwargs [] [] in
      match errors with
      | [] => (calls, Ok ())
      | _ => (calls, Raise (CleanUpErrors errors))
      end
  end.
End unflatten.

(** The teardown functions of a clean-up map that throw on the argument
    they are given. *)
Definition failing_teardowns (entries : list (string * (value → outcome unit)))
    (kwargs : list (string * value)) : list string :=
  omap (λ kf, match od_get kf.1 kwargs with
              | Some v => match kf.2 v with
                          | Raise _ => Some kf.1
                          | Ok _ => None
                          end
              | None => None
              end) entries.

(** ** Bulk replace: [SQLConnectionNode.get_bulk_replace] *)

(** The connection categories the method distinguishes:
    [is_sqlalchemy_conn(conn)], [isinstance(conn, sqlite3.Connection)],
    and everything else. *)
Inductive connection := SQLAlchemyConn | SQLiteConn | CursorConn.

(** A row, as far as the method inspects it: [isinstance(row,
    sqlite3.Row)], [isinstance(row, tuple)], and what [row.keys()]
    gives, the keys or the exception of the call. *)
Record row := {
  is_sqlite_row : bool;
  is_tuple : bool;
  row_keys : outcome (list string)
}.

(** Rows of the usual types: a [sqlite3.Row], a dict, a plain tuple, and
    a list (or a [pyodbc.Row]), which is no tuple and has no [keys]. *)
Definition SqliteRow (cols : list (string * value)) : row :=
  {| is_sqlite_row := true; is_tuple := false; row_keys := Ok cols.*1 |}.

Definition DictRow (cols : list (string * value)) : row :=
  {| is_sqlite_row := false; is_tuple := false; row_keys := Ok cols.*1 |}.

Definition TupleRow (vals : list value) : row :=
  {| is_sqlite_row := false; is_tuple := true;
     row_keys := Raise (AttributeError "keys") |}.

Definition ListRow (vals : list value) : row :=
  {| is_sqlite_row := false; is_tuple := false;
     row_keys := Raise (AttributeError "keys") |}.

Section bulk_replace.
Context {stmt : Type}.
(** [glide.sql_utils.get_bulk_replace(table, columns, dicts=..,
    value_string=..)] is not part of the file; a keyword that the call
    leaves out is [None]. *)
Variable sql_get_bulk_replace :
  string → list string → option bool → option string → stmt.

Definition get_bulk_replace (conn : connection) (table : string)
    (rows : list row) : outcome stmt :=
  match rows with
  | [] => Raise IndexError
  | r0 :: _ =>
      match conn with
      | SQLAlchemyConn =>
          keys ← row_keys r0 ;
          Ok (sql_get_bulk_replace table keys (Some false) None)
      | SQLiteConn =>
          if negb (is_sqlite_row r0) then
            Raise (AssertionError "Only sqlite3.Row rows are supported")
          else
            keys ← row_keys r0 ;
            Ok (sql_get_bulk_replace table keys (Some false) (Some "?"))
      | CursorConn =>
          if is_tuple r0 then
            Raise (AssertionError
                     "Dict rows expected, got tuple. Please use a dict cursor.")
          else
            keys ← row_keys r0 ;
            Ok (sql_get_bulk_replace table keys None None)
      end
  end.
End bulk_replace.

(** ** Specification-side notions *)

(** The value a required parameter resolves to: the node's context
    first, the GlobalState as the fallback. *)
Definition resolved_value (ctx : dict) (gs : option GlobalState)
    (p : string) : option value :=
  match ctx !! p with
  | Some v => Some v
  | None => g ← gs ; gs_items g !! p
  end.

(** A call made on a node between two passes. *)
Inductive context_op :=
| UpdateContext (ctx : dict)
| ResetContext.

Definition apply_context_op (st : Node * heap) (op : context_op)
  : Node * heap :=
  match op with
  | UpdateContext ctx => (st.1, update_context st.1 ctx st.2)
  | ResetContext => reset_context st.1 st.2
  end.

(** The live context of a node. *)
Definition live_context (st : Node * heap) : dict :=
  deref st.2 (context st.1).

(** ** Example pipelines *)

Definition item_param : SigParameter :=
  {| p_name := "item"; p_kind := POSITIONAL_OR_KEYWORD; p_default := None |}.

(** [def run(self, item, x)] *)
Definition sig_requires_x : list SigParameter :=
  [ item_param;
    {| p_name := "x"; p_kind := POSITIONAL_OR_KEYWORD; p_default := None |} ].

(** [def run(self, item, y=5)] *)
Definition sig_optional_y : list SigParameter :=
  [ item_param;
    {| p_name := "y"; p_kind := POSITIONAL_OR_KEYWORD;
       p_default := Some (VInt 5) |} ].

(** [def run(self, item, x, y=5)] *)
Definition sig_x_and_y : list SigParameter :=
  [ item_param;
    {| p_name := "x"; p_kind := POSITIONAL_OR_KEYWORD; p_default := None |};
    {| p_name := "y"; p_kind := POSITIONAL_OR_KEYWORD;
       p_default := Some (VInt 5) |} ].

(** Nodes [a] and [b], each constructed without a default context. *)
Definition pipeline_a_b : outcome (list Node * heap) :=
  '(a, h1) ← Node_init "a" ∅ sig_requires_x ∅ ;
  '(b, h2) ← Node_init "b" ∅ sig_optional_y h1 ;
  Ok ([a; b], h2).

Definition script_a_b (ns : list Node) : GliderScript :=
  GliderScript_init ns {| gs_items := ∅ |} [] [] [].

(** One node [a] with [run(item, x, y=5)]; [y] is injected. *)
Definition pipeline_inject : outcome (list Node * heap) :=
  '(a, h1) ← Node_init "a" ∅ sig_x_and_y ∅ ;
  Ok ([a], h1).

Definition script_inject (ns : list Node) : GliderScript :=
  GliderScript_init ns {| gs_items := ∅ |} []
    [("y", λ _, VInt 7)] [].

(** One node [b] with [run(item, y=5)]; [y] is injected. *)
Definition pipeline_inject_keyword_only : outcome (list Node * heap) :=
  '(b, h1) ← Node_init "b" ∅ sig_optional_y ∅ ;
  Ok ([b], h1).

(** One node [a] with [run(item, x)]; [x] is injected. *)
Definition pipeline_inject_positional : outcome (list Node * heap) :=
  '(a, h1) ← Node_init "a" ∅ sig_requires_x ∅ ;
  Ok ([a], h1).

Definition script_inject_x (ns : list Node) : GliderScript :=
  GliderScript_init ns {| gs_items := ∅ |} []
    [("x", λ _, VInt 7)] [].

(** A node with the given name and required parameters; with
    [heap_with_context ctx] its default dict is empty and its live dict
    holds [ctx]. *)
Definition node_requiring (nm : string) (required : list string) : Node :=
  {| name := nm; default_context := 1; context := 2;
     run_args := (λ p, (p, VNone)) <$> required; run_kwargs := [] |}.

Definition heap_with_context (ctx : dict) : heap :=
  {[ 1%positive := ∅; 2%positive := ctx ]}.

(** A clean-up map whose only teardown function throws. *)
Definition script_clean_raises : GliderScript :=
  GliderScript_init [] {| gs_items := ∅ |} [] []
    [("conn", λ _, Raise (Raised "close failed"))].

(** ** Further nodes and helpers of the module *)

(** [DefaultNode.run(self, item, **kwargs)]: push the item through. *)
Definition DefaultNode_signature : list SigParameter :=
  [ {| p_name := "item"; p_kind := POSITIONAL_OR_KEYWORD; p_default := None |};
    {| p_name := "kwargs"; p_kind := VAR_KEYWORD; p_default := None |} ].

Definition DefaultNode_run (it : item) (args : list value) (kwargs : dict)
  : list item * outcome unit := ([it], Ok ()).

(** *** [SQLCursorPushMixin.do_push]

    A cursor is the list of rows it has not handed out yet;
    [fetchmany(n)] hands out at most [n] of them, [fetchall()] all. *)
Section cursor_push.
Context {R : Type}.

Definition fetchmany (n : nat) (cursor : list R) : list R * list R :=
  (take n cursor, drop n cursor).

Definition fetchall (cursor : list R) : list R * list R := (cursor, []).

(** The [while True] loop; every round that does not break hands out at
    least one row, so [fuel] rounds are enough when [fuel] exceeds the
    number of rows left. *)
Fixpoint fetch_loop (fuel : nat) (chunksize : nat) (cursor : list R)
  : list (list R) * list R :=
  match fuel with
  | O => ([], cursor)
  | S fuel' =>
      let '(chunk, cursor') := fetchmany chunksize cursor in
      match chunk with
      | [] => ([], cursor')
      | _ :: _ =>
          let '(pushed, cursor'') := fetch_loop fuel' chunksize cursor' in
          (chunk :: pushed, cursor'')
      end
  end.

(** [do_push(cursor, chunksize)]: the chunks pushed, in order, and the
    cursor afterwards.  [chunksize] is [None] or a number of rows. *)
Definition cursor_do_push (cursor : list R) (chunksize : option nat)
  : list (list R) * list R :=
  match chunksize with
  | Some (S n) => fetch_loop (S (length cursor)) (S n) cursor
  | Some O | None =>
      let '(data, cursor') := fetchall cursor in ([data], cursor')
  end.
End cursor_push.

(** *** Connection nodes *)

(** A connection object, as far as the nodes inspect it: its category
    ([connection]), whether it has a [cursor] attribute, and its
    truthiness. *)
Record Conn := {
  conn_category : connection;
  conn_has_cursor : bool;
  conn_bool : bool
}.

(** Modelled from the spec: [glide.sql_utils.is_sqlalchemy_conn] and
    [SQLALCHEMY_CONN_TYPES] are not part of the file; both stand for the
    dialect-style category. *)
Definition is_sqlalchemy_conn (conn : Conn) : bool :=
  match conn_category conn with SQLAlchemyConn => true | _ => false end.

(** The entries of an [allowed_conn_types] list. *)
Inductive conn_type := SQLAlchemyTypes | Sqlite3Connection | AnyObject.

Definition isinstance (conn : Conn) (t : conn_type) : bool :=
  match t, conn_category conn with
  | AnyObject, _ => true
  | SQLAlchemyTypes, SQLAlchemyConn => true
  | Sqlite3Connection, SQLiteConn => true
  | _, _ => false
  end.

Inductive sql_node_class :=
| BaseSQLConnectionNode
| PandasSQLConnectionNode
| SQLAlchemyConnectionNode
| SQLiteConnectionNode
| SQLDBAPIConnectionNode
| SQLConnectionNode.

Definition class_name (cls : sql_node_class) : string :=
  match cls with
  | BaseSQLConnectionNode => "BaseSQLConnectionNode"
  | PandasSQLConnectionNode => "PandasSQLConnectionNode"
  | SQLAlchemyConnectionNode => "SQLAlchemyConnectionNode"
  | SQLiteConnectionNode => "SQLiteConnectionNode"
  | SQLDBAPIConnectionNode => "SQLDBAPIConnectionNode"
  | SQLConnectionNode => "SQLConnectionNode"
  end.

(** The class attribute [allowed_conn_types]; [None] in the base class. *)
Definition allowed_conn_types (cls : sql_node_class)
  : option (list conn_type) :=
  match cls with
  | BaseSQLConnectionNode => None
  | PandasSQLConnectionNode => Some [SQLAlchemyTypes; Sqlite3Connection]
  | SQLAlchemyConnectionNode => Some [SQLAlchemyTypes]
  | SQLiteConnectionNode => Some [Sqlite3Connection]
  | SQLDBAPIConnectionNode => Some [AnyObject]
  | SQLConnectionNode => Some [AnyObject]
  end.

(** The assertion of [BaseSQLConnectionNode.__init__]. *)
Definition sql_node_init_check (cls : sql_node_class) : outcome unit :=
  match allowed_conn_types cls with
  | Some (_ :: _) => Ok ()
  | _ =>
      Raise (AssertionError
               (class_name cls +:+
                ".allowed_conn_types must be a list or tuple of connection types"))
  end.

Definition _is_allowed_conn (cls : sql_node_class) (conn : Conn) : bool :=
  existsb (isinstance conn) (default [] (allowed_conn_types cls)).

(** [BaseSQLConnectionNode.check_conn]; the message of the source also
    prints the type of the connection and the allowed types. *)
Definition base_check_conn (cls : sql_node_class) (conn : Conn)
  : outcome unit :=
  if _is_allowed_conn cls conn then Ok ()
  else Raise (AssertionError "Connection type is not in allowed types").

(** [check_conn], with the overrides of [SQLDBAPIConnectionNode] and
    [SQLConnectionNode]. *)
Definition check_conn (cls : sql_node_class) (conn : Conn) : outcome unit :=
  match cls with
  | SQLDBAPIConnectionNode =>
      _ ← base_check_conn cls conn ;
      if conn_has_cursor conn then Ok ()
      else Raise (AssertionError
                    "DBAPI connections must have a cursor() method")
  | SQLConnectionNode =>
      if conn_has_cursor conn || is_sqlalchemy_conn conn then Ok ()
      else Raise (AssertionError
                    "Connection must have a cursor() method or be a SQLAlchemy connection")
  | _ => base_check_conn cls conn
  end.

(** [x or y] on two optional connections ([None] is falsy). *)
Definition conn_or (x y : option Conn) : option Conn :=
  match x with
  | Some c => if conn_bool c then Some c else y
  | None => y
  end.

(** [BaseSQLConnectionNode.begin]; the arguments are
    [self.context.get("conn", None)] and
    [self.global_state.get("conn", None)].  Returns the connection that
    passed the check. *)
Definition sql_node_begin (cls : sql_node_class)
    (context_conn global_state_conn : option Conn) : outcome Conn :=
  match conn_or context_conn global_state_conn with
  | Some conn =>
      if conn_bool conn then
        _ ← check_conn cls conn ; Ok conn
      else Raise (AssertionError
                    (class_name cls +:+
                     " requires a conn argument in context or global state"))
  | None =>
      Raise (AssertionError
               (class_name cls +:+
                " requires a conn argument in context or global state"))
  end.

(** What [get_sql_executor] returns: the connection itself, or the
    cursor that [conn.cursor()] returned. *)
Inductive sql_executor (Cursor : Type) :=
| ExecConn (conn : Conn)
| ExecCursor (cursor : Cursor).
Arguments ExecConn {Cursor} conn.
Arguments ExecCursor {Cursor} cursor.

Section sql_executor.
Context {Cursor : Type}.
(** The call [conn.cursor()] on a connection that has the attribute:
    the cursor it returns, or the exception it raises (a closed
    connection, an attribute that cannot be called). *)
Variable call_cursor : Conn → outcome Cursor.

(** [SQLConnectionNode.get_sql_executor] *)
Definition get_sql_executor (conn : Conn) : outcome (sql_executor Cursor) :=
  if is_sqlalchemy_conn conn then Ok (ExecConn conn)
  else if conn_has_cursor conn then
    cursor ← call_cursor conn ; Ok (ExecCursor cursor)
  else Raise (AttributeError "cursor").
End sql_executor.

(** *** Node contexts around a pass: [update_node_contexts],
    [reset_node_contexts], [consume] *)

Abbreviation node_lookup := (gmap string Node).

(** Returns the heap as the loop left it, also when the assertion
    stops it. *)
Fixpoint update_node_contexts (lookup : node_lookup)
    (node_contexts : list (string * dict)) (h : heap) : heap * outcome unit :=
  match node_contexts with
  | [] => (h, Ok ())
  | (k, v) :: rest =>
      match lookup !! k with
      | None => (h, Raise (AssertionError ("Invalid node: " +:+ k)))
      | Some n => update_node_contexts lookup rest (update_context n v h)
      end
  end.


Section consume.
Context {Data : Type}.
(** [pipeline.consume(iterize(data))], the engine's pass: what it does
    to the heap and whether it returns. *)
Variable pipeline_consume : node_lookup → heap → Data → heap * outcome unit.

End consume.

(** *** Strings *)

Fixpoint has_char (c : Ascii.ascii) (s : string) : bool :=
  match s with
  | EmptyString => false
  | String c' s' => Ascii.eqb c' c || has_char c s'
  end.

(** What holds of a node between calls: its default dict is [D], and its
    live dict is another object. *)
Definition context_inv (D : dict) (st : Node * heap) : Prop :=
  st.2 !! default_context st.1 = Some D
  ∧ default_context st.1 ≠ context st.1.

(** Cutting a list into consecutive pieces of the given sizes. *)
Fixpoint chunks {A} (sizes : list nat) (ary : list A) : list (list A) :=
  match sizes with
  | [] => []
  | s :: ss => take s ary :: chunks ss (drop s ary)
  end.

(** The sizes of the sections [array_split] cuts, without the leading 0
    that starts the running sum. *)
Definition split_sizes (Ntotal Nsections : nat) : list nat :=
  replicate (Ntotal mod Nsections) (Ntotal / Nsections + 1)
  ++ replicate (Nsections - Ntotal mod Nsections) (Ntotal / Nsections).

(** The message [clean_up] collects for an entry without argument, and
    the call it makes for an entry with one. *)
Definition missing_arg_message (kwargs : list (string * value))
    (kf : string * (value → outcome unit)) : option string :=
  match od_get kf.1 kwargs with
  | None => Some ("Could not clean up " +:+ kf.1 +:+ ", no arg found")
  | Some _ => None
  end.

Definition teardown_call (kwargs : list (string * value))
    (kf : string * (value → outcome unit)) : option (string * value) :=
  v ← od_get kf.1 kwargs ; Some (kf.1, v).

(** How [_get_run_args] classifies a parameter other than the first. *)
Definition allowed_kind (p : SigParameter) : bool :=
  match p_kind p with
  | VAR_POSITIONAL | KEYWORD_ONLY => false
  | _ => true
  end.

Definition is_required (p : SigParameter) : bool :=
  match p_kind p, p_default p with
  | POSITIONAL_ONLY, _ => true
  | POSITIONAL_OR_KEYWORD, None => true
  | _, _ => false
  end.

Definition keyword_of (p : SigParameter) : option (string * value) :=
  match p_kind p, p_default p with
  | POSITIONAL_OR_KEYWORD, Some d => Some (p_name p, d)
  | _, _ => None
  end.

(** The first rows that pass the assertion [get_bulk_replace] makes for
    the category (none for a SQLAlchemy connection). *)
Definition row_accepted (conn : connection) (r : row) : bool :=
  match conn with
  | SQLAlchemyConn => true
  | SQLiteConn => is_sqlite_row r
  | CursorConn => negb (is_tuple r)
  end.

(** The keywords [dicts] and [value_string] of the call for the
    category; [None] for a keyword the call leaves out. *)
Definition bulk_replace_keywords (conn : connection)
  : option bool * option string :=
  match conn with
  | SQLAlchemyConn => (Some false, None)
  | SQLiteConn => (Some false, Some "?")
  | CursorConn => (None, None)
  end.

(** Example connections: a [sqlite3.Connection], a SQLAlchemy
    connection, and some other object with or without [cursor]. *)
Definition sqlite3_conn : Conn :=
  {| conn_category := SQLiteConn; conn_has_cursor := true;
     conn_bool := true |}.

Definition sqlalchemy_conn : Conn :=
  {| conn_category := SQLAlchemyConn; conn_has_cursor := false;
     conn_bool := true |}.

Definition other_conn (has_cursor : bool) : Conn :=
  {| conn_category := CursorConn; conn_has_cursor := has_cursor;
     conn_bool := true |}.

(** The reserved argument that carries the data. *)
Definition data_arg : Arg :=
  {| a_flag := SCRIPT_DATA_ARG; a_nargs := Some "+"; a_required := None;
     a_type := None; a_action := None; a_default := None |}.

(** The names of the parameters in a node's run contract. *)
Definition run_params (n : Node) : list string :=
  (run_args n).*1 ++ (run_kwargs n).*1.

(** What is kept true of the OrderedDict [script_args] while the
    surface is built: keys are distinct, each key is the name of its
    argument, and each argument satisfies [P]. *)
Definition script_args_inv (P : Arg → Prop) (script_args : list (string * Arg))
  : Prop :=
  NoDup script_args.*1
  ∧ ∀ k a, (k, a) ∈ script_args → k = Arg_name a ∧ P a.

(** [node_contexts[k][a]] is [v]. *)
Definition has_entry (node_contexts : list (string * dict))
    (k a : string) (v : value) : Prop :=
  ∃ d, od_get k node_contexts = Some d ∧ d !! a = Some v.

(** * Verification *)

(** ** Argument resolution *)

Lemma resolved_value_context (ctx : dict) gs p v :
  ctx !! p = Some v → resolved_value ctx gs p = Some v.
Proof. intros Hp. unfold resolved_value. by rewrite Hp. Qed.

Lemma resolved_value_fallback (ctx : dict) g p :
  ctx !! p = None → resolved_value ctx (Some g) p = gs_items g !! p.
Proof. intros Hp. unfold resolved_value. by rewrite Hp. Qed.

Lemma resolved_value_absent (ctx : dict) gs p :
  resolved_value ctx gs p = None ↔
  ctx !! p = None ∧ ∀ g, gs = Some g → gs_items g !! p = None.
Proof.
  unfold resolved_value. destruct (ctx !! p) as [v|]; simpl.
  - split; [done | by intros [? _]].
  - destruct gs as [g|]; simpl.
    + split; [intros Hg; split; [done|]; by intros ? [= <-] | ].
      intros [_ Hg]. by apply Hg.
    + split; [|done]. intros _. split; [done | by intros ? [=]].
Qed.

(** One iteration of the positional loop. *)
Lemma populate_args_step (ctx : dict) gs a rest acc :
  populate_args ctx gs (a :: rest) acc =
  match resolved_value ctx gs a with
  | Some v => populate_args ctx gs rest (acc ++ [v])
  | None => Raise (MissingRunArg a ctx)
  end.
Proof.
  simpl. unfold resolved_value.
  destruct (ctx !! a) as [v|]; [done|].
  unfold global_state_has, global_state_get, GlobalState_bool,
    GlobalState_contains.
  destruct gs as [g|]; simpl; [|done].
  by destruct (gs_items g !! a) as [w|] eqn:Hg.
Qed.

Lemma populate_args_ok (ctx : dict) gs l : ∀ acc vs,
  Forall2 (λ p v, resolved_value ctx gs p = Some v) l vs →
  populate_args ctx gs l acc = Ok (acc ++ vs).
Proof.
  induction l as [|a l IH]; intros acc vs Hall.
  - apply Forall2_nil_inv_l in Hall as ->. by rewrite app_nil_r.
  - apply Forall2_cons_inv_l in Hall as (v & vs' & Hv & Hall & ->).
    rewrite populate_args_step, Hv, (IH _ vs') by done.
    by rewrite <- app_assoc.
Qed.

Lemma populate_args_missing (ctx : dict) gs pre : ∀ p post acc,
  Forall (λ q, is_Some (resolved_value ctx gs q)) pre →
  resolved_value ctx gs p = None →
  populate_args ctx gs (pre ++ p :: post) acc = Raise (MissingRunArg p ctx).
Proof.
  induction pre as [|a pre IH]; intros p post acc Hpre Hp.
  - simpl app. by rewrite populate_args_step, Hp.
  - apply Forall_cons in Hpre as [[v Hv] Hpre].
    rewrite <- app_comm_cons, populate_args_step, Hv. by apply IH.
Qed.

Lemma resolved_values_exist (ctx : dict) gs l :
  Forall (λ q, is_Some (resolved_value ctx gs q)) l →
  ∃ vs, Forall2 (λ p v, resolved_value ctx gs p = Some v) l vs.
Proof.
  induction 1 as [|a l [v Hv] _ [vs IH]].
  - by exists [].
  - exists (v :: vs). by constructor.
Qed.

(** Resolution walks the required parameters in contract order: it
    stops at the first one no source defines, and otherwise binds each
    to its resolved value. *)
Lemma populate_run_args_spec
    (ctx : dict) (gs : option GlobalState) (ra : list (string * value)) :
  (∀ pre p post,
     ra.*1 = pre ++ p :: post →
     Forall (λ q, is_Some (resolved_value ctx gs q)) pre →
     resolved_value ctx gs p = None →
     _populate_run_args ctx gs ra = Raise (MissingRunArg p ctx))
  ∧ (Forall (λ q, is_Some (resolved_value ctx gs q)) ra.*1 →
     ∃ _args,
       _populate_run_args ctx gs ra = Ok (_args, populate_kwargs ctx ra.*1)
       ∧ length _args = length ra
       ∧ ∀ i p, ra.*1 !! i = Some p → _args !! i = resolved_value ctx gs p).
Proof.
  split.
  - intros pre p post Hra Hpre Hp. unfold _populate_run_args.
    rewrite Hra. by rewrite populate_args_missing.
  - intros Hall. destruct (resolved_values_exist _ _ _ Hall) as [vs Hvs].
    exists vs. unfold _populate_run_args.
    rewrite (populate_args_ok _ _ _ [] vs Hvs). simpl.
    split; [done|]. split.
    + apply Forall2_length in Hvs. by rewrite length_fmap in Hvs.
    + intros i p Hi.
      destruct (Forall2_lookup_l _ _ _ _ _ Hvs Hi) as (v & Hv & Hres).
      by rewrite Hv, Hres.
Qed.

(** C1 (as amended): [process(item)] resolves the required parameters
    in contract order.  If [p] is the first one that neither the live
    context nor the GlobalState defines, [process] raises the error
    that carries [p] and the live context, and [_run] is not reached.
    If every required parameter is defined by at least one source,
    [process] hands the item to [_run] with one positional value per
    required parameter: the context's when the context defines the
    parameter, the GlobalState's otherwise. *)
Theorem process_resolves_run_args
    (_run : item → list value → dict → list event * outcome unit)
    (n : Node) (h : heap) (gs : option GlobalState) (it : item) :
  let ctx := live_context (n, h) in
  (∀ pre p post,
     (run_args n).*1 = pre ++ p :: post →
     Forall (λ q, is_Some (resolved_value ctx gs q)) pre →
     resolved_value ctx gs p = None →
     process _run n h gs it = ([], Raise (MissingRunArg p ctx)))
  ∧ (Forall (λ q, is_Some (resolved_value ctx gs q)) (run_args n).*1 →
     ∃ _args,
       process _run n h gs it
       = _run it _args (populate_kwargs ctx (run_args n).*1)
       ∧ length _args = length (run_args n)
       ∧ ∀ i p, (run_args n).*1 !! i = Some p →
                _args !! i = resolved_value ctx gs p).
Proof.
  intros ctx. unfold process. change (deref h (context n)) with ctx.
  destruct (populate_run_args_spec ctx gs (run_args n)) as [Hmiss Hok].
  split.
  - intros pre p post Hra Hpre Hp. by rewrite (Hmiss pre p post).
  - intros Hall. destruct (Hok Hall) as (_args & Hpop & Hlen & Hval).
    exists _args. by rewrite Hpop.
Qed.

Lemma process_resolves_run_args_witness :
  process (Node_run Node_base_run)
    (node_requiring "n" ["x"; "y"; "z"]) (heap_with_context {["x" := VInt 1]})
    (Some {| gs_items := {["y" := VInt 2]} |}) (Plain (VInt 0))
  = ([], Raise (MissingRunArg "z" {["x" := VInt 1]}))
  ∧ ∃ _args,
      process (SkipFalseNode_run (λ it _ _, ([it], Ok ())))
        (node_requiring "n" ["x"; "y"])
        (heap_with_context {["x" := VInt 1; "y" := VInt 3; "k" := VNone]})
        (Some {| gs_items := {["y" := VInt 2]} |}) (Plain (VInt 5))
      = ([ERun (Plain (VInt 5)) _args {["k" := VNone]};
          EPush (Plain (VInt 5))], Ok ())
      ∧ _args !! 1 = Some (VInt 3).
Proof.
  split.
  - refine (eq_trans
              (proj1 (process_resolves_run_args (Node_run Node_base_run)
                        (node_requiring "n" ["x"; "y"; "z"])
                        (heap_with_context {["x" := VInt 1]})
                        (Some {| gs_items := {["y" := VInt 2]} |})
                        (Plain (VInt 0)))
                 ["x"; "y"] "z" [] _ _ _) _).
    + reflexivity.
    + repeat constructor; vm_compute; eauto.
    + reflexivity.
    + reflexivity.
  - destruct (proj2 (process_resolves_run_args
                       (SkipFalseNode_run (λ it _ _, ([it], Ok ())))
                       (node_requiring "n" ["x"; "y"])
                       (heap_with_context
                          {["x" := VInt 1; "y" := VInt 3; "k" := VNone]})
                       (Some {| gs_items := {["y" := VInt 2]} |})
                       (Plain (VInt 5))))
      as (a & Ha & _ & Hi).
    + repeat constructor; vm_compute; eauto.
    + exists a. split; [exact Ha|]. apply (Hi 1 "y"). reflexivity.
Defined.

(** C1 (counterexample): a node whose [run] requires [q] and [p], both
    absent from the context and the GlobalState.  [p] is a required
    parameter absent from both sources, yet the error [process] raises
    names [q]; no error naming [p] is raised.  And the error does not
    tell the node: nodes [n] and [m] with the same contract and context
    raise the same one. *)
Lemma process_names_first_missing_only :
  ("p" ∈ (run_args (node_requiring "n" ["q"; "p"])).*1
   ∧ live_context (node_requiring "n" ["q"; "p"], heap_with_context ∅) !! "p"
     = None
   ∧ gs_items {| gs_items := ∅ |} !! "p" = None
   ∧ process (Node_run Node_base_run) (node_requiring "n" ["q"; "p"])
       (heap_with_context ∅) (Some {| gs_items := ∅ |}) (Plain (VInt 0))
     = ([], Raise (MissingRunArg "q" ∅))
   ∧ ¬ ∃ c, process (Node_run Node_base_run) (node_requiring "n" ["q"; "p"])
              (heap_with_context ∅) (Some {| gs_items := ∅ |})
              (Plain (VInt 0))
            = ([], Raise (MissingRunArg "p" c)))
  ∧ (process (Node_run Node_base_run) (node_requiring "n" ["p"])
       (heap_with_context ∅) (Some {| gs_items := ∅ |}) (Plain (VInt 0))
     = ([], Raise (MissingRunArg "p" ∅))
     ∧ process (Node_run Node_base_run) (node_requiring "m" ["p"])
         (heap_with_context ∅) (Some {| gs_items := ∅ |}) (Plain (VInt 0))
       = ([], Raise (MissingRunArg "p" ∅))).
Proof.
  split; [|split; reflexivity].
  split; [simpl; set_solver|]. split; [reflexivity|]. split; [reflexivity|].
  split; [reflexivity|].
  intros [c Hc]. vm_compute in Hc. discriminate Hc.
Qed.

(** ** Contexts: update and reset *)

Lemma alloc_lookup d (h : heap) : (alloc d h).2 !! (alloc d h).1 = Some d.
Proof. unfold alloc. simpl. apply lookup_insert_eq. Qed.

Lemma alloc_fresh d (h : heap) : h !! (alloc d h).1 = None.
Proof. unfold alloc. simpl. apply not_elem_of_dom, is_fresh. Qed.

Lemma alloc_preserves d (h : heap) l x :
  h !! l = Some x → (alloc d h).2 !! l = Some x.
Proof.
  intros Hl. unfold alloc. simpl. rewrite lookup_insert_ne; [done|].
  intros Heq. pose proof (alloc_fresh d h) as Hf. unfold alloc in Hf.
  simpl in Hf. rewrite Heq in Hf. congruence.
Qed.

Lemma reset_context_live (D : dict) (st : Node * heap) :
  st.2 !! default_context st.1 = Some D →
  live_context (reset_context st.1 st.2) = D
  ∧ context_inv D (reset_context st.1 st.2).
Proof.
  destruct st as [n h]. simpl. intros HD.
  unfold reset_context, dict_copy, live_context, context_inv.
  destruct (alloc (deref h (default_context n)) h) as [l h'] eqn:Ha.
  pose proof (alloc_lookup (deref h (default_context n)) h) as Hl.
  pose proof (alloc_fresh (deref h (default_context n)) h) as Hf.
  pose proof (alloc_preserves (deref h (default_context n)) h _ _ HD) as Hp.
  rewrite Ha in Hl, Hf, Hp. simpl in *.
  unfold deref in *. rewrite HD in Hl. simpl in Hl.
  rewrite Hl. simpl. repeat split; [done|]. congruence.
Qed.

Lemma update_context_inv (D : dict) (st : Node * heap) (ctx : dict) :
  context_inv D st → context_inv D (st.1, update_context st.1 ctx st.2).
Proof.
  destruct st as [n h]. intros [HD Hne]. split; [|done]. simpl in *.
  unfold update_context, dict_update. by rewrite lookup_insert_ne.
Qed.

Lemma update_context_live (st : Node * heap) (ctx : dict) :
  live_context (st.1, update_context st.1 ctx st.2) = ctx ∪ live_context st.
Proof.
  destruct st as [n h]. unfold live_context, update_context, dict_update.
  simpl. unfold deref at 1. by rewrite lookup_insert_eq.
Qed.

Lemma apply_context_op_inv (D : dict) (st : Node * heap) (op : context_op) :
  context_inv D st → context_inv D (apply_context_op st op).
Proof.
  intros Hinv. destruct op as [ctx|]; simpl.
  - by apply update_context_inv.
  - apply reset_context_live, Hinv.
Qed.

Lemma context_ops_inv (D : dict) (ops : list context_op) : ∀ st,
  context_inv D st → context_inv D (foldl apply_context_op st ops).
Proof.
  induction ops as [|op ops IH]; intros st Hinv; simpl; [done|].
  by apply IH, apply_context_op_inv.
Qed.

Lemma reset_context_default (n : Node) (h : heap) :
  default_context (reset_context n h).1 = default_context n.
Proof. unfold reset_context. by destruct (dict_copy _ _). Qed.

Lemma Node_init_inv nm (D : dict) sig (h : heap) st :
  Node_init nm D sig h = Ok st → context_inv D st ∧ live_context st = D.
Proof.
  unfold Node_init.
  destruct (alloc D h) as [ld h1] eqn:Ha.
  pose proof (alloc_lookup D h) as Hl. rewrite Ha in Hl. simpl in Hl.
  set (n0 := {| name := nm; default_context := ld; context := ld;
                run_args := []; run_kwargs := [] |}).
  destruct (reset_context_live D (n0, h1) Hl) as [Hlive [HD Hne]].
  pose proof (reset_context_default n0 h1) as Hd.
  change (n0, h1).1 with n0 in *. change (n0, h1).2 with h1 in *.
  destruct (reset_context n0 h1) as [n h2].
  destruct (_get_run_args sig) as [[pos kw]|e]; simpl; [|done].
  intros [= <-]. unfold context_inv, live_context in *. simpl in *.
  rewrite Hd in HD, Hne. done.
Qed.

(** C2: a node constructed with default context [D], after any sequence
    of [update_context] (and [reset_context]) calls, has a live context
    equal to [D] once [reset_context] is called; the default dict itself
    still holds [D]. *)
Theorem reset_context_restores_default
    nm (D : dict) sig (h : heap) (st : Node * heap) (ops : list context_op) :
  Node_init nm D sig h = Ok st →
  let st' := foldl apply_context_op st ops in
  live_context (reset_context st'.1 st'.2) = D
  ∧ deref (reset_context st'.1 st'.2).2 (default_context st'.1) = D.
Proof.
  intros Hinit st'.
  destruct (Node_init_inv _ _ _ _ _ Hinit) as [Hinv _].
  pose proof (context_ops_inv D ops st Hinv) as [HD Hne]. fold st' in HD.
  destruct (reset_context_live D st' HD) as [Hlive [HD' _]].
  split; [done|].
  unfold deref. rewrite reset_context_default in HD'. by rewrite HD'.
Qed.

Lemma reset_context_restores_default_witness :
  ∃ st, Node_init "n" {["k" := VInt 1]} sig_requires_x ∅ = Ok st
  ∧ live_context
      (foldl apply_context_op st
         [UpdateContext {["k" := VInt 2; "extra" := VStr "e"]}])
    = {["k" := VInt 2; "extra" := VStr "e"]}
  ∧ live_context
      (reset_context
         (foldl apply_context_op st
            [UpdateContext {["k" := VInt 2; "extra" := VStr "e"]}]).1
         (foldl apply_context_op st
            [UpdateContext {["k" := VInt 2; "extra" := VStr "e"]}]).2)
    = {["k" := VInt 1]}.
Proof.
  eexists. split; [reflexivity|]. split; [reflexivity|].
  apply (reset_context_restores_default "n" {["k" := VInt 1]}
           sig_requires_x ∅ _
           [UpdateContext {["k" := VInt 2; "extra" := VStr "e"]}]).
  reflexivity.
Defined.

(** ** Skip-on-falsy *)

Lemma run_calls_pushes (l : list item) : run_calls (EPush <$> l) = [].
Proof. induction l; simpl; auto. Qed.

Lemma run_calls_call_run run it args kwargs :
  run_calls (call_run run it args kwargs).1 = [(it, args, kwargs)].
Proof.
  unfold call_run. destruct (run it args kwargs) as [pushed r]. simpl.
  by rewrite run_calls_pushes.
Qed.

(** C3 (as amended): the call of [_run] on a [SkipFalseNode] can be
    bound when its keywords include neither [self] nor [item].  Then,
    given a frame that is empty (no rows, or no columns) or a falsy
    non-tabular item, the node pushes exactly that item and does not
    call [run]: the outcome is the same whatever [run] would do.  Given
    a frame with rows and columns or a truthy non-tabular item, it
    calls [run] exactly once, with that item and the resolved
    arguments: what is pushed and whether the call returns or throws
    are what that one call of [run] does.  When the keywords include
    [self] or [item], the call raises [TypeError]: whatever the item,
    nothing is pushed and [run] is not called. *)
Theorem skip_false_node_run
    (run : item → list value → dict → list item * outcome unit)
    (it : item) (args : list value) (kwargs : dict) :
  (keyword_clash kwargs = false →
   ((∃ cols, it = Tabular cols []) ∨ (∃ rows, it = Tabular [] rows)
    ∨ (∃ v, it = Plain v ∧ truthy v = false) →
      SkipFalseNode_run run it args kwargs = ([EPush it], Ok ())
      ∧ run_calls (SkipFalseNode_run run it args kwargs).1 = []
      ∧ pushes (SkipFalseNode_run run it args kwargs).1 = [it])
   ∧ ((∃ c cols r rows, it = Tabular (c :: cols) (r :: rows))
      ∨ (∃ v, it = Plain v ∧ truthy v = true) →
      SkipFalseNode_run run it args kwargs
      = (ERun it args kwargs :: (EPush <$> (run it args kwargs).1),
         (run it args kwargs).2)
      ∧ run_calls (SkipFalseNode_run run it args kwargs).1
        = [(it, args, kwargs)]))
  ∧ (keyword_clash kwargs = true →
     SkipFalseNode_run run it args kwargs = ([], Raise TypeError)).
Proof.
  split; [|intros Hclash; unfold SkipFalseNode_run; by rewrite Hclash].
  intros Hbind. split.
  - intros Hskip.
    assert (SkipFalseNode_run run it args kwargs = ([EPush it], Ok ()))
      as ->; [|done].
    unfold SkipFalseNode_run. rewrite Hbind.
    destruct Hskip as [[cols ->] | [[rows ->] | (v & -> & Hv)]]; simpl.
    + by destruct cols.
    + done.
    + by rewrite Hv.
  - intros Hrun.
    assert (SkipFalseNode_run run it args kwargs
            = (ERun it args kwargs :: (EPush <$> (run it args kwargs).1),
               (run it args kwargs).2)) as ->.
    { unfold SkipFalseNode_run, call_run. rewrite Hbind.
      destruct Hrun as [(c & cols & r & rows & ->) | (v & -> & Hv)]; simpl.
      - by destruct (run _ _ _).
      - rewrite Hv. simpl. by destruct (run _ _ _). }
    split; [done|]. simpl. by rewrite run_calls_pushes.
Qed.

Lemma skip_false_node_run_witness :
  SkipFalseNode_run (λ _ _ _, ([Plain (VStr "ran")], Raise (Raised "boom")))
    (Plain (VList [])) [] ∅
  = ([EPush (Plain (VList []))], Ok ())
  ∧ SkipFalseNode_run (λ _ args _, ([Plain (VList args)], Raise (Raised "boom")))
      (Tabular ["c"] [[VInt 1]]) [VInt 4] {["k" := VNone]}
    = ([ERun (Tabular ["c"] [[VInt 1]]) [VInt 4] {["k" := VNone]};
        EPush (Plain (VList [VInt 4]))], Raise (Raised "boom"))
  ∧ SkipFalseNode_run (λ it _ _, ([it], Ok ()))
      (Plain (VList [])) [] {["self" := VNone]}
    = ([], Raise TypeError).
Proof.
  assert (keyword_clash ∅ = false) as Hb0 by (vm_compute; reflexivity).
  assert (keyword_clash {["k" := VNone]} = false) as Hb1
    by (vm_compute; reflexivity).
  assert (keyword_clash {["self" := VNone]} = true) as Hb2
    by (vm_compute; reflexivity).
  split; [|split].
  - apply (proj1 (proj1 (skip_false_node_run
                    (λ _ _ _, ([Plain (VStr "ran")], Raise (Raised "boom")))
                    (Plain (VList [])) [] ∅) Hb0)).
    right. right. exists (VList []). split; reflexivity.
  - refine (eq_trans
              (proj1 (proj2 (proj1 (skip_false_node_run
                        (λ _ args _, ([Plain (VList args)],
                                      Raise (Raised "boom")))
                        (Tabular ["c"] [[VInt 1]]) [VInt 4]
                        {["k" := VNone]}) Hb1) _)) _).
    + left. by exists "c", [], [VInt 1], [].
    + reflexivity.
  - apply (proj2 (skip_false_node_run (λ it _ _, ([it], Ok ()))
                    (Plain (VList [])) [] {["self" := VNone]}) Hb2).
Defined.

(** C3 (counterexample): a [SkipFalseNode] without required parameters
    whose context holds the key [item].  [process] passes the context
    on as keywords, so the call of [_run] gets a second value for
    [item] and raises [TypeError] before the body of [_run] looks at the
    item: the falsy item [[]] is not pushed, and for the truthy item [5]
    [run] is not called. *)
Lemma skip_false_node_unbound_call :
  item_falsy (Plain (VList [])) = true
  ∧ process (SkipFalseNode_run DefaultNode_run) (node_requiring "n" [])
      (heap_with_context {["item" := VInt 1]}) None (Plain (VList []))
    = ([], Raise TypeError)
  ∧ pushes (process (SkipFalseNode_run DefaultNode_run)
              (node_requiring "n" [])
              (heap_with_context {["item" := VInt 1]}) None
              (Plain (VList []))).1
    ≠ [Plain (VList [])]
  ∧ item_falsy (Plain (VInt 5)) = false
  ∧ process (SkipFalseNode_run DefaultNode_run) (node_requiring "n" [])
      (heap_with_context {["item" := VInt 1]}) None (Plain (VInt 5))
    = ([], Raise TypeError)
  ∧ run_calls (process (SkipFalseNode_run DefaultNode_run)
                 (node_requiring "n" [])
                 (heap_with_context {["item" := VInt 1]}) None
                 (Plain (VInt 5))).1
    = [].
Proof.
  split; [reflexivity|]. split; [reflexivity|].
  split; [intros H; vm_compute in H; discriminate H|].
  split; [reflexivity|]. split; [reflexivity|]. vm_compute. reflexivity.
Qed.

(** ** Reducer *)

Lemma reducer_process_step {I} (ctx : dict) gs (results : list I) (it : I) :
  keyword_clash ctx = false →
  Reducer.process ctx gs (Some results) it = Ok ([], Some (results ++ [it])).
Proof.
  intros Hbind. unfold Reducer.process. simpl.
  unfold _populate_run_args, populate_kwargs. simpl.
  rewrite map_filter_id by done. by rewrite Hbind.
Qed.

Lemma reducer_process_all {I} (ctx : dict) gs (items : list I) :
  keyword_clash ctx = false →
  ∀ results,
    Reducer.process_all ctx gs (Some results) items
    = Ok ([], Some (results ++ items)).
Proof.
  intros Hbind.
  induction items as [|it items IH]; intros results.
  - simpl. by rewrite app_nil_r.
  - change (Reducer.process_all ctx gs (Some results) (it :: items))
      with ('(p1, st1) ← Reducer.process ctx gs (Some results) it ;
            '(p2, st2) ← Reducer.process_all ctx gs st1 items ;
            Ok (p1 ++ p2, st2)).
    rewrite reducer_process_step by done. simpl. rewrite IH. simpl.
    by rewrite <- app_assoc.
Qed.

Lemma reducer_process_unbound {I} (ctx : dict) gs (st : @Reducer.state I) it :
  keyword_clash ctx = true →
  Reducer.process ctx gs st it = Raise TypeError.
Proof.
  intros Hclash. unfold Reducer.process. simpl.
  unfold _populate_run_args, populate_kwargs. simpl.
  rewrite map_filter_id by done. by rewrite Hclash.
Qed.

(** C5 (as amended): take a reducer whose context holds no key [self]
    or [item].  Over one pass that delivers [items] in arrival order,
    whatever the reducer held before, [begin] empties the buffer, no
    [process] step pushes, and the pushes of the whole pass are the
    single push of [items] made by [end].  With a context that holds
    [self] or [item], the call of [_run] for the first item delivered
    raises [TypeError], and the pass pushes nothing. *)
Theorem reducer_pass_pushes_once {I}
    (ctx : dict) (gs : option GlobalState) (st : @Reducer.state I)
    (items : list I) :
  (keyword_clash ctx = false →
   Reducer.begin st = Some []
   ∧ (∀ (results : list I) (it : I),
        Reducer.process ctx gs (Some results) it
        = Ok ([], Some (results ++ [it])))
   ∧ Reducer.process_all ctx gs (Reducer.begin st) items
     = Ok ([], Some items)
   ∧ Reducer.consume_pass ctx gs st items = Ok [items])
  ∧ (keyword_clash ctx = true → items ≠ [] →
     Reducer.consume_pass ctx gs st items = Raise TypeError).
Proof.
  split.
  - intros Hbind.
    split; [done|]. split; [intros; by apply reducer_process_step|].
    unfold Reducer.consume_pass, Reducer.begin.
    rewrite reducer_process_all by done. simpl. done.
  - intros Hclash Hitems. destruct items as [|it items]; [done|].
    unfold Reducer.consume_pass.
    change (Reducer.process_all ctx gs (Reducer.begin st) (it :: items))
      with ('(p1, st1) ← Reducer.process ctx gs (Reducer.begin st) it ;
            '(p2, st2) ← Reducer.process_all ctx gs st1 items ;
            Ok (p1 ++ p2, st2)).
    by rewrite reducer_process_unbound.
Qed.

Lemma reducer_pass_pushes_once_witness :
  Reducer.consume_pass {["chunksize" := VInt 2]} None (Some [VInt 9])
    [VInt 1; VInt 2; VInt 3]
  = Ok [[VInt 1; VInt 2; VInt 3]]
  ∧ Reducer.consume_pass {["self" := VNone]} None (Some [VInt 9])
      [VInt 1; VInt 2; VInt 3]
    = Raise TypeError.
Proof.
  assert (keyword_clash {["chunksize" := VInt 2]} = false) as Hb
    by (vm_compute; reflexivity).
  assert (keyword_clash {["self" := VNone]} = true) as Hc
    by (vm_compute; reflexivity).
  split.
  - apply (proj2 (proj2 (proj2
             (proj1 (reducer_pass_pushes_once {["chunksize" := VInt 2]} None
                       (Some [VInt 9]) [VInt 1; VInt 2; VInt 3]) Hb)))).
  - apply (proj2 (reducer_pass_pushes_once {["self" := VNone]} None
                    (Some [VInt 9]) [VInt 1; VInt 2; VInt 3]) Hc).
    discriminate.
Defined.

(** C5 (counterexample): a reducer whose context holds the key [item].
    [process] passes the context on as keywords, so for the first item
    delivered the call of [_run] gets a second value for [item] and
    raises [TypeError]; the pass stops there and nothing is pushed,
    neither per item nor at the end. *)
Lemma reducer_pass_unbound_call :
  Reducer.process {["item" := VInt 0]} None (Some []) (VInt 1)
  = Raise TypeError
  ∧ Reducer.consume_pass {["item" := VInt 0]} None None [VInt 1; VInt 2]
    = Raise TypeError
  ∧ ∀ pushed,
      Reducer.consume_pass {["item" := VInt 0]} None None [VInt 1; VInt 2]
      ≠ Ok pushed.
Proof.
  split; [reflexivity|]. split; [reflexivity|].
  intros pushed H. vm_compute in H. discriminate H.
Qed.

(** ** Fan-out in split mode *)

Lemma nth_cumsum_from (l : list nat) : ∀ a i,
  i < length l → nth i (cumsum_from a l) 0 = a + sum_list (take (S i) l).
Proof.
  induction l as [|x l IH]; intros a i Hi; simpl in Hi; [lia|].
  destruct i as [|i]; simpl.
  - destruct l; simpl; lia.
  - rewrite IH by lia. simpl. lia.
Qed.

Lemma nth_div_points (sizes : list nat) i :
  i ≤ length sizes →
  nth i (cumsum ([0] ++ sizes)) 0 = sum_list (take i sizes).
Proof.
  intros Hi. unfold cumsum. simpl.
  destruct i as [|i]; [done|]. by rewrite nth_cumsum_from by lia.
Qed.

Lemma slices_chunks {A} (sizes : list nat) : ∀ off (ary : list A),
  (λ i, slice (off + sum_list (take i sizes))
              (off + sum_list (take (S i) sizes)) ary)
    <$> seq 0 (length sizes)
  = chunks sizes (drop off ary).
Proof.
  induction sizes as [|s ss IH]; intros off ary; [done|].
  simpl length. rewrite <- cons_seq, <- fmap_S_seq, fmap_cons.
  rewrite <- list_fmap_compose. simpl chunks. f_equal.
  - unfold slice. simpl. rewrite !Nat.add_0_r. f_equal. lia.
  - rewrite drop_drop, <- IH. apply list_fmap_ext. intros i x _. simpl.
    f_equal; lia.
Qed.

Lemma section_sizes_split_sizes Ntotal Nsections :
  section_sizes Ntotal Nsections = [0] ++ split_sizes Ntotal Nsections.
Proof. reflexivity. Qed.

Lemma length_split_sizes Ntotal Nsections :
  0 < Nsections → length (split_sizes Ntotal Nsections) = Nsections.
Proof.
  intros Hn. unfold split_sizes.
  rewrite length_app, !length_replicate.
  pose proof (Nat.mod_upper_bound Ntotal Nsections). lia.
Qed.

Lemma sum_split_sizes Ntotal Nsections :
  0 < Nsections → sum_list (split_sizes Ntotal Nsections) = Ntotal.
Proof.
  intros Hn. unfold split_sizes.
  rewrite sum_list_with_app, !sum_list_replicate.
  pose proof (Nat.mod_upper_bound Ntotal Nsections).
  pose proof (Nat.div_mod_eq Ntotal Nsections). nia.
Qed.

Lemma array_split_chunks {A B} (asarray : list A → outcome (list B))
    (ary : list A) (sary : list B) Nsections :
  0 < Nsections →
  asarray ary = Ok sary →
  array_split asarray ary Nsections
  = Ok (chunks (split_sizes (length ary) Nsections) sary).
Proof.
  intros Hn Hconv. unfold array_split.
  destruct (Nat.leb_spec Nsections 0) as [|_]; [lia|].
  rewrite Hconv. cbv zeta. change (mbind ?f (Ok sary)) with (f sary).
  cbv beta. f_equal.
  rewrite section_sizes_split_sizes.
  set (sizes := split_sizes (length ary) Nsections).
  assert (length sizes = Nsections) as Hlen by by apply length_split_sizes.
  transitivity (chunks sizes (drop 0 sary)); [|done].
  rewrite <- slices_chunks, Hlen.
  apply list_fmap_ext. intros i x [-> Hi]%lookup_seq. cbv beta.
  change (0 + i) with i.
  rewrite Nat.add_1_r, !nth_div_points by lia. done.
Qed.

Lemma array_split_conversion_fails {A B} (asarray : list A → outcome (list B))
    (ary : list A) (e : exn) Nsections :
  0 < Nsections →
  asarray ary = Raise e →
  array_split asarray ary Nsections = Raise e.
Proof.
  intros Hn Hconv. unfold array_split.
  destruct (Nat.leb_spec Nsections 0) as [|_]; [lia|]. by rewrite Hconv.
Qed.

Lemma push_submissions_conversion_fails {A B}
    (asarray : list A → outcome (list B))
    (ctx : dict) (downstream : list string) (it : list A) (e : exn) :
  truthy (default (VBool false) (ctx !! "split")) = true →
  0 < length downstream →
  asarray it = Raise e →
  push_submissions asarray ctx downstream it = Raise e.
Proof.
  intros Hsplit Hn Hconv. unfold push_submissions.
  by rewrite Hsplit, (array_split_conversion_fails _ _ e).
Qed.

Lemma length_chunks_sizes {A} (sizes : list nat) : ∀ ary : list A,
  length (chunks sizes ary) = length sizes.
Proof. induction sizes as [|s ss IH]; intros ary; simpl; [done|]. by rewrite IH. Qed.

(** The conversion of a list keeps its length and its elements: every
    element of the array is the conversion of the element of the list
    at the same position. *)
Lemma value_nested_ind (P : value → Prop) :
  P VNone → (∀ b, P (VBool b)) → (∀ z, P (VInt z)) → (∀ s, P (VStr s)) →
  (∀ l, Forall P l → P (VList l)) → ∀ v, P v.
Proof.
  intros HN HB HI HS HL. fix IH 1. intros [| b | z | s | l].
  - exact HN.
  - apply HB.
  - apply HI.
  - apply HS.
  - apply HL. induction l as [|x l IHl]; constructor; [apply IH|apply IHl].
Qed.

Lemma nd_source_cast d v : nd_source (np_cast d v) = v.
Proof.
  induction v as [| | | |l IH] using value_nested_ind; try done.
  simpl. f_equal. rewrite <- list_fmap_compose.
  induction IH as [|x l Hx _ IHl]; [done|].
  rewrite fmap_cons. f_equal; [exact Hx|exact IHl].
Qed.

Lemma nd_source_cast_list d (ary : list value) :
  nd_source <$> (np_cast d <$> ary) = ary.
Proof.
  induction ary as [|x ary IH]; [done|].
  rewrite !fmap_cons. f_equal; [apply nd_source_cast|exact IH].
Qed.

Lemma np_asarray_rows (ary : list value) (sary : list ndvalue) :
  np_asarray ary = Ok sary →
  length sary = length ary ∧ nd_source <$> sary = ary.
Proof.
  unfold np_asarray. destruct (np_shape (VList ary)); [|done].
  intros [= <-]. split; [by rewrite length_fmap|].
  apply nd_source_cast_list.
Qed.

Lemma concat_chunks {A} (sizes : list nat) : ∀ ary : list A,
  concat (chunks sizes ary) = take (sum_list sizes) ary.
Proof.
  induction sizes as [|s ss IH]; intros ary; simpl; [by rewrite take_0|].
  by rewrite IH, take_take_drop.
Qed.

Lemma length_chunks {A} (sizes : list nat) : ∀ ary : list A,
  sum_list sizes ≤ length ary → length <$> chunks sizes ary = sizes.
Proof.
  induction sizes as [|s ss IH]; intros ary Hsum; simpl in *; [done|].
  rewrite length_take_le by lia. f_equal. apply IH.
  rewrite length_drop. lia.
Qed.

Lemma submit_splits_zip {T} (downstream : list string) : ∀ i (splits : list T),
  i + length downstream ≤ length splits →
  submit_splits i downstream splits = Ok (zip downstream (drop i splits)).
Proof.
  induction downstream as [|d ds IH]; intros i splits Hlen; simpl in *.
  - done.
  - destruct (splits !! i) as [s|] eqn:Hs.
    + rewrite IH by lia. simpl.
      by rewrite (drop_S _ _ _ Hs).
    + apply lookup_ge_None in Hs. lia.
Qed.

Lemma split_sizes_close Ntotal Nsections a b :
  a ∈ split_sizes Ntotal Nsections → b ∈ split_sizes Ntotal Nsections →
  a ≤ b + 1.
Proof.
  unfold split_sizes.
  intros [Ha|Ha]%elem_of_app [Hb|Hb]%elem_of_app;
    apply elem_of_replicate_inv in Ha, Hb; lia.
Qed.

(** Split mode on an item whose conversion gave the array [sary]. *)
Lemma push_submissions_split {A B}
    (asarray : list A → outcome (list B))
    (ctx : dict) (downstream : list string) (it : list A) (sary : list B) :
  truthy (default (VBool false) (ctx !! "split")) = true →
  0 < length downstream →
  asarray it = Ok sary →
  length sary = length it →
  ∃ splits,
    push_submissions asarray ctx downstream it
    = Ok (zip downstream (Slice <$> splits))
    ∧ length splits = length downstream
    ∧ concat splits = sary
    ∧ sum_list (length <$> splits) = length it
    ∧ (∀ s1 s2, s1 ∈ splits → s2 ∈ splits → length s1 ≤ length s2 + 1)
    ∧ (∀ i d, downstream !! i = Some d →
         ∃ s, splits !! i = Some s
              ∧ zip downstream (Slice (A:=A) <$> splits) !! i
                = Some (d, Slice s)).
Proof.
  intros Hsplit Hn Hconv Hsary.
  set (sizes := split_sizes (length it) (length downstream)).
  assert (length sizes = length downstream) as Hlen
    by by apply length_split_sizes.
  assert (sum_list sizes = length it) as Hsum by by apply sum_split_sizes.
  assert (length <$> chunks sizes sary = sizes) as Hlens
    by (apply length_chunks; lia).
  assert (length (chunks sizes sary) = length downstream) as Hlc.
  { by rewrite <- (length_fmap length), Hlens. }
  exists (chunks sizes sary). repeat split.
  - unfold push_submissions.
    rewrite Hsplit, (array_split_chunks _ _ sary) by done.
    simpl. fold sizes.
    rewrite submit_splits_zip by (rewrite length_fmap; simpl; lia).
    by rewrite drop_0.
  - done.
  - rewrite concat_chunks, Hsum, <- Hsary. by apply take_ge.
  - by rewrite Hlens.
  - intros s1 s2 H1 H2.
    apply (list_elem_of_fmap_2 length) in H1, H2. rewrite Hlens in H1, H2.
    by apply (split_sizes_close (length it) (length downstream)).
  - intros i d Hd.
    destruct (lookup_lt_is_Some_2 (chunks sizes sary) i) as [s Hs].
    { rewrite Hlc. by apply lookup_lt_Some in Hd. }
    exists s. split; [done|].
    apply lookup_zip_with_Some. exists d, (Slice s).
    split; [done|]. split; [done|]. by rewrite list_lookup_fmap, Hs.
Qed.




(** What the conversion means for the two kinds of item.  An item that
    is an array already is not changed by it: the slices concatenate to
    the item itself.  A Python list that numpy can convert is sent as
    the conversions of its elements, in order: the objects the slices
    were made from are those of the list. *)
Lemma fan_out_split_array {B}
    (ctx : dict) (downstream : list string) (it : list B) :
  truthy (default (VBool false) (ctx !! "split")) = true →
  0 < length downstream →
  ∃ splits,
    push_submissions ndarray_asarray ctx downstream it
    = Ok (zip downstream (Slice <$> splits))
    ∧ length splits = length downstream
    ∧ concat splits = it.
Proof.
  intros Hsplit Hn.
  destruct (push_submissions_split ndarray_asarray ctx downstream it it
              Hsplit Hn eq_refl eq_refl) as (splits & Hs & Hl & Hc & _).
  eauto.
Qed.

Lemma fan_out_split_list
    (ctx : dict) (downstream : list string) (it : list value) :
  truthy (default (VBool false) (ctx !! "split")) = true →
  0 < length downstream →
  (np_shape (VList it) = None →
   push_submissions np_asarray ctx downstream it
   = Raise (ValueError "setting an array element with a sequence."))
  ∧ (np_shape (VList it) ≠ None →
     ∃ splits,
       push_submissions np_asarray ctx downstream it
       = Ok (zip downstream (Slice <$> splits))
       ∧ length splits = length downstream
       ∧ concat splits
         = np_cast (result_dtype (np_leaves (VList it))) <$> it
       ∧ nd_source <$> concat splits = it).
Proof.
  intros Hsplit Hn. split.
  - intros Hshape. apply push_submissions_conversion_fails; [done..|].
    unfold np_asarray. by rewrite Hshape.
  - intros Hshape.
    assert (np_asarray it
            = Ok (np_cast (result_dtype (np_leaves (VList it))) <$> it))
      as Hconv.
    { unfold np_asarray. by destruct (np_shape (VList it)). }
    destruct (np_asarray_rows _ _ Hconv) as [Hlen Hsrc].
    destruct (push_submissions_split np_asarray ctx downstream it _
                Hsplit Hn Hconv Hlen) as (splits & Hs & Hl & Hc & _).
    exists splits. split; [done|]. split; [done|]. split; [done|].
    by rewrite Hc.
Qed.

(** In either mode, one task per downstream stage is submitted. *)
Lemma push_submissions_one_per_stage {A B}
    (asarray : list A → outcome (list B))
    (ctx : dict) (downstream : list string) (it : list A) subs :
  push_submissions asarray ctx downstream it = Ok subs →
  subs.*1 = downstream.
Proof.
  unfold push_submissions.
  destruct (truthy _).
  - destruct (decide (length downstream = 0)) as [Hz|Hnz].
    + destruct downstream; [|done]. simpl. intros [=].
    + destruct (asarray it) as [sary|e] eqn:Hconv.
      * rewrite (array_split_chunks _ _ sary) by (done || lia).
        set (sizes := split_sizes _ _).
        assert (length (chunks sizes sary) = length downstream) as Hlc.
        { rewrite length_chunks_sizes. apply length_split_sizes. lia. }
        change (submit_splits 0 downstream (Slice <$> chunks sizes sary)
                = Ok subs → subs.*1 = downstream).
        rewrite submit_splits_zip, drop_0 by (rewrite length_fmap; lia).
        intros [= <-]. apply fst_zip. rewrite length_fmap. lia.
      * rewrite (array_split_conversion_fails _ _ e) by (done || lia).
        done.
  - intros [= <-]. rewrite <- list_fmap_compose.
    induction downstream; simpl; [done|]. by f_equal.
Qed.

(** ** The command-line surface *)

Lemma str_mem_elem_of (k : string) (l : list string) :
  str_mem k l = true ↔ k ∈ l.
Proof.
  unfold str_mem. rewrite existsb_exists. split.
  - intros (x & Hx%list_elem_of_In & Heq%String.eqb_eq). by subst.
  - intros Hk. exists k. split; [by apply list_elem_of_In|].
    apply String.eqb_refl.
Qed.

Lemma od_get_elem {V} (l : list (string * V)) k v :
  NoDup l.*1 → (k, v) ∈ l → od_get k l = Some v.
Proof.
  induction l as [|[k' v'] l IH]; simpl; intros Hnd Hin.
  - by apply elem_of_nil in Hin.
  - apply NoDup_cons in Hnd as [Hk' Hnd].
    apply elem_of_cons in Hin as [[= <- <-]|Hin].
    + by rewrite String.eqb_refl.
    + destruct (String.eqb_spec k' k) as [->|_]; [|by apply IH].
      exfalso. apply Hk'. apply list_elem_of_fmap. by exists (k, v).
Qed.

Lemma od_get_Some_elem {V} (l : list (string * V)) k v :
  od_get k l = Some v → (k, v) ∈ l.
Proof.
  induction l as [|[k' v'] l IH]; simpl; [done|].
  destruct (String.eqb_spec k' k) as [->|_].
  - intros [= ->]. by left.
  - intros Hl. right. by apply IH.
Qed.

(** The first loop keeps what was already unused and adds every key
    whose first segment is not a node name. *)
Lemma convert_loop_unused self items : ∀ nc unused nc' unused',
  convert_loop self items nc unused = Ok (nc', unused') →
  (∀ k, k ∈ unused → k ∈ unused')
  ∧ (∀ key v, (key, v) ∈ items →
       node_known (nodes self) (hd "" (split "_" key)) = false →
       key ∈ unused')
  ∧ (∀ k, k ∈ unused' → k ∈ unused ∨ k ∈ items.*1).
Proof.
  induction items as [|[key v] items IH]; intros nc unused nc' unused'; simpl.
  - intros [= <- <-]. repeat split; [done| |by left].
    intros ?? Hin. by apply elem_of_nil in Hin.
  - destruct (node_known (nodes self) (hd "" (split "_" key))) eqn:Hknown;
      simpl.
    + destruct (1 <? length (split "_" key)); simpl; [|done].
      intros Hloop. destruct (IH _ _ _ _ Hloop) as (H1 & H2 & H3).
      repeat split; [done| |].
      * intros key' v' [[= -> ->]|Hin]%elem_of_cons Hk; [congruence|eauto].
      * intros k Hk. destruct (H3 k Hk); [by left|right; by right].
    + intros Hloop. destruct (IH _ _ _ _ Hloop) as (H1 & H2 & H3).
      assert (key ∈ (if str_mem key unused then unused else unused ++ [key])).
      { destruct (str_mem key unused) eqn:Hm.
        - by apply str_mem_elem_of.
        - apply elem_of_app. right. by left. }
      repeat split.
      * intros k Hk. apply H1. destruct (str_mem key unused); [done|].
        apply elem_of_app. by left.
      * intros key' v' [[= -> ->]|Hin]%elem_of_cons Hk; [by apply H1|eauto].
      * intros k Hk. destruct (H3 k Hk) as [Hu|Hi]; [|right; by right].
        destruct (str_mem key unused); [by left|].
        apply elem_of_app in Hu as [Hu|Hu%list_elem_of_singleton];
          [by left|right; subst; by left].
Qed.

Lemma pass_through_other kwargs unused : ∀ fk final key,
  pass_through kwargs unused fk = Ok final →
  key ∉ unused → final !! key = fk !! key.
Proof.
  induction unused as [|k unused IH]; intros fk final key; simpl.
  - by intros [= <-].
  - unfold kwargs_get. destruct (od_get k kwargs) as [v|]; simpl; [|done].
    intros Hp [Hne Hnin]%not_elem_of_cons.
    rewrite (IH _ _ _ Hp Hnin). by rewrite lookup_insert_ne.
Qed.

Lemma pass_through_lookup kwargs unused : ∀ fk final key,
  pass_through kwargs unused fk = Ok final →
  key ∈ unused →
  ∃ v, od_get key kwargs = Some v ∧ final !! key = Some (TopLevel v).
Proof.
  induction unused as [|k unused IH]; intros fk final key; simpl.
  - intros _ Hin. by apply elem_of_nil in Hin.
  - unfold kwargs_get. destruct (od_get k kwargs) as [v|] eqn:Hk; simpl;
      [|done].
    intros Hp Hin.
    destruct (decide (key ∈ unused)) as [Hu|Hu]; [by eapply IH|].
    apply elem_of_cons in Hin as [->|Hin]; [|done].
    exists v. split; [done|].
    rewrite (pass_through_other _ _ _ _ _ Hp Hu). apply lookup_insert_eq.
Qed.

Lemma pass_through_defined kwargs unused : ∀ fk,
  (∀ k, k ∈ unused → k ∈ kwargs.*1) →
  ∃ final, pass_through kwargs unused fk = Ok final.
Proof.
  induction unused as [|k unused IH]; intros fk Hin; simpl; [by eexists|].
  unfold kwargs_get. destruct (od_get k kwargs) as [v|] eqn:Hk; simpl.
  - apply IH. intros k' Hk'. apply Hin. by right.
  - exfalso. assert (k ∈ kwargs.*1) as Hkin by (apply Hin; by left).
    clear -Hk Hkin. induction kwargs as [|[k' v'] kwargs IHk]; simpl in *.
    + by apply elem_of_nil in Hkin.
    + destruct (String.eqb_spec k' k) as [->|Hne]; [done|].
      apply elem_of_cons in Hkin as [->|Hkin]; [done|]. by apply IHk.
Qed.

Lemma convert_loop_defined self items : ∀ nc unused,
  (∀ key v, (key, v) ∈ items →
     node_known (nodes self) (hd "" (split "_" key)) = true →
     1 < length (split "_" key)) →
  ∃ r, convert_loop self items nc unused = Ok r.
Proof.
  induction items as [|[key v] items IH]; intros nc unused Hparts; simpl.
  - by eexists.
  - assert (∀ key v, (key, v) ∈ items →
              node_known (nodes self) (hd "" (split "_" key)) = true →
              1 < length (split "_" key)) as Hrest.
    { intros k' v' Hin. apply (Hparts k' v'). by right. }
    destruct (node_known (nodes self) (hd "" (split "_" key))) eqn:Hknown;
      simpl; [|by apply IH].
    assert (1 < length (split "_" key)) as Hlt.
    { apply (Hparts key v); [by left|done]. }
    apply Nat.ltb_lt in Hlt. rewrite Hlt. simpl. by apply IH.
Qed.

Section no_injection.
Variable self : GliderScript.
Hypothesis Hinject : inject self = [].

Lemma inject_run_args_none kwargs nm args : ∀ st,
  ∃ o, inject_run_args self kwargs nm args st = Ok (st.1, o).
Proof.
  induction args as [|a args IH]; intros st; simpl.
  - exists st.2. by destruct st.
  - rewrite Hinject. simpl. apply (IH (st.1, Some a)).
Qed.

Lemma inject_run_kwargs_none kwargs nm kws : ∀ st,
  inject_run_kwargs self kwargs nm kws st = Ok st.
Proof.
  induction kws as [|k kws IH]; intros st; simpl; [done|].
  rewrite Hinject. simpl. apply IH.
Qed.

Lemma inject_nodes_none kwargs ns : ∀ st,
  ∃ o, inject_nodes self kwargs ns st = Ok (st.1, o).
Proof.
  induction ns as [|n ns IH]; intros st; simpl.
  - exists st.2. by destruct st.
  - destruct (inject_run_args_none kwargs (name n) (run_args n).*1 st)
      as [o ->]. simpl.
    rewrite inject_run_kwargs_none. simpl. apply (IH (st.1, o)).
Qed.

Lemma get_injected_node_contexts_none kwargs :
  _get_injected_node_contexts self kwargs = Ok [].
Proof.
  unfold _get_injected_node_contexts.
  by destruct (inject_nodes_none kwargs (nodes self) ([], None)) as [o ->].
Qed.
End no_injection.

(** C7: for the pipeline of node [a], whose [run] requires [x], and
    node [b], whose [run] has [y=5], the surface is the data argument,
    the required [--a_x] of type [str] with default [None], and the
    optional [--b_y] of type [int] with default [5]; the flat arguments
    [a_x=foo], [b_y=9] become the context updates [{x: foo}] for [a] and
    [{y: 9}] for [b].  In any pipeline, a key whose first
    underscore-delimited segment is not a node name comes out of a
    conversion as a top-level keyword with its value; without an
    injection map the conversion returns whenever every key that starts
    with a node name has a second segment. *)
Theorem cli_surface_round_trip :
  (∃ ns h,
     pipeline_a_b = Ok (ns, h)
     ∧ name <$> ns = ["a"; "b"]
     ∧ run_args <$> ns = [[("x", VNone)]; []]
     ∧ run_kwargs <$> ns = [[]; [("y", VInt 5)]]
     ∧ _get_script_args (script_a_b ns) h []
       = Ok [ {| a_flag := "data"; a_nargs := Some "+"; a_required := None;
                 a_type := None; a_action := None; a_default := None |};
              {| a_flag := "--a_x"; a_nargs := None;
                 a_required := Some true; a_type := Some TStr;
                 a_action := None; a_default := Some VNone |};
              {| a_flag := "--b_y"; a_nargs := None;
                 a_required := Some false; a_type := Some TInt;
                 a_action := None; a_default := Some (VInt 5) |} ]
     ∧ _convert_kwargs (script_a_b ns) [("a_x", VStr "foo"); ("b_y", VInt 9)]
       = Ok {[ "a" := NodeContext {["x" := VStr "foo"]};
               "b" := NodeContext {["y" := VInt 9]} ]})
  ∧ (∀ self kwargs key v final,
       NoDup kwargs.*1 →
       (key, v) ∈ kwargs →
       node_known (nodes self) (hd "" (split "_" key)) = false →
       _convert_kwargs self kwargs = Ok final →
       final !! key = Some (TopLevel v))
  ∧ (∀ self kwargs,
       inject self = [] →
       (∀ key v, (key, v) ∈ kwargs →
          node_known (nodes self) (hd "" (split "_" key)) = true →
          1 < length (split "_" key)) →
       ∃ final, _convert_kwargs self kwargs = Ok final).
Proof.
  split; [|split].
  - eexists _, _. split; [reflexivity|]. repeat split; reflexivity.
  - intros self kwargs key v final Hnd Hin Hknown. unfold _convert_kwargs.
    destruct (convert_loop self kwargs ∅ []) as [[nc unused]|e] eqn:Hloop;
      simpl; [|done].
    destruct (_get_injected_node_contexts self kwargs) as [inj|e]; simpl;
      [|done].
    intros Hp.
    destruct (convert_loop_unused _ _ _ _ _ _ Hloop) as (_ & Hunused & _).
    destruct (pass_through_lookup _ _ _ _ key Hp) as (v' & Hv' & Hf);
      [by eapply Hunused|].
    rewrite (od_get_elem _ _ _ Hnd Hin) in Hv'. by injection Hv' as <-.
  - intros self kwargs Hinject Hparts. unfold _convert_kwargs.
    destruct (convert_loop_defined self kwargs ∅ [] Hparts)
      as [[nc unused] Hloop].
    rewrite Hloop. simpl.
    rewrite get_injected_node_contexts_none by done. simpl.
    apply pass_through_defined. intros k Hk.
    destruct (convert_loop_unused _ _ _ _ _ _ Hloop) as (_ & _ & Hsub).
    destruct (Hsub k Hk) as [Hnil|]; [|done]. by apply elem_of_nil in Hnil.
Qed.

Lemma cli_surface_round_trip_witness :
  (∃ final,
     _convert_kwargs
       (GliderScript_init
          [ {| name := "a"; default_context := 1; context := 2;
               run_args := [("x", VNone)]; run_kwargs := [] |} ]
          {| gs_items := ∅ |} [] [] [])
       [("a_x", VStr "foo"); ("zz_k", VInt 1)] = Ok final
     ∧ final !! "zz_k" = Some (TopLevel (VInt 1)))
  ∧ (∃ final,
       _convert_kwargs
         (GliderScript_init [] {| gs_items := ∅ |} [] [] [])
         [("verbose", VBool true)] = Ok final).
Proof.
  split.
  - eexists. split; [reflexivity|].
    eapply (proj1 (proj2 cli_surface_round_trip)
              (GliderScript_init
                 [ {| name := "a"; default_context := 1; context := 2;
                      run_args := [("x", VNone)]; run_kwargs := [] |} ]
                 {| gs_items := ∅ |} [] [] [])
              [("a_x", VStr "foo"); ("zz_k", VInt 1)] "zz_k" (VInt 1)).
    + simpl. apply NoDup_cons. split; [|apply NoDup_singleton].
      intros Hin%list_elem_of_singleton. discriminate Hin.
    + right. left.
    + reflexivity.
    + reflexivity.
  - apply (proj2 (proj2 cli_surface_round_trip)
             (GliderScript_init [] {| gs_items := ∅ |} [] [] [])
             [("verbose", VBool true)]).
    + reflexivity.
    + intros key v Hin Hknown. simpl in Hknown. discriminate Hknown.
Defined.

(** ** Injection *)

(** A required positional parameter that is injected and also given on
    the command line ends up with the injected value. *)
Lemma injected_positional_wins :
  ∃ ns h,
    pipeline_inject_positional = Ok (ns, h)
    ∧ get_injected_kwargs (script_inject_x ns) = [("x", VInt 7)]
    ∧ _convert_kwargs (script_inject_x ns)
        [("a_x", VStr "foo"); ("x", VInt 7)]
      = Ok {[ "a" := NodeContext {["x" := VInt 7]};
              "x" := TopLevel (VInt 7) ]}.
Proof. eexists _, _. repeat split; reflexivity. Qed.

(** C10 (the code at the failing input): node [a] has
    [run(item, x, y=5)] and [y] is injected with the value 7.  Given
    [a_x=foo] and [a_y=9] on the command line, the converted context of
    [a] holds the injected 7 under [x], the required parameter visited
    last, and keeps 9 under [y].  For a node with the keyword parameter
    alone the conversion stops with an unbound local variable. *)
Theorem injected_keyword_stored_under_positional_name :
  (∃ ns h,
     pipeline_inject = Ok (ns, h)
     ∧ run_args <$> ns = [[("x", VNone)]]
     ∧ run_kwargs <$> ns = [[("y", VInt 5)]]
     ∧ get_injected_kwargs (script_inject ns) = [("y", VInt 7)]
     ∧ _get_injected_node_contexts (script_inject ns)
         [("a_x", VStr "foo"); ("a_y", VInt 9); ("y", VInt 7)]
       = Ok [("a", {["x" := VInt 7]})]
     ∧ _convert_kwargs (script_inject ns)
         [("a_x", VStr "foo"); ("a_y", VInt 9); ("y", VInt 7)]
       = Ok {[ "a" := NodeContext {["x" := VInt 7; "y" := VInt 9]};
               "y" := TopLevel (VInt 7) ]})
  ∧ (∃ ns h,
       pipeline_inject_keyword_only = Ok (ns, h)
       ∧ _convert_kwargs (script_inject ns) [("b_y", VInt 9); ("y", VInt 7)]
         = Raise (UnboundLocalError "arg_name")).
Proof.
  split; eexists _, _; repeat split; reflexivity.
Qed.

(** ** Clean-up *)

Lemma clean_up_loop_spec entries kwargs : ∀ errors calls,
  clean_up_loop entries kwargs errors calls
  = (errors ++ omap (missing_arg_message kwargs) entries,
     calls ++ omap (teardown_call kwargs) entries).
Proof.
  induction entries as [|[key func] entries IH]; intros errors calls.
  - simpl. by rewrite !app_nil_r.
  - simpl. unfold missing_arg_message at 1, teardown_call at 1. simpl.
    destruct (od_get key kwargs) as [v|]; simpl.
    + destruct (func v); rewrite IH; by rewrite <- app_assoc.
    + rewrite IH. by rewrite <- app_assoc.
Qed.

Lemma missing_arg_messages_nil kwargs
    (entries : list (string * (value → outcome unit))) :
  (∀ kf, kf ∈ entries → is_Some (od_get kf.1 kwargs)) →
  omap (missing_arg_message kwargs) entries = [].
Proof.
  induction entries as [|kf l IH]; intros Hall; [done|]. simpl.
  unfold missing_arg_message at 1.
  destruct (Hall kf) as [v ->]; [by left|].
  apply IH. intros kf' Hin. apply Hall. by right.
Qed.

(** Every entry whose argument is present has its teardown function
    called, in order, whether or not earlier ones threw. *)
Lemma clean_up_attempts_every_entry self kwargs :
  (clean_up self kwargs).1 = omap (teardown_call kwargs) (clean self).
Proof.
  unfold clean_up. destruct (clean self) as [|e es] eqn:Hc; [done|].
  rewrite clean_up_loop_spec, !app_nil_l.
  by destruct (omap (missing_arg_message kwargs) (e :: es)).
Qed.

(** When every argument is present, [clean_up] returns normally,
    whatever the teardown functions did. *)
Lemma clean_up_returns_when_args_present self kwargs :
  (∀ kf, kf ∈ clean self → is_Some (od_get kf.1 kwargs)) →
  (clean_up self kwargs).2 = Ok ().
Proof.
  intros Hall. unfold clean_up.
  destruct (clean self) as [|e es] eqn:Hc; [done|].
  by rewrite clean_up_loop_spec, !app_nil_l, missing_arg_messages_nil.
Qed.

(** C8 (the code at the failing input): the clean-up map has one entry
    whose teardown function throws and whose argument is present.  The
    function is called, its exception is swallowed, and [clean_up]
    returns normally: no aggregated error reports the failure. *)
Theorem clean_up_discards_teardown_exception :
  failing_teardowns (clean script_clean_raises) [("conn", VInt 1)] = ["conn"]
  ∧ clean_up script_clean_raises [("conn", VInt 1)]
    = ([("conn", VInt 1)], Ok ()).
Proof. split; reflexivity. Qed.

(** ** Bulk replace *)

Section bulk_replace_facts.
Context {stmt : Type}.
Variable f : string → list string → option bool → option string → stmt.

Lemma bulk_replace_sqlalchemy table cols rows :
  get_bulk_replace f SQLAlchemyConn table (SqliteRow cols :: rows)
  = Ok (f table cols.*1 (Some false) None).
Proof. reflexivity. Qed.

Lemma bulk_replace_sqlite table cols rows :
  get_bulk_replace f SQLiteConn table (SqliteRow cols :: rows)
  = Ok (f table cols.*1 (Some false) (Some "?")).
Proof. reflexivity. Qed.

Lemma bulk_replace_sqlite_rejects table r rows :
  is_sqlite_row r = false →
  get_bulk_replace f SQLiteConn table (r :: rows)
  = Raise (AssertionError "Only sqlite3.Row rows are supported").
Proof. intros Hr. simpl. by rewrite Hr. Qed.

Lemma bulk_replace_cursor_rejects_tuple table vals rows :
  get_bulk_replace f CursorConn table (TupleRow vals :: rows)
  = Raise (AssertionError
             "Dict rows expected, got tuple. Please use a dict cursor.").
Proof. reflexivity. Qed.

Lemma bulk_replace_cursor_dict table cols rows :
  get_bulk_replace f CursorConn table (DictRow cols :: rows)
  = Ok (f table cols.*1 None None).
Proof. reflexivity. Qed.

(** The SQLAlchemy and the sqlite3 call differ in [value_string] only:
    whatever the statement generator derives from [dicts] alone is the
    same for both. *)
Lemma bulk_replace_same_dicts_flag {S} (style : stmt → S) table cols rows :
  (∀ t c d v1 v2, style (f t c d v1) = style (f t c d v2)) →
  style <$> (match get_bulk_replace f SQLAlchemyConn table
                     (SqliteRow cols :: rows) with
             | Ok s => Some s | Raise _ => None end)
  = style <$> (match get_bulk_replace f SQLiteConn table
                       (SqliteRow cols :: rows) with
               | Ok s => Some s | Raise _ => None end).
Proof. intros Hstyle. simpl. f_equal. apply Hstyle. Qed.
End bulk_replace_facts.

(** * Further properties of the module *)

(** ** Run contracts *)

Lemma od_set_fresh {V} (k : string) (v : V) (d : list (string * V)) :
  k ∉ d.*1 → od_set k v d = d ++ [(k, v)].
Proof.
  induction d as [|[k' v'] d IH]; simpl; [done|].
  intros [Hne Hnin]%not_elem_of_cons.
  destruct (String.eqb_spec k' k) as [->|_]; [done|]. by rewrite IH.
Qed.

Lemma get_run_args_loop_partition (params : list SigParameter) :
  ∀ i pos kw,
    NoDup (p_name <$> params) →
    (∀ q, q ∈ params → (p_name q ∉ pos.*1) ∧ (p_name q ∉ kw.*1)) →
    forallb allowed_kind params = true →
    get_run_args_loop (S i) params pos kw
    = Ok (pos ++ ((λ p, (p_name p, VNone))
                    <$> filter (λ p, is_required p = true) params),
          kw ++ omap keyword_of params).
Proof.
  induction params as [|p params IH]; intros i pos kw Hnd Hfresh Hall.
  - simpl. by rewrite !app_nil_r.
  - simpl in Hall. apply andb_prop in Hall as [Hp Hall].
    rewrite fmap_cons in Hnd. apply NoDup_cons in Hnd as [Hp_new Hnd].
    destruct (Hfresh p) as [Hpos Hkw]; [by left|].
    assert (∀ q, q ∈ params → p_name q ≠ p_name p) as Hne.
    { intros q Hq Heq. apply Hp_new. rewrite <- Heq.
      by apply list_elem_of_fmap_2. }
    assert (∀ v q, q ∈ params →
              (p_name q ∉ (pos ++ [(p_name p, v)]).*1) ∧ (p_name q ∉ kw.*1))
      as Hfresh1.
    { intros v q Hq. destruct (Hfresh q) as [H1 H2]; [by right|].
      split; [|done]. rewrite fmap_app, elem_of_app. simpl.
      intros [?|Hin%list_elem_of_singleton]; [done|]. by eapply Hne. }
    assert (∀ v q, q ∈ params →
              (p_name q ∉ pos.*1) ∧ (p_name q ∉ (kw ++ [(p_name p, v)]).*1))
      as Hfresh2.
    { intros v q Hq. destruct (Hfresh q) as [H1 H2]; [by right|].
      split; [done|]. rewrite fmap_app, elem_of_app. simpl.
      intros [?|Hin%list_elem_of_singleton]; [done|]. by eapply Hne. }
    assert (∀ q, q ∈ params → (p_name q ∉ pos.*1) ∧ (p_name q ∉ kw.*1))
      as Hfresh0.
    { intros q Hq. apply Hfresh. by right. }
    unfold allowed_kind in Hp.
    simpl. unfold is_required, keyword_of.
    destruct p as [nm k d]; simpl in *.
    destruct k; try done.
    + rewrite od_set_fresh by done. rewrite IH by auto.
      rewrite filter_cons_True by (simpl; done).
      rewrite fmap_cons. simpl. by rewrite <- app_assoc.
    + destruct d as [d|].
      * rewrite od_set_fresh by done. rewrite IH by auto.
        rewrite filter_cons_False by (simpl; done).
        simpl. by rewrite <- app_assoc.
      * rewrite od_set_fresh by done. rewrite IH by auto.
        rewrite filter_cons_True by (simpl; done).
        rewrite fmap_cons. simpl. by rewrite <- app_assoc.
    + rewrite IH by auto.
      rewrite filter_cons_False by (simpl; done). done.
Qed.

(** X1: for a signature whose parameters after the first have distinct
    names and none of which is [*args] or keyword-only, the run
    contract lists, in signature order, the positional-only parameters
    and the positional-or-keyword ones without default as required, and
    the positional-or-keyword ones with a default as keywords with that
    default; [**kwargs] contributes nothing, and neither does the first
    parameter, whatever its kind. *)
Theorem get_run_args_partition (sig : list SigParameter) :
  NoDup (p_name <$> tail sig) →
  forallb allowed_kind (tail sig) = true →
  _get_run_args sig
  = Ok ((λ p, (p_name p, VNone))
          <$> filter (λ p, is_required p = true) (tail sig),
        omap keyword_of (tail sig)).
Proof.
  intros Hnd Hall. unfold _get_run_args.
  destruct sig as [|p0 rest]; [done|]. simpl tail in *. simpl.
  rewrite get_run_args_loop_partition; [done|done| |done].
  intros q _. split; apply not_elem_of_nil.
Qed.

Lemma get_run_args_partition_witness :
  _get_run_args
    [ {| p_name := "args"; p_kind := VAR_POSITIONAL; p_default := None |};
      {| p_name := "a"; p_kind := POSITIONAL_ONLY; p_default := Some (VInt 1) |};
      {| p_name := "b"; p_kind := POSITIONAL_OR_KEYWORD; p_default := None |};
      {| p_name := "c"; p_kind := POSITIONAL_OR_KEYWORD;
         p_default := Some (VStr "d") |};
      {| p_name := "kw"; p_kind := VAR_KEYWORD; p_default := None |} ]
  = Ok ([("a", VNone); ("b", VNone)], [("c", VStr "d")]).
Proof.
  refine (eq_trans (get_run_args_partition _ _ _) _).
  - apply (bool_decide_unpack _). vm_compute. exact I.
  - reflexivity.
  - reflexivity.
Defined.

Lemma get_run_args_loop_rejects (pre : list SigParameter) :
  ∀ i bad post pos kw,
    forallb allowed_kind pre = true →
    allowed_kind bad = false →
    get_run_args_loop (S i) (pre ++ bad :: post) pos kw
    = Raise (AssertionError (kind_message (p_kind bad))).
Proof.
  induction pre as [|p pre IH]; intros i bad post pos kw Hpre Hbad.
  - simpl. unfold allowed_kind in Hbad. by destruct (p_kind bad), (p_default bad).
  - simpl in Hpre. apply andb_prop in Hpre as [Hp Hpre].
    unfold allowed_kind in Hp. simpl.
    destruct (p_kind p), (p_default p); try done; by apply IH.
Qed.

(** X2: a [*args] or keyword-only parameter anywhere after the first
    makes [_get_run_args] fail with the assertion that names its kind;
    the first such parameter in signature order is the one reported. *)
Theorem get_run_args_rejects (p0 : SigParameter) (pre : list SigParameter)
    (bad : SigParameter) (post : list SigParameter) :
  forallb allowed_kind pre = true →
  allowed_kind bad = false →
  _get_run_args (p0 :: pre ++ bad :: post)
  = Raise (AssertionError (kind_message (p_kind bad))).
Proof. intros Hpre Hbad. unfold _get_run_args. simpl. by apply get_run_args_loop_rejects. Qed.

Lemma get_run_args_rejects_witness :
  _get_run_args
    [ item_param;
      {| p_name := "x"; p_kind := POSITIONAL_OR_KEYWORD; p_default := None |};
      {| p_name := "flag"; p_kind := KEYWORD_ONLY; p_default := Some (VBool true) |};
      {| p_name := "rest"; p_kind := VAR_POSITIONAL; p_default := None |} ]
  = Raise (AssertionError "KEYWORD_ONLY params are not allowed in run()").
Proof.
  apply (get_run_args_rejects item_param
           [ {| p_name := "x"; p_kind := POSITIONAL_OR_KEYWORD;
                p_default := None |} ]
           {| p_name := "flag"; p_kind := KEYWORD_ONLY;
              p_default := Some (VBool true) |}
           [ {| p_name := "rest"; p_kind := VAR_POSITIONAL;
                p_default := None |} ]); reflexivity.
Defined.

(** ** Keyword arguments, updates, pass-through nodes *)

Lemma str_mem_false (k : string) (l : list string) :
  str_mem k l = false ↔ k ∉ l.
Proof.
  rewrite <- str_mem_elem_of. destruct (str_mem k l); split; congruence.
Qed.

Lemma populate_kwargs_lookup (ctx : dict) (ra : list string) (k : string) :
  populate_kwargs ctx ra !! k
  = if bool_decide (k ∈ ra) then None else ctx !! k.
Proof.
  unfold populate_kwargs. case_bool_decide as Hk.
  - apply map_lookup_filter_None. right. intros x _. simpl.
    apply str_mem_elem_of in Hk. congruence.
  - destruct (ctx !! k) as [x|] eqn:Hx.
    + apply map_lookup_filter_Some. split; [done|]. simpl.
      by apply str_mem_false.
    + apply map_lookup_filter_None. by left.
Qed.

(** X3: when argument resolution succeeds, the keyword arguments are
    the context without the required parameters: every other context
    key is passed, declared or not; a required parameter is never also
    passed as a keyword; and a value that only the GlobalState defines
    is never passed as a keyword. *)
Theorem populate_run_args_keywords
    (ctx : dict) (gs : option GlobalState) (ra : list (string * value))
    (_args : list value) (_kwargs : dict) :
  _populate_run_args ctx gs ra = Ok (_args, _kwargs) →
  (∀ k, _kwargs !! k = if bool_decide (k ∈ ra.*1) then None else ctx !! k)
  ∧ (∀ k, k ∈ ra.*1 → _kwargs !! k = None)
  ∧ (∀ k, ctx !! k = None → _kwargs !! k = None).
Proof.
  unfold _populate_run_args.
  destruct (populate_args ctx gs ra.*1 []) as [a|e]; simpl; [|done].
  intros [= <- <-].
  assert (∀ k, populate_kwargs ctx ra.*1 !! k
               = if bool_decide (k ∈ ra.*1) then None else ctx !! k) as Hl
    by (intros; apply populate_kwargs_lookup).
  split; [done|]. split.
  - intros k Hk. rewrite Hl. by rewrite bool_decide_eq_true_2.
  - intros k Hk. rewrite Hl, Hk. by case_bool_decide.
Qed.

Lemma populate_run_args_keywords_witness :
  _populate_run_args {["x" := VInt 1; "extra" := VStr "e"]}
    (Some {| gs_items := {["y" := VInt 2]} |}) [("x", VNone); ("y", VNone)]
  = Ok ([VInt 1; VInt 2], {["extra" := VStr "e"]})
  ∧ ({["extra" := VStr "e"]} : dict) !! "x" = None
  ∧ ({["extra" := VStr "e"]} : dict) !! "y" = None.
Proof.
  split; [reflexivity|].
  destruct (populate_run_args_keywords
              {["x" := VInt 1; "extra" := VStr "e"]}
              (Some {| gs_items := {["y" := VInt 2]} |})
              [("x", VNone); ("y", VNone)]
              [VInt 1; VInt 2] {["extra" := VStr "e"]})
    as (H1 & H2 & H3); [reflexivity|].
  split.
  - apply H2. simpl. apply elem_of_cons. left. reflexivity.
  - apply H3. reflexivity.
Defined.

Lemma updates_live_context (us : list dict) : ∀ st,
  live_context (foldl apply_context_op st (UpdateContext <$> us))
  = foldl (λ acc u, u ∪ acc) (live_context st) us.
Proof.
  induction us as [|u us IH]; intros st; simpl; [done|].
  rewrite IH. f_equal. apply update_context_live.
Qed.

Lemma foldl_union_lookup_None (us : list dict) (k : string) : ∀ acc : dict,
  (∀ u, u ∈ us → u !! k = None) →
  foldl (λ acc u, u ∪ acc) acc us !! k = acc !! k.
Proof.
  induction us as [|u us IH]; intros acc Hnone; simpl; [done|].
  rewrite IH by (intros u' Hu'; apply Hnone; by right).
  rewrite lookup_union_r; [done|]. apply Hnone. by left.
Qed.

(** X4: after construction with defaults [D] the live context is [D],
    and a sequence of [update_context] calls merges left to right: the
    last update that defines a key decides its value, and a key no
    update defines keeps its default. *)
Theorem update_context_merges
    nm (D : dict) sig (h : heap) (st : Node * heap) (us : list dict) :
  Node_init nm D sig h = Ok st →
  live_context st = D
  ∧ live_context (foldl apply_context_op st (UpdateContext <$> us))
    = foldl (λ acc u, u ∪ acc) D us
  ∧ (∀ pre u post k v,
       us = pre ++ u :: post → u !! k = Some v →
       (∀ u', u' ∈ post → u' !! k = None) →
       live_context (foldl apply_context_op st (UpdateContext <$> us)) !! k
       = Some v)
  ∧ (∀ k, (∀ u, u ∈ us → u !! k = None) →
       live_context (foldl apply_context_op st (UpdateContext <$> us)) !! k
       = D !! k).
Proof.
  intros Hinit. destruct (Node_init_inv _ _ _ _ _ Hinit) as [_ Hlive].
  split; [done|]. rewrite updates_live_context, Hlive.
  split; [done|]. split.
  - intros pre u post k v -> Hu Hpost.
    rewrite foldl_app. simpl.
    rewrite foldl_union_lookup_None by done.
    by apply lookup_union_Some_l.
  - intros k Hnone. by apply foldl_union_lookup_None.
Qed.

Lemma update_context_merges_witness :
  ∃ st, Node_init "n" {["a" := VInt 1; "b" := VInt 2]} sig_requires_x ∅ = Ok st
  ∧ live_context
      (foldl apply_context_op st
         (UpdateContext <$> [ {["a" := VInt 10]} : dict;
                              {["a" := VInt 20; "c" := VInt 3]} ]))
    = {["a" := VInt 20; "b" := VInt 2; "c" := VInt 3]}.
Proof.
  eexists. split; [reflexivity|].
  refine (eq_trans
            (proj1 (proj2 (update_context_merges "n"
                             {["a" := VInt 1; "b" := VInt 2]}
                             sig_requires_x ∅ _
                             [ {["a" := VInt 10]};
                               {["a" := VInt 20; "c" := VInt 3]} ] _))) _).
  - reflexivity.
  - reflexivity.
Defined.

(** X5: a [DefaultNode] (or [PlaceholderNode]) has no required
    parameter, so [process] never fails in argument resolution, with or
    without a GlobalState, and passes the whole live context on as
    keywords.  When the context holds neither the key [self] nor the
    key [item], [run] is called once with the item and those keywords
    and the item is pushed unchanged; when it holds one of them, the
    call of [_run] raises [TypeError], [run] is not called and nothing
    is pushed. *)
Theorem default_node_passes_through
    nm (D : dict) (h0 : heap) (n : Node) (h1 : heap)
    (h : heap) (gs : option GlobalState) (it : item) :
  Node_init nm D DefaultNode_signature h0 = Ok (n, h1) →
  process (Node_run DefaultNode_run) n h gs it
  = if keyword_clash (live_context (n, h)) then ([], Raise TypeError)
    else ([ERun it [] (live_context (n, h)); EPush it], Ok ()).
Proof.
  unfold Node_init. destruct (alloc D h0) as [ld h'].
  destruct (reset_context _ h') as [n' h2]. simpl.
  intros [= <- <-]. unfold process. simpl.
  unfold _populate_run_args. simpl. unfold Node_run, call_run. simpl.
  unfold live_context, populate_kwargs. simpl.
  by rewrite map_filter_id.
Qed.

Lemma default_node_passes_through_witness :
  ∃ n h1,
    Node_init "d" {["k" := VInt 1]} DefaultNode_signature ∅ = Ok (n, h1)
    ∧ process (Node_run DefaultNode_run) n h1 None (Plain (VList []))
      = ([ERun (Plain (VList [])) [] {["k" := VInt 1]};
          EPush (Plain (VList []))], Ok ())
    ∧ process (Node_run DefaultNode_run) n
        (update_context n {["item" := VInt 2]} h1) None (Plain (VList []))
      = ([], Raise TypeError).
Proof.
  eexists _, _. split; [reflexivity|]. split.
  - refine (eq_trans
              (default_node_passes_through "d" {["k" := VInt 1]} ∅ _ _ _ None
                 (Plain (VList [])) eq_refl) _).
    vm_compute. reflexivity.
  - refine (eq_trans
              (default_node_passes_through "d" {["k" := VInt 1]} ∅ _ _ _ None
                 (Plain (VList [])) eq_refl) _).
    vm_compute. reflexivity.
Defined.

(** ** Cursor-driven push *)

Lemma fetch_loop_spec {R} (fuel : nat) : ∀ (n : nat) (cursor : list R),
  0 < n → length cursor < fuel →
  ∃ pushed,
    fetch_loop fuel n cursor = (pushed, [])
    ∧ concat pushed = cursor
    ∧ Forall (λ chunk, chunk ≠ [] ∧ length chunk ≤ n) pushed
    ∧ (∀ i chunk, pushed !! i = Some chunk → S i < length pushed →
         length chunk = n)
    ∧ length cursor ≤ length pushed * n
    ∧ length pushed * n < length cursor + n.
Proof.
  induction fuel as [|fuel IH]; intros n cursor Hn Hfuel; [lia|].
  simpl. destruct (take n cursor) as [|r chunk] eqn:Htake.
  - assert (cursor = []) as ->.
    { destruct cursor; [done|]. destruct n; [lia|done]. }
    exists []. rewrite drop_nil. repeat split; simpl; try done; try lia.
  - assert (length (r :: chunk) = Nat.min n (length cursor)) as Hlen.
    { rewrite <- Htake. apply length_take. }
    destruct (IH n (drop n cursor) Hn) as (ps & -> & Hcat & Hall & Hfull & Hlo & Hhi).
    { rewrite length_drop. simpl in Hlen. lia. }
    rewrite length_drop in Hlo, Hhi.
    exists ((r :: chunk) :: ps).
    split; [done|]. split; [|split; [|split; [|split]]].
    + change (concat ((r :: chunk) :: ps)) with ((r :: chunk) ++ concat ps).
      rewrite Hcat, <- Htake. apply take_drop.
    + constructor; [|done]. split; [done|]. lia.
    + intros i c Hi Hlast. destruct i as [|i]; simpl in *.
      * injection Hi as <-. destruct ps as [|p ps]; [simpl in Hlast; lia|].
        apply Forall_cons in Hall as [[Hp _] _].
        assert (length (concat (p :: ps)) ≠ 0) as Hne.
        { simpl. rewrite length_app. destruct p; [done|simpl; lia]. }
        rewrite Hcat, length_drop in Hne. simpl. simpl in Hlen. lia.
      * apply (Hfull i c Hi). lia.
    + simpl length in *. lia.
    + simpl length in *.
      destruct ps as [|p ps].
      * simpl in *. lia.
      * apply Forall_cons in Hall as [[Hp _] _].
        assert (length (concat (p :: ps)) ≠ 0) as Hne.
        { simpl. rewrite length_app. destruct p; [done|simpl; lia]. }
        rewrite Hcat, length_drop in Hne. simpl in *. lia.
Qed.

(** X6: with a chunk size of at least one row, [do_push] drains the
    cursor: the chunks pushed are non-empty, hold the rows in order,
    are all of the chunk size except possibly the last, and nothing is
    pushed when there are no rows.  Without a chunk size ([None] or 0)
    it pushes once, everything that [fetchall] returns, also when that
    is the empty list. *)
Theorem cursor_do_push_chunks {R} (cursor : list R) (n : nat) :
  (∃ pushed,
     cursor_do_push cursor (Some (S n)) = (pushed, [])
     ∧ concat pushed = cursor
     ∧ Forall (λ chunk, chunk ≠ [] ∧ length chunk ≤ S n) pushed
     ∧ (∀ i chunk, pushed !! i = Some chunk → S i < length pushed →
          length chunk = S n)
     ∧ length cursor ≤ length pushed * S n
     ∧ length pushed * S n < length cursor + S n
     ∧ (cursor = [] → pushed = []))
  ∧ cursor_do_push cursor None = ([cursor], [])
  ∧ cursor_do_push cursor (Some 0) = ([cursor], []).
Proof.
  split; [|done].
  destruct (fetch_loop_spec (S (length cursor)) (S n) cursor)
    as (ps & Hloop & Hcat & Hall & Hfull & Hlo & Hhi); [lia|lia|].
  exists ps. unfold cursor_do_push. repeat split; try done.
  intros ->. simpl in Hhi. destruct ps; [done|simpl in Hhi; lia].
Qed.

(** ** Fan-out and parallel runners *)


Lemma chunks_split_sizes {A} (ary : list A) Nsections :
  0 < Nsections →
  length <$> chunks (split_sizes (length ary) Nsections) ary
  = split_sizes (length ary) Nsections.
Proof.
  intros Hn. apply length_chunks. rewrite sum_split_sizes; lia.
Qed.



(** Without the [split] option (absent or falsy) every downstream
    stage is sent the whole item as it is, without conversion, for any
    number of stages; with it and no downstream stage the push fails
    with the [ValueError] of [array_split], before the item is
    converted. *)
Theorem fan_out_duplicate_and_no_stage {A B}
    (asarray : list A → outcome (list B))
    (ctx : dict) (downstream : list string) (it : list A) :
  (truthy (default (VBool false) (ctx !! "split")) = false →
     push_submissions asarray ctx downstream it
     = Ok ((λ d, (d, Whole it)) <$> downstream)
     ∧ ∀ i d, downstream !! i = Some d →
              ((λ d, (d, Whole (B:=B) it)) <$> downstream) !! i
              = Some (d, Whole it))
  ∧ (truthy (default (VBool false) (ctx !! "split")) = true →
     push_submissions asarray ctx [] it
     = Raise (ValueError "number sections must be larger than 0.")).
Proof.
  split; intros Hsplit; unfold push_submissions; rewrite Hsplit.
  - split; [done|]. intros i d Hd. by rewrite list_lookup_fmap, Hd.
  - reflexivity.
Qed.

Lemma fan_out_duplicate_and_no_stage_witness :
  push_submissions np_asarray ∅ ["n1"; "n2"] [VInt 1; VStr "a"]
  = Ok [("n1", Whole [VInt 1; VStr "a"]); ("n2", Whole [VInt 1; VStr "a"])]
  ∧ push_submissions np_asarray {["split" := VBool true]} []
      [VList [VInt 1]; VInt 2]
    = Raise (ValueError "number sections must be larger than 0.").
Proof.
  split.
  - apply (proj1 (fan_out_duplicate_and_no_stage np_asarray ∅ ["n1"; "n2"]
                    [VInt 1; VStr "a"])). vm_compute. reflexivity.
  - apply (proj2 (fan_out_duplicate_and_no_stage np_asarray
                    {["split" := VBool true]} [] [VList [VInt 1]; VInt 2])).
    vm_compute. reflexivity.
Defined.

(** X8: the parallel gliders cut the data into [min(len(data),
    max_workers)] slices.  For empty data the number of sections is 0
    and numpy's [array_split] raises [ValueError].  For non-empty data
    and at least one worker the data are converted to an array; if that
    raises, so does the call; otherwise no slice is empty, the slices
    are as many as that minimum, their lengths differ by at most one
    and they concatenate to the array made of the data. *)
Theorem paraglider_splits_spec {A B}
    (asarray : list A → outcome (list B))
    (data : list A) (_max_workers : nat) :
  (data = [] →
     paraglider_splits asarray data _max_workers
     = Raise (ValueError "number sections must be larger than 0."))
  ∧ (data ≠ [] → 0 < _max_workers →
     (∀ e, asarray data = Raise e →
        paraglider_splits asarray data _max_workers = Raise e)
     ∧ (∀ sary, asarray data = Ok sary → length sary = length data →
        ∃ splits,
          paraglider_splits asarray data _max_workers = Ok splits
          ∧ length splits = Nat.min (length data) _max_workers
          ∧ concat splits = sary
          ∧ Forall (λ s, s ≠ []) splits
          ∧ ∀ s1 s2, s1 ∈ splits → s2 ∈ splits →
                     length s1 ≤ length s2 + 1)).
Proof.
  split.
  - intros ->. reflexivity.
  - intros Hdata Hw. unfold paraglider_splits.
    set (N := Nat.min (length data) _max_workers).
    assert (0 < length data) as HL by (destruct data; [done|simpl; lia]).
    assert (0 < N ∧ N ≤ length data) as [HN HNL] by (unfold N; lia).
    split.
    { intros e He. by apply array_split_conversion_fails. }
    intros sary Hconv Hsary.
    pose proof (chunks_split_sizes sary N HN) as Hlens.
    rewrite Hsary in Hlens.
    set (sizes := split_sizes (length data) N) in *.
    exists (chunks sizes sary).
    rewrite (array_split_chunks _ _ sary) by done.
    split; [done|]. split; [|split; [|split]].
    + rewrite <- (length_fmap length), Hlens. by apply length_split_sizes.
    + rewrite concat_chunks. unfold sizes. rewrite sum_split_sizes by done.
      rewrite <- Hsary. by apply take_ge.
    + apply Forall_forall. intros s Hs Hnil.
      apply (list_elem_of_fmap_2 length) in Hs. rewrite Hlens in Hs.
      subst s. simpl in Hs. unfold sizes, split_sizes in Hs.
      assert (1 ≤ length data / N) by (apply Nat.div_le_lower_bound; lia).
      apply elem_of_app in Hs as [Hs|Hs];
        apply elem_of_replicate_inv in Hs; lia.
    + intros s1 s2 H1 H2.
      apply (list_elem_of_fmap_2 length) in H1, H2. rewrite Hlens in H1, H2.
      by apply (split_sizes_close (length data) N).
Qed.

Lemma paraglider_splits_spec_witness :
  paraglider_splits np_asarray [] 4
  = Raise (ValueError "number sections must be larger than 0.")
  ∧ (∃ splits,
       paraglider_splits np_asarray [VInt 1; VStr "a"; VInt 3] 8 = Ok splits
       ∧ length splits = 3
       ∧ concat splits
         = [NdScalar np_str (VInt 1); NdScalar np_str (VStr "a");
            NdScalar np_str (VInt 3)])
  ∧ paraglider_splits np_asarray [VList [VInt 1; VInt 2]; VList []] 8
    = Raise (ValueError "setting an array element with a sequence.").
Proof.
  split; [|split].
  - apply (proj1 (paraglider_splits_spec np_asarray [] 4)). reflexivity.
  - assert (np_asarray [VInt 1; VStr "a"; VInt 3]
            = Ok [NdScalar np_str (VInt 1); NdScalar np_str (VStr "a");
                  NdScalar np_str (VInt 3)]) as Hconv
      by (vm_compute; reflexivity).
    destruct (proj2 (proj2 (paraglider_splits_spec np_asarray
                              [VInt 1; VStr "a"; VInt 3] 8)
                       ltac:(discriminate) ltac:(lia))
                _ Hconv eq_refl)
      as (splits & Hs & Hl & Hc & _).
    exists splits. split; [exact Hs|]. split; [exact Hl|exact Hc].
  - apply (proj1 (proj2 (paraglider_splits_spec np_asarray
                           [VList [VInt 1; VInt 2]; VList []] 8)
                    ltac:(discriminate) ltac:(lia))).
    vm_compute. reflexivity.
Defined.

(** ** Connection nodes *)

(** X9: [begin] checks the connection of the node's context when that
    is truthy, whatever the GlobalState holds, and the GlobalState's
    otherwise; when it returns, the connection it settled on is truthy
    and has passed the class's [check_conn]; when neither source has a
    truthy connection it fails with the assertion naming the class. *)
Theorem sql_node_begin_resolution
    (cls : sql_node_class) (context_conn global_state_conn : option Conn) :
  (∀ c, context_conn = Some c → conn_bool c = true →
     sql_node_begin cls context_conn global_state_conn
     = sql_node_begin cls (Some c) None)
  ∧ (∀ conn,
       sql_node_begin cls context_conn global_state_conn = Ok conn →
       conn_bool conn = true
       ∧ check_conn cls conn = Ok ()
       ∧ (context_conn = Some conn
          ∨ (global_state_conn = Some conn
             ∧ ∀ c, context_conn = Some c → conn_bool c = false)))
  ∧ ((∀ c, context_conn = Some c → conn_bool c = false) →
     (∀ c, global_state_conn = Some c → conn_bool c = false) →
     sql_node_begin cls context_conn global_state_conn
     = Raise (AssertionError
                (class_name cls +:+
                 " requires a conn argument in context or global state"))).
Proof.
  unfold sql_node_begin, conn_or. split; [|split].
  - intros c -> Hc. by rewrite Hc.
  - intros conn.
    destruct context_conn as [c|]; [destruct (conn_bool c) eqn:Hc|].
    + rewrite Hc. destruct (check_conn cls c) as [[]|e] eqn:Hcheck; simpl;
        [|done].
      intros [= <-]. auto.
    + destruct global_state_conn as [g|]; [|done].
      destruct (conn_bool g) eqn:Hg; [|done].
      destruct (check_conn cls g) as [[]|e] eqn:Hcheck; simpl; [|done].
      intros [= <-]. split; [done|]. split; [done|]. right.
      split; [done|]. by intros ? [= <-].
    + destruct global_state_conn as [g|]; [|done].
      destruct (conn_bool g) eqn:Hg; [|done].
      destruct (check_conn cls g) as [[]|e] eqn:Hcheck; simpl; [|done].
      intros [= <-]. split; [done|]. split; [done|]. right.
      split; [done|]. by intros ? [=].
  - intros Hc Hg.
    destruct context_conn as [c|].
    + rewrite (Hc c eq_refl).
      destruct global_state_conn as [g|]; [|done]. by rewrite (Hg g eq_refl).
    + destruct global_state_conn as [g|]; [|done]. by rewrite (Hg g eq_refl).
Qed.

Lemma sql_node_begin_resolution_witness :
  sql_node_begin SQLiteConnectionNode (Some sqlite3_conn)
    (Some sqlalchemy_conn) = Ok sqlite3_conn
  ∧ sql_node_begin SQLConnectionNode None None
    = Raise (AssertionError
               "SQLConnectionNode requires a conn argument in context or global state").
Proof.
  split.
  - refine (eq_trans
              (proj1 (sql_node_begin_resolution SQLiteConnectionNode
                        (Some sqlite3_conn) (Some sqlalchemy_conn))
                 sqlite3_conn eq_refl eq_refl) _).
    reflexivity.
  - apply (proj2 (proj2 (sql_node_begin_resolution SQLConnectionNode
                           None None))); intros c Hc; discriminate Hc.
Defined.

(** X10: [SQLConnectionNode.check_conn] accepts every connection on
    which [get_sql_executor] returns.  For a SQLAlchemy connection
    [get_sql_executor] returns the connection itself and does not ask
    for a cursor; for any other connection that [check_conn] accepts it
    calls [conn.cursor()] and returns the cursor, or raises what that
    call raises; a connection that [check_conn] rejects is one for which
    [get_sql_executor] fails on the missing [cursor] attribute. *)
Theorem check_conn_guards_executor {Cursor}
    (call_cursor : Conn → outcome Cursor) (conn : Conn) :
  (∀ ex, get_sql_executor call_cursor conn = Ok ex →
     check_conn SQLConnectionNode conn = Ok ())
  ∧ (is_sqlalchemy_conn conn = true →
     get_sql_executor call_cursor conn = Ok (ExecConn conn))
  ∧ (is_sqlalchemy_conn conn = false →
     check_conn SQLConnectionNode conn = Ok () →
     get_sql_executor call_cursor conn
     = match call_cursor conn with
       | Ok cursor => Ok (ExecCursor cursor)
       | Raise e => Raise e
       end)
  ∧ (check_conn SQLConnectionNode conn ≠ Ok () →
     get_sql_executor call_cursor conn = Raise (AttributeError "cursor")).
Proof.
  unfold check_conn, get_sql_executor.
  destruct (is_sqlalchemy_conn conn), (conn_has_cursor conn); simpl;
    (split; [|split; [|split]]); try done;
    destruct (call_cursor conn); done.
Qed.

Lemma check_conn_guards_executor_witness :
  get_sql_executor (λ _, Ok "cursor") (other_conn true)
  = Ok (ExecCursor "cursor")
  ∧ get_sql_executor (Cursor:=string)
      (λ _, Raise (Raised "Cannot operate on a closed database."))
      sqlite3_conn
    = Raise (Raised "Cannot operate on a closed database.")
  ∧ get_sql_executor (λ _, Ok "cursor") (other_conn false)
    = Raise (AttributeError "cursor").
Proof.
  split; [|split].
  - apply (proj1 (proj2 (proj2 (check_conn_guards_executor
                                  (λ _, Ok "cursor") (other_conn true))))).
    + reflexivity.
    + reflexivity.
  - apply (proj1 (proj2 (proj2 (check_conn_guards_executor
             (λ _ : Conn,
                @Raise string (Raised "Cannot operate on a closed database."))
             sqlite3_conn)))).
    + reflexivity.
    + reflexivity.
  - apply (proj2 (proj2 (proj2 (check_conn_guards_executor
                                  (λ _, Ok "cursor") (other_conn false))))).
    discriminate.
Defined.

(** X11: what the node classes accept.  A connection that
    [SQLiteConnectionNode] or [SQLAlchemyConnectionNode] accepts is
    accepted by [PandasSQLConnectionNode]; [SQLDBAPIConnectionNode]
    accepts an object of any type exactly when it has a [cursor]
    method, and whatever it accepts [SQLConnectionNode] accepts as
    well. *)
Theorem check_conn_inclusions (conn : Conn) :
  (check_conn SQLiteConnectionNode conn = Ok () →
     check_conn PandasSQLConnectionNode conn = Ok ())
  ∧ (check_conn SQLAlchemyConnectionNode conn = Ok () →
     check_conn PandasSQLConnectionNode conn = Ok ())
  ∧ (check_conn SQLDBAPIConnectionNode conn = Ok ()
     ↔ conn_has_cursor conn = true)
  ∧ (check_conn SQLDBAPIConnectionNode conn = Ok () →
     check_conn SQLConnectionNode conn = Ok ()).
Proof.
  unfold check_conn, base_check_conn, _is_allowed_conn, isinstance. simpl.
  destruct (conn_category conn), (conn_has_cursor conn); simpl;
    repeat split; done.
Qed.

Lemma check_conn_inclusions_witness :
  check_conn PandasSQLConnectionNode sqlite3_conn = Ok ()
  ∧ check_conn SQLConnectionNode (other_conn true) = Ok ().
Proof.
  split.
  - apply (proj1 (check_conn_inclusions sqlite3_conn)). reflexivity.
  - apply (proj2 (proj2 (proj2 (check_conn_inclusions (other_conn true))))).
    reflexivity.
Defined.

(** ** Bulk replace: row shapes *)

(** X12: [get_bulk_replace] looks at the first row only.  It fails with
    [IndexError] on an empty batch.  It makes no assertion for a
    SQLAlchemy connection, asserts that the first row is a [sqlite3.Row]
    for a sqlite3 connection and that it is not a tuple for any other
    connection, and then asks the row for its keys.  It produces a
    statement exactly when the assertion passes and [keys()] returns;
    the columns it passes on are those keys, with the keywords of the
    category.  A row that passes the assertion and has no [keys] (a
    list with a cursor-style connection, a tuple with a SQLAlchemy
    connection) fails with the error of that call; a dict row with a
    sqlite3 connection and a tuple row with a cursor-style connection
    are rejected by the assertions. *)
Theorem get_bulk_replace_row_shape {stmt}
    (f : string → list string → option bool → option string → stmt)
    (conn : connection) (table : string) :
  get_bulk_replace f conn table [] = Raise IndexError
  ∧ (∀ r rows,
       get_bulk_replace f conn table (r :: rows)
       = get_bulk_replace f conn table [r])
  ∧ (∀ r rows,
       (∃ s, get_bulk_replace f conn table (r :: rows) = Ok s)
       ↔ row_accepted conn r = true ∧ ∃ keys, row_keys r = Ok keys)
  ∧ (∀ r rows keys,
       row_accepted conn r = true → row_keys r = Ok keys →
       get_bulk_replace f conn table (r :: rows)
       = Ok (f table keys (bulk_replace_keywords conn).1
               (bulk_replace_keywords conn).2))
  ∧ (∀ r rows e,
       row_accepted conn r = true → row_keys r = Raise e →
       get_bulk_replace f conn table (r :: rows) = Raise e)
  ∧ (∀ r rows,
       is_sqlite_row r = false →
       get_bulk_replace f SQLiteConn table (r :: rows)
       = Raise (AssertionError "Only sqlite3.Row rows are supported"))
  ∧ (∀ r rows,
       is_tuple r = true →
       get_bulk_replace f CursorConn table (r :: rows)
       = Raise (AssertionError
                  "Dict rows expected, got tuple. Please use a dict cursor.")).
Proof.
  split; [by destruct conn|]. split; [by destruct conn|].
  split; [|split; [|split; [|split]]].
  - intros r rows. destruct conn; simpl.
    + destruct (row_keys r) as [keys|e]; simpl; split.
      * eauto.
      * eauto.
      * by intros [? ?].
      * by intros [_ [? ?]].
    + destruct (is_sqlite_row r); simpl.
      * destruct (row_keys r) as [keys|e]; simpl; split;
          solve [eauto | by intros [? ?] | by intros [_ [? ?]]].
      * split; [by intros [? ?]|by intros [? _]].
    + destruct (is_tuple r); simpl.
      * split; [by intros [? ?]|by intros [? _]].
      * destruct (row_keys r) as [keys|e]; simpl; split;
          solve [eauto | by intros [? ?] | by intros [_ [? ?]]].
  - intros r rows keys Hacc Hkeys. destruct conn; simpl in *.
    + by rewrite Hkeys.
    + by rewrite Hacc, Hkeys.
    + apply negb_true_iff in Hacc. by rewrite Hacc, Hkeys.
  - intros r rows e Hacc Hkeys. destruct conn; simpl in *.
    + by rewrite Hkeys.
    + by rewrite Hacc, Hkeys.
    + apply negb_true_iff in Hacc. by rewrite Hacc, Hkeys.
  - intros r rows Hr. simpl. by rewrite Hr.
  - intros r rows Hr. simpl. by rewrite Hr.
Qed.

Lemma get_bulk_replace_row_shape_witness :
  get_bulk_replace
    (λ t c (d : option bool) (v : option string), (t, c, d, v))
    SQLiteConn "t"
    [SqliteRow [("id", VInt 1); ("name", VStr "a")]; TupleRow []]
  = Ok ("t", ["id"; "name"], Some false, Some "?")
  ∧ get_bulk_replace
      (λ t c (d : option bool) (v : option string), (t, c, d, v))
      CursorConn "t" [ListRow [VInt 1; VStr "a"]]
    = Raise (AttributeError "keys").
Proof.
  split.
  - apply (proj1 (proj2 (proj2 (proj2
             (get_bulk_replace_row_shape
                (λ t c (d : option bool) (v : option string), (t, c, d, v))
                SQLiteConn "t"))))
             (SqliteRow [("id", VInt 1); ("name", VStr "a")])
             [TupleRow []] ["id"; "name"] eq_refl eq_refl).
  - apply (proj1 (proj2 (proj2 (proj2 (proj2
             (get_bulk_replace_row_shape
                (λ t c (d : option bool) (v : option string), (t, c, d, v))
                CursorConn "t")))))
             (ListRow [VInt 1; VStr "a"]) [] (AttributeError "keys")
             eq_refl eq_refl).
Defined.

(** ** Node contexts around a pass *)



(** X13: when every key of [node_contexts] names a node of the
    pipeline, [update_node_contexts] returns having merged each update
    into the live context of its node (the update's keys win); nodes
    that are not named keep their context, and no default context is
    touched.  It is assumed that distinct nodes hold distinct dict
    objects and that no live dict is some node's default dict. *)
Theorem update_node_contexts_merges
    (lookup : node_lookup) (ncs : list (string * dict)) (h : heap) :
  NoDup ncs.*1 →
  (∀ k, k ∈ ncs.*1 → is_Some (lookup !! k)) →
  (∀ k1 k2 n1 n2, lookup !! k1 = Some n1 → lookup !! k2 = Some n2 →
     context n1 ≠ default_context n2 ∧ (k1 ≠ k2 → context n1 ≠ context n2)) →
  ∃ h1,
    update_node_contexts lookup ncs h = (h1, Ok ())
    ∧ (∀ k v n, (k, v) ∈ ncs → lookup !! k = Some n →
         live_context (n, h1) = v ∪ live_context (n, h))
    ∧ (∀ k n, k ∉ ncs.*1 → lookup !! k = Some n →
         live_context (n, h1) = live_context (n, h))
    ∧ (∀ k n, lookup !! k = Some n →
         h1 !! default_context n = h !! default_context n).
Proof.
  revert h. induction ncs as [|[k v] ncs IH]; intros h Hnd Hvalid Hwf.
  - exists h. simpl. split; [done|]. split; [|done].
    intros k v n Hin. by apply elem_of_nil in Hin.
  - simpl in Hnd. apply NoDup_cons in Hnd as [Hk Hnd].
    destruct (Hvalid k) as [n Hn]; [by left|].
    destruct (IH (update_context n v h) Hnd) as (h1 & Hupd & Hnamed & Hrest & Hdef);
      [intros k' Hk'; apply Hvalid; by right|done|].
    exists h1. simpl. rewrite Hn. split; [done|]. split; [|split].
    + intros k' v' n' [[= -> ->]|Hin]%elem_of_cons Hn'.
      * assert (n' = n) as -> by congruence.
        rewrite (Hrest k n Hk Hn).
        apply (update_context_live (n, h) v).
      * rewrite (Hnamed k' v' n' Hin Hn').
        assert (k' ≠ k) as Hne.
        { intros ->. apply Hk. apply list_elem_of_fmap. by exists (k, v'). }
        f_equal. unfold live_context, deref, update_context, dict_update.
        simpl. rewrite lookup_insert_ne; [done|].
        by apply (Hwf k k' n n' Hn Hn').
    + intros k' n' [Hne Hnin]%not_elem_of_cons Hn'.
      rewrite (Hrest k' n' Hnin Hn').
      unfold live_context, deref, update_context, dict_update. simpl.
      rewrite lookup_insert_ne; [done|].
      apply (Hwf k k' n n' Hn Hn'). congruence.
    + intros k' n' Hn'. rewrite (Hdef k' n' Hn').
      unfold update_context, dict_update. rewrite lookup_insert_ne; [done|].
      by apply (Hwf k k' n n' Hn Hn').
Qed.

Lemma update_node_contexts_merges_witness :
  ∃ h1,
    update_node_contexts {["a" := node_requiring "a" ["x"]]}
      [("a", {["x" := VInt 1]})] (heap_with_context {["y" := VInt 2]})
    = (h1, Ok ())
    ∧ live_context (node_requiring "a" ["x"], h1)
      = {["x" := VInt 1; "y" := VInt 2]}.
Proof.
  destruct (update_node_contexts_merges
              {["a" := node_requiring "a" ["x"]]}
              [("a", {["x" := VInt 1]})]
              (heap_with_context {["y" := VInt 2]}))
    as (h1 & Hupd & Hnamed & _).
  - apply NoDup_singleton.
  - intros k ->%list_elem_of_singleton. by eexists.
  - intros k1 k2 n1 n2
      [<- <-]%lookup_singleton_Some [<- <-]%lookup_singleton_Some.
    split; [discriminate|congruence].
  - exists h1. split; [exact Hupd|].
    refine (eq_trans (Hnamed "a" {["x" := VInt 1]} _ _ _) _).
    + apply list_elem_of_singleton. reflexivity.
    + reflexivity.
    + reflexivity.
Defined.








(** ** The surface: single arguments *)

Lemma truthy_bool_type (v : value) :
  truthy v = true → type_of v = TBool → v = VBool true.
Proof. destruct v as [|[]| | |]; simpl; congruence. Qed.

(** X16: a generated argument is a flag only for a default that is the
    boolean [True], and then its action is [store_false]; no generated
    argument has the action [store_true].  A default of [False], like
    any falsy default, gives an argument of type [str] that keeps the
    default. *)
Theorem script_arg_flags
    (self : GliderScript) (h : heap) (node : Node) (arg_name : string)
    (required : bool) (dflt : value) (a : Arg) :
  _get_script_arg self h node arg_name required dflt = Some a →
  a_action a ≠ Some "store_true"
  ∧ (∀ act, a_action a = Some act →
       act = "store_false" ∧ a_default a = Some (VBool true)
       ∧ a_type a = None)
  ∧ (∀ v, a_default a = Some v → truthy v = false →
       a_type a = Some TStr ∧ a_action a = None)
  ∧ (∀ v, a_default a = Some v → truthy v = true → v ≠ VBool true →
       a_type a = Some (type_of v) ∧ a_action a = None).
Proof.
  unfold _get_script_arg.
  destruct (blacklisted self (name node) arg_name); [done|].
  set (rd := if od_mem arg_name (inject self) then (false, VNone) else _).
  destruct rd as [req d]. clear.
  destruct (truthy d) eqn:Ht.
  - destruct (pytype_eqb (type_of d) TBool) eqn:Hty.
    + assert (d = VBool true) as ->.
      { apply truthy_bool_type; [done|]. by destruct d. }
      intros [= <-]. simpl. naive_solver congruence.
    + intros [= <-]. simpl. naive_solver congruence.
  - intros [= <-]. simpl. naive_solver congruence.
Qed.

Lemma script_arg_flags_witness :
  ∃ a,
    _get_script_arg (GliderScript_init [] {| gs_items := ∅ |} [] [] [])
      (heap_with_context ∅) (node_requiring "n" []) "verbose" false
      (VBool false) = Some a
    ∧ a_type a = Some TStr ∧ a_action a = None.
Proof.
  eexists. split; [vm_compute; reflexivity|].
  match goal with
  | |- a_type ?a = _ ∧ _ =>
      assert (_get_script_arg
                (GliderScript_init [] {| gs_items := ∅ |} [] [] [])
                (heap_with_context ∅) (node_requiring "n" []) "verbose"
                false (VBool false) = Some a) as Ha
        by (vm_compute; reflexivity);
      apply (proj1 (proj2 (proj2
               (script_arg_flags
                  (GliderScript_init [] {| gs_items := ∅ |} [] [] [])
                  (heap_with_context ∅) (node_requiring "n" []) "verbose"
                  false (VBool false) a Ha))) (VBool false));
      reflexivity
  end.
Defined.

(** X17: the default and the required flag of a generated argument.
    For a parameter that is neither blacklisted nor injected, a value
    in the node's live context makes the argument optional with that
    value as default, before the GlobalState is looked at; a value in
    the GlobalState alone does the same; only when neither defines the
    parameter do the signature's required flag and default stand.  The
    flag is always [--<node>_<parameter>]. *)
Theorem script_arg_defaults
    (self : GliderScript) (h : heap) (node : Node) (arg_name : string)
    (required : bool) (dflt : value) :
  blacklisted self (name node) arg_name = false →
  od_mem arg_name (inject self) = false →
  ∃ a,
    _get_script_arg self h node arg_name required dflt = Some a
    ∧ a_flag a = "--" +:+ name node +:+ "_" +:+ arg_name
    ∧ (∀ v, live_context (node, h) !! arg_name = Some v →
         a_required a = Some false ∧ a_default a = Some v)
    ∧ (∀ v, live_context (node, h) !! arg_name = None →
         gs_items (glider_global_state self) !! arg_name = Some v →
         a_required a = Some false ∧ a_default a = Some v)
    ∧ (live_context (node, h) !! arg_name = None →
       gs_items (glider_global_state self) !! arg_name = None →
       a_required a = Some required ∧ a_default a = Some dflt).
Proof.
  intros Hbl Hinj. unfold _get_script_arg, live_context. simpl.
  rewrite Hbl, Hinj.
  destruct (deref h (context node) !! arg_name) as [v|] eqn:Hctx;
    [|destruct (gs_items (glider_global_state self) !! arg_name)
        as [g|] eqn:Hgs].
  - destruct (pytype_eqb _ TBool); eexists; (split; [reflexivity|]);
      simpl; repeat split; try done; by intros ? [= <-].
  - destruct (pytype_eqb _ TBool); eexists; (split; [reflexivity|]);
      simpl; repeat split; try done; by intros ? _ [= <-].
  - destruct (pytype_eqb _ TBool); eexists; (split; [reflexivity|]);
      simpl; repeat split; done.
Qed.

Lemma script_arg_defaults_witness :
  ∃ a,
    _get_script_arg
      (GliderScript_init [] {| gs_items := {["x" := VInt 3]} |} [] [] [])
      (heap_with_context {["x" := VStr "ctx"]})
      (node_requiring "n" ["x"]) "x" true VNone = Some a
    ∧ a_flag a = "--n_x"
    ∧ a_required a = Some false
    ∧ a_default a = Some (VStr "ctx").
Proof.
  destruct (script_arg_defaults
              (GliderScript_init [] {| gs_items := {["x" := VInt 3]} |}
                 [] [] [])
              (heap_with_context {["x" := VStr "ctx"]})
              (node_requiring "n" ["x"]) "x" true VNone)
    as (a & Ha & Hflag & Hctx & _).
  - reflexivity.
  - reflexivity.
  - exists a. split; [exact Ha|]. split; [exact Hflag|].
    apply (Hctx (VStr "ctx")). reflexivity.
Defined.

(** ** The surface as a whole *)

Lemma od_set_elem {V} (k : string) (v : V) (d : list (string * V)) k' x :
  (k', x) ∈ od_set k v d → (k' = k ∧ x = v) ∨ (k', x) ∈ d.
Proof.
  induction d as [|[k0 v0] d IH]; simpl.
  - intros [= -> ->]%list_elem_of_singleton. by left.
  - destruct (String.eqb_spec k0 k) as [->|Hne].
    + intros [[= -> ->]|Hin]%elem_of_cons; [by left|]. right. by right.
    + intros [[= -> ->]|Hin]%elem_of_cons; [right; by left|].
      destruct (IH Hin) as [?|?]; [by left|]. right. by right.
Qed.

Lemma od_set_in {V} (k : string) (v : V) (d : list (string * V)) :
  (k, v) ∈ od_set k v d.
Proof.
  induction d as [|[k0 v0] d IH]; simpl; [by left|].
  destruct (String.eqb k0 k); [by left|by right].
Qed.

Lemma od_set_keep {V} (k : string) (v : V) (d : list (string * V)) k' x :
  (k', x) ∈ d → k' ≠ k → (k', x) ∈ od_set k v d.
Proof.
  induction d as [|[k0 v0] d IH]; simpl;
    [intros Hin; by apply elem_of_nil in Hin|].
  intros [[= -> ->]|Hin]%elem_of_cons Hne.
  - destruct (String.eqb_spec k0 k) as [->|_]; [done|by left].
  - destruct (String.eqb k0 k); right; [done|by apply IH].
Qed.

Lemma od_set_keys {V} (k : string) (v : V) (d : list (string * V)) :
  (od_set k v d).*1 = if bool_decide (k ∈ d.*1) then d.*1 else d.*1 ++ [k].
Proof.
  induction d as [|[k0 v0] d IH]; [done|].
  cbn [od_set]. destruct (String.eqb_spec k0 k) as [->|Hne].
  - rewrite !fmap_cons. cbn [fst].
    rewrite bool_decide_eq_true_2; [done|by left].
  - rewrite !fmap_cons, IH. cbn [fst]. case_bool_decide as Hin.
    + rewrite bool_decide_eq_true_2; [done|by right].
    + rewrite bool_decide_eq_false_2; [done|].
      intros [?|?]%elem_of_cons; congruence.
Qed.

Lemma od_set_NoDup {V} (k : string) (v : V) (d : list (string * V)) :
  NoDup d.*1 → NoDup (od_set k v d).*1.
Proof.
  intros Hnd. rewrite od_set_keys. case_bool_decide as Hin; [done|].
  apply NoDup_app. split; [done|]. split; [|apply NoDup_singleton].
  intros x Hx ->%list_elem_of_singleton. done.
Qed.

Lemma script_args_inv_set (P : Arg → Prop) sa (a : Arg) :
  script_args_inv P sa → P a → script_args_inv P (od_set (Arg_name a) a sa).
Proof.
  intros [Hnd Hall] Ha. split; [by apply od_set_NoDup|].
  intros k x [[-> ->]|Hin]%od_set_elem; [done|by apply Hall].
Qed.

Lemma script_args_inv_add (P : Arg → Prop) sa (o : option Arg) :
  script_args_inv P sa → (∀ a, o = Some a → P a) →
  script_args_inv P (add_script_arg o sa).
Proof.
  intros Hinv Ho. destruct o as [a|]; simpl; [|done].
  apply script_args_inv_set; auto.
Qed.

Lemma script_args_inv_params (P : Arg → Prop)
    (mk : string * value → option Arg) (params : list (string * value)) :
  ∀ sa,
    script_args_inv P sa →
    (∀ kv a, kv ∈ params → mk kv = Some a → P a) →
    script_args_inv P
      (foldl (λ acc kv, add_script_arg (mk kv) acc) sa params).
Proof.
  induction params as [|kv params IH]; intros sa Hinv Hmk; simpl; [done|].
  apply IH.
  - apply script_args_inv_add; [done|]. intros a Ha.
    apply (Hmk kv a); [by left|done].
  - intros kv' a Hin. apply Hmk. by right.
Qed.

Lemma script_args_inv_nodes (P : Arg → Prop) self h (ns : list Node) :
  ∀ sa,
    script_args_inv P sa →
    (∀ n p req d a, n ∈ ns → p ∈ run_params n →
       _get_script_arg self h n p req d = Some a → P a) →
    script_args_inv P (foldl (node_script_args self h) sa ns).
Proof.
  induction ns as [|n ns IH]; intros sa Hinv Hgen; simpl; [done|].
  apply IH; [|intros n' p req d a Hin; apply Hgen; by right].
  unfold node_script_args.
  apply (script_args_inv_params P
           (λ kv, _get_script_arg self h n kv.1 false kv.2)).
  - apply (script_args_inv_params P
             (λ kv, _get_script_arg self h n kv.1 true VNone)); [done|].
    intros kv a Hkv Ha. apply (Hgen n kv.1 true VNone a); [by left| |done].
    unfold run_params. apply elem_of_app. left.
    by apply list_elem_of_fmap_2.
  - intros kv a Hkv Ha. apply (Hgen n kv.1 false kv.2 a); [by left| |done].
    unfold run_params. apply elem_of_app. right.
    by apply list_elem_of_fmap_2.
Qed.

Lemma script_args_inv_custom (P : Arg → Prop) self (custom : list Arg) :
  ∀ sa sa',
    script_args_inv P sa →
    (∀ c, c ∈ custom → blacklisted self "" (Arg_name c) = false → P c) →
    add_custom_args self custom sa = Ok sa' →
    script_args_inv P sa'.
Proof.
  induction custom as [|c custom IH]; intros sa sa' Hinv Hc; simpl.
  - by intros [= <-].
  - destruct (blacklisted self "" (Arg_name c)) eqn:Hbl; [done|].
    apply IH.
    + apply script_args_inv_set; [done|]. apply Hc; [by left|done].
    + intros c' Hin. apply Hc. by right.
Qed.

Lemma script_arg_generated self h n p req d a :
  _get_script_arg self h n p req d = Some a →
  a_flag a = "--" +:+ name n +:+ "_" +:+ p
  ∧ blacklisted self (name n) p = false.
Proof.
  unfold _get_script_arg.
  destruct (blacklisted self (name n) p); [done|].
  destruct (if od_mem p (inject self) then _ else _) as [r v].
  destruct (pytype_eqb _ TBool); by intros [= <-].
Qed.

Lemma blacklisted_false self node_name arg_name :
  blacklisted self node_name arg_name = false ↔
  (arg_name ∉ blacklist self)
  ∧ (node_name +:+ "_" +:+ arg_name ∉ blacklist self).
Proof.
  unfold blacklisted, _get_script_arg_name.
  destruct (str_mem arg_name (blacklist self)) eqn:H1.
  - apply str_mem_elem_of in H1. split; [done|by intros [? _]].
  - apply str_mem_false in H1.
    destruct (str_mem _ (blacklist self)) eqn:H2.
    + apply str_mem_elem_of in H2. split; [done|by intros [_ ?]].
    + apply str_mem_false in H2. done.
Qed.

(** X18: every argument of the synthesized surface is a custom
    argument, the data argument, or the argument [--<node>_<parameter>]
    of a parameter in the run contract of a node of the pipeline, and
    then neither the parameter name nor the full name is blacklisted
    and the parameter is not injected.  The names of the arguments on
    the surface are pairwise distinct. *)
Theorem surface_arguments
    (ns : list Node) (g : GlobalState) (bl : list string)
    (inj : list (string * (unit → value)))
    (cl : list (string * (value → outcome unit)))
    (h : heap) (custom : list Arg) (surface : list Arg) :
  _get_script_args (GliderScript_init ns g bl inj cl) h custom = Ok surface →
  NoDup (Arg_name <$> surface)
  ∧ ∀ a, a ∈ surface →
      a ∈ custom
      ∨ a = data_arg
      ∨ ∃ n p, n ∈ ns ∧ p ∈ run_params n
               ∧ a_flag a = "--" +:+ name n +:+ "_" +:+ p
               ∧ (p ∉ bl) ∧ (p ∉ inj.*1)
               ∧ (name n +:+ "_" +:+ p ∉ bl)
               ∧ (name n +:+ "_" +:+ p ∉ inj.*1).
Proof.
  set (self := GliderScript_init ns g bl inj cl).
  set (P := λ a : Arg,
         a ∈ custom ∨ a = data_arg
         ∨ ∃ n p, n ∈ ns ∧ p ∈ run_params n
                  ∧ a_flag a = "--" +:+ name n +:+ "_" +:+ p
                  ∧ (p ∉ bl) ∧ (p ∉ inj.*1)
                  ∧ (name n +:+ "_" +:+ p ∉ bl)
                  ∧ (name n +:+ "_" +:+ p ∉ inj.*1)).
  unfold _get_script_args.
  set (sa0 := if blacklisted self "" SCRIPT_DATA_ARG then [] else _).
  destruct (add_custom_args self custom
              (foldl (node_script_args self h) sa0 (nodes self)))
    as [sa|e] eqn:Hcustom; simpl; [|done].
  intros [= <-].
  assert (script_args_inv P sa) as [Hnd Hall].
  { eapply script_args_inv_custom; [|by intros c Hc _; left|exact Hcustom].
    apply script_args_inv_nodes.
    - unfold sa0. destruct (blacklisted self "" SCRIPT_DATA_ARG).
      + split; [apply NoDup_nil_2|]. intros k a Hin.
        by apply elem_of_nil in Hin.
      + split; [apply NoDup_singleton|].
        intros k a [= -> ->]%list_elem_of_singleton.
        split; [done|]. right. by left.
    - intros n p req d a Hn Hp Ha.
      destruct (script_arg_generated _ _ _ _ _ _ _ Ha) as [Hflag Hbl].
      apply blacklisted_false in Hbl as [Hb1 Hb2].
      simpl in Hb1, Hb2. rewrite elem_of_app in Hb1, Hb2.
      right. right. exists n, p. naive_solver. }
  split.
  - assert (Arg_name <$> sa.*2 = sa.*1) as ->; [|done].
    clear -Hall. induction sa as [|[k a] sa IH]; [done|]. simpl.
    destruct (Hall k a) as [-> _]; [by left|]. f_equal.
    apply IH. intros k' a' Hin. apply Hall. by right.
  - intros a [[k a'] [-> Hin]]%list_elem_of_fmap. simpl.
    by destruct (Hall k a' Hin).
Qed.

Lemma surface_arguments_witness :
  ∃ surface,
    _get_script_args
      (GliderScript_init [node_requiring "n" ["x"; "secret"]]
         {| gs_items := ∅ |} [] [("secret", λ _, VStr "s")] [])
      (heap_with_context ∅) [] = Ok surface
    ∧ a_flag <$> surface = ["data"; "--n_x"]
    ∧ NoDup (Arg_name <$> surface).
Proof.
  eexists. split; [vm_compute; reflexivity|]. split; [reflexivity|].
  match goal with
  | |- NoDup (_ <$> ?s) =>
      assert (_get_script_args
                (GliderScript_init [node_requiring "n" ["x"; "secret"]]
                   {| gs_items := ∅ |} [] [("secret", λ _, VStr "s")] [])
                (heap_with_context ∅) [] = Ok s) as Hs
        by (vm_compute; reflexivity);
      exact (proj1 (surface_arguments _ _ _ _ _ _ _ s Hs))
  end.
Defined.

Lemma add_custom_args_rejects self (pre : list Arg) : ∀ c post sa,
  (∀ c', c' ∈ pre → blacklisted self "" (Arg_name c') = false) →
  blacklisted self "" (Arg_name c) = true →
  add_custom_args self (pre ++ c :: post) sa
  = Raise (AssertionError
             ("Blacklisted arg '" +:+ Arg_name c
              +:+ "' passed as a custom arg")).
Proof.
  induction pre as [|c0 pre IH]; intros c post sa Hpre Hc; simpl.
  - by rewrite Hc.
  - rewrite (Hpre c0) by by left. apply IH; [|done].
    intros c' Hin. apply Hpre. by right.
Qed.

Lemma add_custom_args_keeps self (custom : list Arg) : ∀ sa sa' k x,
  add_custom_args self custom sa = Ok sa' →
  (k, x) ∈ sa → k ∉ Arg_name <$> custom → (k, x) ∈ sa'.
Proof.
  induction custom as [|c custom IH]; intros sa sa' k x; simpl.
  - by intros [= <-].
  - destruct (blacklisted self "" (Arg_name c)); [done|].
    intros Hadd Hin [Hne Hnin]%not_elem_of_cons.
    apply (IH _ _ _ _ Hadd); [|done]. by apply od_set_keep.
Qed.

Lemma add_custom_args_defined self (custom : list Arg) : ∀ sa,
  (∀ c, c ∈ custom → blacklisted self "" (Arg_name c) = false) →
  ∃ sa', add_custom_args self custom sa = Ok sa'.
Proof.
  induction custom as [|c custom IH]; intros sa Hok; simpl; [by eexists|].
  rewrite (Hok c) by by left. apply IH. intros c' Hin. apply Hok. by right.
Qed.

Lemma add_custom_args_mem self (custom : list Arg) : ∀ sa sa' c,
  add_custom_args self custom sa = Ok sa' →
  NoDup (Arg_name <$> custom) →
  c ∈ custom → (Arg_name c, c) ∈ sa'.
Proof.
  induction custom as [|c0 custom IH]; intros sa sa' c; simpl.
  - intros _ _ Hin. by apply elem_of_nil in Hin.
  - destruct (blacklisted self "" (Arg_name c0)); [done|].
    intros Hadd [Hc0 Hnd]%NoDup_cons [->|Hin]%elem_of_cons.
    + apply (add_custom_args_keeps _ _ _ _ _ _ Hadd); [|done].
      apply od_set_in.
    + by apply (IH _ _ _ Hadd).
Qed.

(** X19: custom arguments.  The first custom argument whose name is
    blacklisted (as it stands, or with a leading underscore) makes the
    synthesis fail with the assertion naming it.  When none is, the
    synthesis returns, and, the custom arguments having distinct names,
    each of them is on the surface and is the only argument there with
    its name: it replaces a generated argument of the same name. *)
Theorem custom_script_args
    (self : GliderScript) (h : heap) (custom : list Arg) :
  (∀ pre c post,
     custom = pre ++ c :: post →
     (∀ c', c' ∈ pre → blacklisted self "" (Arg_name c') = false) →
     blacklisted self "" (Arg_name c) = true →
     _get_script_args self h custom
     = Raise (AssertionError
                ("Blacklisted arg '" +:+ Arg_name c
                 +:+ "' passed as a custom arg")))
  ∧ ((∀ c, c ∈ custom → blacklisted self "" (Arg_name c) = false) →
     ∃ surface,
       _get_script_args self h custom = Ok surface
       ∧ (NoDup (Arg_name <$> custom) →
          ∀ c, c ∈ custom →
            c ∈ surface
            ∧ ∀ a, a ∈ surface → Arg_name a = Arg_name c → a = c)).
Proof.
  unfold _get_script_args.
  set (sa0 := if blacklisted self "" SCRIPT_DATA_ARG then [] else _).
  set (sa1 := foldl (node_script_args self h) sa0 (nodes self)).
  assert (script_args_inv (λ _, True) sa1) as Hinv1.
  { apply script_args_inv_nodes; [|done].
    unfold sa0. destruct (blacklisted self "" SCRIPT_DATA_ARG).
    - split; [apply NoDup_nil_2|]. intros k a Hin.
      by apply elem_of_nil in Hin.
    - split; [apply NoDup_singleton|].
      by intros k a [= -> ->]%list_elem_of_singleton. }
  split.
  - intros pre c post -> Hpre Hc.
    by rewrite add_custom_args_rejects.
  - intros Hok.
    destruct (add_custom_args_defined self custom sa1 Hok) as [sa Hadd].
    rewrite Hadd. simpl. exists sa.*2. split; [done|].
    intros Hnd c Hc.
    assert (script_args_inv (λ _, True) sa) as [Hkeys Hall]
      by (eapply script_args_inv_custom; [exact Hinv1|done|exact Hadd]).
    pose proof (add_custom_args_mem _ _ _ _ c Hadd Hnd Hc) as Hmem.
    split.
    + apply list_elem_of_fmap. by exists (Arg_name c, c).
    + intros a [[k a'] [-> Hin]]%list_elem_of_fmap Hname. simpl in *.
      destruct (Hall k a' Hin) as [-> _]. rewrite Hname in Hin.
      pose proof (od_get_elem _ _ _ Hkeys Hin) as H1.
      pose proof (od_get_elem _ _ _ Hkeys Hmem) as H2. congruence.
Qed.

Lemma custom_script_args_witness :
  _get_script_args
    (GliderScript_init [node_requiring "n" ["x"]] {| gs_items := ∅ |}
       ["token"] [] [])
    (heap_with_context ∅)
    [ {| a_flag := "--token"; a_nargs := None; a_required := Some true;
         a_type := Some TStr; a_action := None; a_default := None |} ]
  = Raise (AssertionError "Blacklisted arg 'token' passed as a custom arg")
  ∧ ∃ surface,
      _get_script_args
        (GliderScript_init [node_requiring "n" ["x"]] {| gs_items := ∅ |}
           [] [] [])
        (heap_with_context ∅)
        [ {| a_flag := "--n_x"; a_nargs := None; a_required := Some false;
             a_type := Some TInt; a_action := None;
             a_default := Some (VInt 3) |} ]
      = Ok surface
      ∧ {| a_flag := "--n_x"; a_nargs := None; a_required := Some false;
           a_type := Some TInt; a_action := None;
           a_default := Some (VInt 3) |} ∈ surface.
Proof.
  split.
  - refine (eq_trans
              (proj1 (custom_script_args
                        (GliderScript_init [node_requiring "n" ["x"]]
                           {| gs_items := ∅ |} ["token"] [] [])
                        (heap_with_context ∅)
                        [ {| a_flag := "--token"; a_nargs := None;
                             a_required := Some true; a_type := Some TStr;
                             a_action := None; a_default := None |} ])
                 []
                 {| a_flag := "--token"; a_nargs := None;
                    a_required := Some true; a_type := Some TStr;
                    a_action := None; a_default := None |}
                 [] eq_refl _ eq_refl) _).
    + intros c Hc. by apply elem_of_nil in Hc.
    + reflexivity.
  - destruct (proj2 (custom_script_args
                       (GliderScript_init [node_requiring "n" ["x"]]
                          {| gs_items := ∅ |} [] [] [])
                       (heap_with_context ∅)
                       [ {| a_flag := "--n_x"; a_nargs := None;
                            a_required := Some false; a_type := Some TInt;
                            a_action := None;
                            a_default := Some (VInt 3) |} ]))
      as (surface & Hs & Hmem).
    + intros c ->%list_elem_of_singleton. reflexivity.
    + exists surface. split; [exact Hs|].
      apply Hmem; [apply NoDup_singleton|].
      apply list_elem_of_singleton. reflexivity.
Defined.

(** ** Un-flattening *)

Lemma split_nonempty sep s : split sep s ≠ [].
Proof.
  destruct s as [|c s]; simpl; [done|].
  destruct (Ascii.eqb c sep); [done|]. by destruct (split sep s).
Qed.

Lemma join_cons_cons sep p q qs :
  join sep (p :: q :: qs) = p +:+ sep +:+ join sep (q :: qs).
Proof. done. Qed.

Lemma join_split sep s : join (String sep "") (split sep s) = s.
Proof.
  induction s as [|c s IH]; simpl; [done|].
  destruct (Ascii.eqb_spec c sep) as [->|Hne].
  - pose proof (split_nonempty sep s) as Hs.
    destruct (split sep s) as [|q qs] eqn:Hsplit; [done|].
    rewrite join_cons_cons, IH. done.
  - pose proof (split_nonempty sep s) as Hs.
    destruct (split sep s) as [|p ps] eqn:Hsplit; [done|].
    destruct ps as [|q qs].
    + simpl in *. by rewrite IH.
    + rewrite join_cons_cons. rewrite join_cons_cons in IH.
      by rewrite <- IH.
Qed.

Lemma split_hd_no_sep sep s : has_char sep (hd "" (split sep s)) = false.
Proof.
  induction s as [|c s IH]; simpl; [done|].
  destruct (Ascii.eqb_spec c sep) as [->|Hne]; [done|].
  pose proof (split_nonempty sep s) as Hs.
  destruct (split sep s) as [|p ps]; [done|]. simpl in *.
  rewrite IH, orb_false_r. by apply Ascii.eqb_neq.
Qed.

Lemma split_no_sep sep s : has_char sep s = false → split sep s = [s].
Proof.
  induction s as [|c s IH]; simpl; [done|].
  intros [Hc Hs]%orb_false_elim. rewrite Hc, (IH Hs). done.
Qed.

Lemma split_app_sep sep a b :
  has_char sep a = false →
  split sep (a +:+ String sep b) = a :: split sep b.
Proof.
  induction a as [|c a IH]; simpl.
  - intros _. by rewrite Ascii.eqb_refl.
  - intros [Hc Ha]%orb_false_elim. by rewrite Hc, (IH Ha).
Qed.

(** A key with at least two segments is its first segment, an
    underscore, and the remaining segments joined again. *)
Lemma split_decode key :
  1 < length (split "_" key) →
  key = hd "" (split "_" key) +:+ "_" +:+ join "_" (tail (split "_" key)).
Proof.
  intros Hlen. rewrite <- (join_split "_" key) at 1.
  destruct (split "_" key) as [|p [|q qs]]; simpl in Hlen; try lia. done.
Qed.

Lemma convert_loop_preserves self items : ∀ nc unused nc' unused' node arg d v,
  convert_loop self items nc unused = Ok (nc', unused') →
  nc !! node = Some d → d !! arg = Some v →
  (∀ key v', (key, v') ∈ items →
     ¬ (hd "" (split "_" key) = node
        ∧ join "_" (tail (split "_" key)) = arg)) →
  ∃ d', nc' !! node = Some d' ∧ d' !! arg = Some v.
Proof.
  induction items as [|[key v0] items IH];
    intros nc unused nc' unused' node arg d v; simpl.
  - intros [= <- <-]. eauto.
  - intros Hloop Hnode Harg Hother.
    assert (∀ key v', (key, v') ∈ items →
              ¬ (hd "" (split "_" key) = node
                 ∧ join "_" (tail (split "_" key)) = arg)) as Hrest.
    { intros k' v' Hin. apply (Hother k' v'). by right. }
    destruct (node_known (nodes self) (hd "" (split "_" key))); simpl in Hloop.
    + destruct (1 <? length (split "_" key)); simpl in Hloop; [|done].
      destruct (decide (hd "" (split "_" key) = node)) as [Heq|Hne].
      * eapply (IH _ _ _ _ node arg (<[join "_" (tail (split "_" key)) := v0]> d) v
                  Hloop); [|rewrite lookup_insert_ne; [done|]|done].
        -- rewrite Heq, lookup_insert_eq, Hnode. done.
        -- intros Hj. apply (Hother key v0); [by left|done].
      * eapply (IH _ _ _ _ node arg d v Hloop); [|done|done].
        by rewrite lookup_insert_ne.
    + eapply IH; eauto.
Qed.

(** A key that starts with a node name and has no second segment stops
    the first loop. *)
Lemma convert_loop_single_segment self items : ∀ nc unused key v r,
  (key, v) ∈ items →
  node_known (nodes self) (hd "" (split "_" key)) = true →
  ¬ 1 < length (split "_" key) →
  convert_loop self items nc unused ≠ Ok r.
Proof.
  induction items as [|[k0 v0] items IH]; intros nc unused key v r; simpl.
  - intros Hin. by apply elem_of_nil in Hin.
  - intros [[= <- <-]|Hin]%elem_of_cons Hknown Hlen.
    + rewrite Hknown. simpl.
      destruct (Nat.ltb_spec 1 (length (split "_" key))); [lia|done].
    + destruct (node_known (nodes self) (hd "" (split "_" k0))); simpl;
        [|by eapply IH].
      destruct (1 <? length (split "_" k0)); simpl; [by eapply IH|done].
Qed.

Lemma convert_loop_sets self items : ∀ nc unused nc' unused' key v,
  convert_loop self items nc unused = Ok (nc', unused') →
  NoDup items.*1 →
  (key, v) ∈ items →
  node_known (nodes self) (hd "" (split "_" key)) = true →
  ∃ d, nc' !! hd "" (split "_" key) = Some d
       ∧ d !! join "_" (tail (split "_" key)) = Some v.
Proof.
  induction items as [|[k0 v0] items IH];
    intros nc unused nc' unused' key v.
  - intros _ _ Hin. by apply elem_of_nil in Hin.
  - intros Hloop Hnd Hin Hknown.
    rewrite fmap_cons in Hnd. apply NoDup_cons in Hnd as [Hk0 Hnd].
    cbn [fst] in Hk0. cbn [convert_loop] in Hloop.
    apply elem_of_cons in Hin as [[= -> ->]|Hin].
    + rewrite Hknown in Hloop. cbn [negb] in Hloop.
      destruct (1 <? length (split "_" k0)) eqn:Hlen; cbn [negb] in Hloop;
        [|done].
      apply Nat.ltb_lt in Hlen.
      eapply (convert_loop_preserves _ _ _ _ _ _ _ _ _ _ Hloop).
      * apply lookup_insert_eq.
      * apply lookup_insert_eq.
      * intros key' v' Hin' [Hhd Hjoin].
        destruct (decide (1 < length (split "_" key'))) as [Hlen'|Hlen'].
        -- apply Hk0. apply list_elem_of_fmap. exists (key', v').
           split; [|done]. cbn [fst].
           rewrite (split_decode k0 Hlen), (split_decode key' Hlen').
           by rewrite Hhd, Hjoin.
        -- eapply (convert_loop_single_segment _ _ _ _ key' v');
             [exact Hin'|by rewrite Hhd|exact Hlen'|exact Hloop].
    + destruct (node_known (nodes self) (hd "" (split "_" k0)));
        cbn [negb] in Hloop.
      * destruct (1 <? length (split "_" k0)); cbn [negb] in Hloop; [|done].
        by eapply IH.
      * by eapply IH.
Qed.

Lemma convert_loop_unknown self items : ∀ nc unused nc' unused',
  convert_loop self items nc unused = Ok (nc', unused') →
  ∀ k, k ∈ unused' →
       k ∈ unused ∨ node_known (nodes self) (hd "" (split "_" k)) = false.
Proof.
  induction items as [|[key v] items IH]; intros nc unused nc' unused'; simpl.
  - intros [= <- <-]. auto.
  - destruct (node_known (nodes self) (hd "" (split "_" key))) eqn:Hknown;
      simpl.
    + destruct (1 <? length (split "_" key)); simpl; [|done].
      intros Hloop k Hk. by eapply IH.
    + intros Hloop k Hk. destruct (IH _ _ _ _ Hloop k Hk) as [Hin|?]; [|auto].
      destruct (str_mem key unused); [auto|].
      apply elem_of_app in Hin as [?|Hin]; [auto|].
      apply list_elem_of_singleton in Hin as ->. auto.
Qed.

Lemma convert_loop_keys self items : ∀ nc unused nc' unused' nm,
  convert_loop self items nc unused = Ok (nc', unused') →
  is_Some (nc' !! nm) → is_Some (nc !! nm) ∨ has_char "_" nm = false.
Proof.
  induction items as [|[key v] items IH];
    intros nc unused nc' unused' nm; simpl.
  - intros [= <- <-]. auto.
  - destruct (node_known (nodes self) (hd "" (split "_" key))); simpl.
    + destruct (1 <? length (split "_" key)); simpl; [|done].
      intros Hloop Hnm. destruct (IH _ _ _ _ _ Hloop Hnm) as [Hs|?]; [|auto].
      destruct (decide (hd "" (split "_" key) = nm)) as [<-|Hne].
      * right. apply split_hd_no_sep.
      * left. by rewrite lookup_insert_ne in Hs.
    + apply IH.
Qed.

Lemma split_has_sep sep s : has_char sep s = true → 1 < length (split sep s).
Proof.
  induction s as [|c s IH]; simpl; [done|].
  pose proof (split_nonempty sep s) as Hne.
  destruct (Ascii.eqb c sep) eqn:Hc; simpl.
  - intros _. destruct (split sep s); [done|simpl; lia].
  - intros Hs. specialize (IH Hs).
    destruct (split sep s) as [|p ps]; simpl in *; lia.
Qed.

(** The first loop stops at the first key that is a node name and
    nothing else. *)
Lemma convert_loop_first_bare self (pre : list (string * value)) :
  ∀ post nc unused k v,
    Forall (λ kv, has_char "_" kv.1 = true
                  ∨ node_known (nodes self) kv.1 = false) pre →
    node_known (nodes self) k = true →
    has_char "_" k = false →
    convert_loop self (pre ++ (k, v) :: post) nc unused
    = Raise (AssertionError
               ("Invalid keyword arg " +:+ k
                +:+ ", can not be a node name")).
Proof.
  induction pre as [|[k0 v0] pre IH]; intros post nc unused k v Hpre Hknown Hbare.
  - simpl. rewrite split_no_sep by done. simpl. by rewrite Hknown.
  - apply Forall_cons in Hpre as [Hk0 Hpre]. simpl in Hk0.
    change (((k0, v0) :: pre) ++ (k, v) :: post)
      with ((k0, v0) :: (pre ++ (k, v) :: post)).
    cbn [convert_loop].
    destruct (has_char "_" k0) eqn:Hsep.
    + apply split_has_sep in Hsep. apply Nat.ltb_lt in Hsep. rewrite Hsep.
      destruct (node_known (nodes self) (hd "" (split "_" k0)));
        cbn [negb]; by apply IH.
    + destruct Hk0 as [?|Hunk]; [done|].
      rewrite split_no_sep by done. cbn [hd]. rewrite Hunk. cbn [negb].
      by apply IH.
Qed.

Lemma convert_kwargs_no_injection self kwargs nc unused :
  inject self = [] →
  convert_loop self kwargs ∅ [] = Ok (nc, unused) →
  _convert_kwargs self kwargs
  = pass_through kwargs unused (NodeContext <$> nc).
Proof.
  intros Hinj Hloop. unfold _convert_kwargs. rewrite Hloop. simpl.
  by rewrite get_injected_node_contexts_none.
Qed.

Lemma convert_kwargs_loop_ok self kwargs final :
  _convert_kwargs self kwargs = Ok final →
  ∃ nc unused, convert_loop self kwargs ∅ [] = Ok (nc, unused).
Proof.
  unfold _convert_kwargs.
  destruct (convert_loop self kwargs ∅ []) as [[nc unused]|e]; [|done].
  eauto.
Qed.

(** X20: un-flattening inverts the naming of the surface.  Without an
    injection map, for a node of the pipeline whose name has no
    underscore, the value given under the key [<node>_<parameter>] is,
    after conversion, in the context update of that node under
    [<parameter>], also when the parameter name itself contains
    underscores. *)
Theorem convert_kwargs_round_trip
    (self : GliderScript) (kwargs : list (string * value))
    (node arg : string) (v : value) (final : gmap string kwarg) :
  inject self = [] →
  NoDup kwargs.*1 →
  (_get_script_arg_name node arg, v) ∈ kwargs →
  node_known (nodes self) node = true →
  has_char "_" node = false →
  _convert_kwargs self kwargs = Ok final →
  ∃ d, final !! node = Some (NodeContext d) ∧ d !! arg = Some v.
Proof.
  intros Hinj Hnd Hin Hknown Hbare Hconv.
  destruct (convert_kwargs_loop_ok _ _ _ Hconv) as (nc & unused & Hloop).
  rewrite (convert_kwargs_no_injection _ _ _ _ Hinj Hloop) in Hconv.
  assert (split "_" (_get_script_arg_name node arg) = node :: split "_" arg)
    as Hsplit by (apply (split_app_sep "_" node arg Hbare)).
  destruct (convert_loop_sets _ _ _ _ _ _ _ v Hloop Hnd Hin) as (d & Hd & Hv).
  { by rewrite Hsplit. }
  rewrite Hsplit in Hd, Hv. simpl in Hd, Hv.
  rewrite (join_split "_" arg) in Hv.
  exists d. split; [|done].
  rewrite (pass_through_other _ _ _ _ node Hconv).
  - by rewrite lookup_fmap, Hd.
  - intros Hun.
    destruct (convert_loop_unknown _ _ _ _ _ _ Hloop node Hun) as [Hnil|Hunk].
    + by apply elem_of_nil in Hnil.
    + rewrite split_no_sep in Hunk by done. simpl in Hunk. congruence.
Qed.

Lemma convert_kwargs_round_trip_witness :
  ∃ final d,
    _convert_kwargs
      (GliderScript_init [node_requiring "load" ["table_name"]]
         {| gs_items := ∅ |} [] [] [])
      [("load_table_name", VStr "t"); ("verbose", VBool true)] = Ok final
    ∧ final !! "load" = Some (NodeContext d)
    ∧ d !! "table_name" = Some (VStr "t").
Proof.
  eexists.
  match goal with
  | |- ∃ d, _ = Ok ?f ∧ _ =>
      assert (_convert_kwargs
                (GliderScript_init [node_requiring "load" ["table_name"]]
                   {| gs_items := ∅ |} [] [] [])
                [("load_table_name", VStr "t"); ("verbose", VBool true)]
              = Ok f) as Hf by reflexivity;
      destruct (convert_kwargs_round_trip
                  (GliderScript_init [node_requiring "load" ["table_name"]]
                     {| gs_items := ∅ |} [] [] [])
                  [("load_table_name", VStr "t"); ("verbose", VBool true)]
                  "load" "table_name" (VStr "t") f) as (d & Hd & Hv)
  end.
  - reflexivity.
  - apply (bool_decide_unpack _). vm_compute. exact I.
  - left.
  - reflexivity.
  - reflexivity.
  - exact Hf.
  - exists d. split; [exact Hf|]. split; [exact Hd|exact Hv].
Defined.

(** X21: a node whose name contains an underscore cannot be reached
    from the command line: without an injection map no conversion
    yields a context update for it, whatever the keys, because a key is
    attributed to its first underscore-delimited segment. *)
Theorem convert_kwargs_underscore_node
    (self : GliderScript) (kwargs : list (string * value))
    (nm : string) (final : gmap string kwarg) :
  inject self = [] →
  has_char "_" nm = true →
  _convert_kwargs self kwargs = Ok final →
  ∀ d, final !! nm ≠ Some (NodeContext d).
Proof.
  intros Hinj Hnm Hconv d Hfinal.
  destruct (convert_kwargs_loop_ok _ _ _ Hconv) as (nc & unused & Hloop).
  rewrite (convert_kwargs_no_injection _ _ _ _ Hinj Hloop) in Hconv.
  destruct (decide (nm ∈ unused)) as [Hun|Hun].
  - destruct (pass_through_lookup _ _ _ _ nm Hconv Hun) as (v & _ & Hv).
    congruence.
  - rewrite (pass_through_other _ _ _ _ nm Hconv Hun), lookup_fmap in Hfinal.
    destruct (nc !! nm) as [d'|] eqn:Hnc; [|done].
    destruct (convert_loop_keys _ _ _ _ _ _ nm Hloop) as [Hs|Hs].
    + by eexists.
    + rewrite lookup_empty in Hs. by destruct Hs.
    + congruence.
Qed.

Lemma convert_kwargs_underscore_node_witness :
  ∃ final,
    _convert_kwargs
      (GliderScript_init [node_requiring "my_node" ["x"]]
         {| gs_items := ∅ |} [] [] [])
      [("my_node_x", VInt 1)] = Ok final
    ∧ final !! "my_node" = None
    ∧ final !! "my_node_x" = Some (TopLevel (VInt 1))
    ∧ ∀ d, final !! "my_node" ≠ Some (NodeContext d).
Proof.
  eexists. split; [reflexivity|]. split; [reflexivity|].
  split; [reflexivity|].
  apply (convert_kwargs_underscore_node
           (GliderScript_init [node_requiring "my_node" ["x"]]
              {| gs_items := ∅ |} [] [] [])
           [("my_node_x", VInt 1)] "my_node"); reflexivity.
Defined.

(** X22: a keyword that is exactly the name of a node of the pipeline
    (a name without underscore) makes the conversion fail with the
    assertion "Invalid keyword arg ..., can not be a node name".  The
    assertion names the first such keyword in the order of the keyword
    arguments: the one before which every keyword has an underscore or
    is not a node name; what comes after it is not looked at. *)
Theorem convert_kwargs_bare_node_name
    (self : GliderScript) (pre post : list (string * value))
    (k : string) (v : value) :
  Forall (λ kv, has_char "_" kv.1 = true
                ∨ node_known (nodes self) kv.1 = false) pre →
  node_known (nodes self) k = true →
  has_char "_" k = false →
  _convert_kwargs self (pre ++ (k, v) :: post)
  = Raise (AssertionError
             ("Invalid keyword arg " +:+ k +:+ ", can not be a node name")).
Proof.
  intros Hpre Hknown Hbare. unfold _convert_kwargs.
  by rewrite (convert_loop_first_bare self pre post ∅ [] k v).
Qed.

Lemma convert_kwargs_bare_node_name_witness :
  _convert_kwargs
    (GliderScript_init [node_requiring "load" ["x"]; node_requiring "save" []]
       {| gs_items := ∅ |} [] [] [])
    [("verbose", VBool true); ("load_x", VInt 0); ("save", VInt 1);
     ("load", VInt 2)]
  = Raise (AssertionError "Invalid keyword arg save, can not be a node name").
Proof.
  apply (convert_kwargs_bare_node_name
           (GliderScript_init
              [node_requiring "load" ["x"]; node_requiring "save" []]
              {| gs_items := ∅ |} [] [] [])
           [("verbose", VBool true); ("load_x", VInt 0)]
           [("load", VInt 2)] "save" (VInt 1)).
  - apply Forall_cons_2; [right; reflexivity|].
    apply Forall_cons_2; [left; reflexivity|]. apply Forall_nil_2.
  - reflexivity.
  - reflexivity.
Defined.

(** ** Clean-up and injection *)

(** X23: [clean_up] calls the teardown function of every entry whose
    argument is present, in the order of the clean-up map, whatever
    earlier entries did; it returns normally exactly when every entry
    has its argument, and otherwise raises once, at the end, with one
    "Could not clean up ..., no arg found" message per entry without
    argument, in order. *)
Theorem clean_up_report
    (self : GliderScript) (kwargs : list (string * value)) :
  (clean_up self kwargs).1 = omap (teardown_call kwargs) (clean self)
  ∧ ((clean_up self kwargs).2 = Ok ()
     ↔ ∀ kf, kf ∈ clean self → is_Some (od_get kf.1 kwargs))
  ∧ (∀ e, (clean_up self kwargs).2 = Raise e →
       e = CleanUpErrors (omap (missing_arg_message kwargs) (clean self))).
Proof.
  unfold clean_up. destruct (clean self) as [|e0 es] eqn:Hc.
  - split; [done|]. split; [|done]. split; [|done].
    intros _ kf Hin. by apply elem_of_nil in Hin.
  - rewrite clean_up_loop_spec, !app_nil_l.
    destruct (omap (missing_arg_message kwargs) (e0 :: es))
      as [|m ms] eqn:Herr; simpl.
    + split; [done|]. split; [|done]. split; [|done]. intros _ kf Hin.
      destruct (od_get kf.1 kwargs) as [v|] eqn:Hget; [by eexists|].
      exfalso. clear Hc. revert Herr Hin. generalize (e0 :: es).
      intros l. induction l as [|kf' l IH]; intros Herr Hin;
        [by apply elem_of_nil in Hin|].
      simpl in Herr.
      apply elem_of_cons in Hin as [->|Hin].
      * unfold missing_arg_message at 1 in Herr. by rewrite Hget in Herr.
      * destruct (missing_arg_message kwargs kf'); [done|]. by apply IH.
    + split; [done|]. split; [|by intros e' [= <-]]. split; [done|].
      intros Hall. rewrite missing_arg_messages_nil in Herr; done.
Qed.

Lemma od_get_od_set_eq {V} (k : string) (v : V) (d : list (string * V)) :
  od_get k (od_set k v d) = Some v.
Proof.
  induction d as [|[k0 v0] d IH]; simpl.
  - by rewrite String.eqb_refl.
  - destruct (String.eqb_spec k0 k) as [->|Hne]; simpl.
    + by rewrite String.eqb_refl.
    + destruct (String.eqb_spec k0 k); [done|]. apply IH.
Qed.

Lemma od_get_od_set_ne {V} (k k' : string) (v : V) (d : list (string * V)) :
  k' ≠ k → od_get k' (od_set k v d) = od_get k' d.
Proof.
  intros Hne. induction d as [|[k0 v0] d IH]; simpl.
  - destruct (String.eqb_spec k k'); [congruence|done].
  - destruct (String.eqb_spec k0 k) as [->|Hne0]; simpl.
    + destruct (String.eqb_spec k k'); [congruence|done].
    + destruct (String.eqb_spec k0 k'); [done|]. apply IH.
Qed.

Lemma od_setdefault_set_NoDup node_name arg_name v l :
  NoDup l.*1 → NoDup (od_setdefault_set node_name arg_name v l).*1.
Proof.
  intros Hnd. unfold od_setdefault_set.
  destruct (od_get node_name l); by apply od_set_NoDup.
Qed.

Lemma has_entry_set l k a v : has_entry (od_setdefault_set k a v l) k a v.
Proof.
  unfold has_entry, od_setdefault_set.
  destruct (od_get k l) as [d|]; rewrite od_get_od_set_eq; eexists;
    (split; [done|]).
  - apply lookup_insert_eq.
  - apply lookup_singleton_eq.
Qed.

Lemma has_entry_keep l k a v k' a' v' :
  has_entry l k a v → (k' = k → a' = a → v' = v) →
  has_entry (od_setdefault_set k' a' v' l) k a v.
Proof.
  intros (d & Hd & Hv) Hsame. unfold has_entry, od_setdefault_set.
  destruct (decide (k' = k)) as [->|Hne].
  - rewrite Hd, od_get_od_set_eq. eexists. split; [done|].
    destruct (decide (a' = a)) as [->|Hna].
    + rewrite lookup_insert_eq. f_equal. by apply Hsame.
    + by rewrite lookup_insert_ne.
  - destruct (od_get k' l); rewrite od_get_od_set_ne by done; eauto.
Qed.

Section injection.
Variable self : GliderScript.
Variable kwargs : list (string * value).

(** Each write of the positional loop stores [kwargs[arg_name]] under
    [arg_name]: entries that agree with [kwargs] are kept, and every
    injected parameter of the node gets one. *)
Lemma inject_run_args_entries nm args : ∀ st st',
  inject_run_args self kwargs nm args st = Ok st' →
  NoDup st.1.*1 →
  NoDup st'.1.*1
  ∧ (∀ k a v, has_entry st.1 k a v → od_get a kwargs = Some v →
       has_entry st'.1 k a v)
  ∧ (∀ p v, p ∈ args → od_mem p (inject self) = true →
       od_get p kwargs = Some v → has_entry st'.1 nm p v).
Proof.
  induction args as [|a args IH]; intros st st'; simpl.
  - intros [= <-] Hnd. split; [done|]. split; [done|].
    intros p v Hin. by apply elem_of_nil in Hin.
  - destruct (od_mem a (inject self)) eqn:Hinj.
    + unfold kwargs_get. destruct (od_get a kwargs) as [va|] eqn:Hget;
        simpl; [|done].
      intros Hloop Hnd.
      destruct (IH _ _ Hloop) as (Hnd' & Hkeep & Hnew);
        [by apply od_setdefault_set_NoDup|].
      simpl in Hkeep. split; [done|]. split.
      * intros k a' v Hent Hv. apply Hkeep; [|done].
        apply has_entry_keep; [done|]. intros -> ->. congruence.
      * intros p v [->|Hin]%elem_of_cons Hp Hv; [|by apply Hnew].
        apply Hkeep; [|done].
        assert (va = v) as -> by congruence. apply has_entry_set.
    + intros Hloop Hnd.
      destruct (IH _ _ Hloop Hnd) as (Hnd' & Hkeep & Hnew).
      split; [done|]. split; [done|].
      intros p v [->|Hin]%elem_of_cons Hp Hv; [congruence|by apply Hnew].
Qed.

Lemma inject_run_kwargs_skips nm kws : ∀ st,
  (∀ kw, kw ∈ kws → od_mem kw (inject self) = false) →
  inject_run_kwargs self kwargs nm kws st = Ok st.
Proof.
  induction kws as [|kw kws IH]; intros st Hno; simpl; [done|].
  rewrite (Hno kw) by by left. apply IH. intros kw' Hin. apply Hno. by right.
Qed.

Lemma inject_nodes_entries (ns : list Node) : ∀ st st',
  (∀ n kw, n ∈ ns → kw ∈ (run_kwargs n).*1 →
     od_mem kw (inject self) = false) →
  inject_nodes self kwargs ns st = Ok st' →
  NoDup st.1.*1 →
  NoDup st'.1.*1
  ∧ (∀ k a v, has_entry st.1 k a v → od_get a kwargs = Some v →
       has_entry st'.1 k a v)
  ∧ (∀ n p v, n ∈ ns → p ∈ (run_args n).*1 →
       od_mem p (inject self) = true → od_get p kwargs = Some v →
       has_entry st'.1 (name n) p v).
Proof.
  induction ns as [|n ns IH]; intros st st' Hno; simpl.
  - intros [= <-] Hnd. split; [done|]. split; [done|].
    intros n p v Hin. by apply elem_of_nil in Hin.
  - destruct (inject_run_args self kwargs (name n) (run_args n).*1 st)
      as [st1|e] eqn:Hargs; simpl; [|done].
    rewrite inject_run_kwargs_skips
      by (intros kw Hkw; apply (Hno n); [by left|done]).
    simpl. intros Hloop Hnd.
    destruct (inject_run_args_entries _ _ _ _ Hargs Hnd)
      as (Hnd1 & Hkeep1 & Hnew1).
    destruct (IH st1 st') as (Hnd' & Hkeep & Hnew); [|done|done|].
    { intros n' kw Hin. apply Hno. by right. }
    split; [done|]. split; [by auto|].
    intros n' p v [->|Hin]%elem_of_cons Hp Hinj Hv.
    + apply Hkeep; [|done]. by apply Hnew1.
    + by apply Hnew.
Qed.
End injection.

Lemma merge_injected_other (inj : list (string * dict)) :
  ∀ (nc : gmap string dict) k,
    k ∉ inj.*1 → merge_injected nc inj !! k = nc !! k.
Proof.
  unfold merge_injected.
  induction inj as [|[k0 d0] inj IH]; intros nc k Hk; simpl; [done|].
  apply not_elem_of_cons in Hk as [Hne Hk]. rewrite IH by done.
  simpl. destruct (nc !! k0); by rewrite lookup_insert_ne.
Qed.

Lemma merge_injected_entry (inj : list (string * dict)) :
  ∀ (nc : gmap string dict) k a v,
    NoDup inj.*1 → has_entry inj k a v →
    ∃ d, merge_injected nc inj !! k = Some d ∧ d !! a = Some v.
Proof.
  induction inj as [|[k0 d0] inj IH]; intros nc k a v Hnd (d & Hd & Hv).
  - done.
  - rewrite fmap_cons in Hnd. apply NoDup_cons in Hnd as [Hk0 Hnd].
    simpl in Hd. destruct (String.eqb_spec k0 k) as [->|Hne].
    + injection Hd as ->.
      unfold merge_injected. simpl.
      change (foldl _ ?m inj) with (merge_injected m inj).
      rewrite merge_injected_other by done.
      destruct (nc !! k) as [old|]; rewrite lookup_insert_eq;
        eexists; (split; [done|]); [|done].
      by apply lookup_union_Some_l.
    + unfold merge_injected. simpl.
      change (foldl _ ?m inj) with (merge_injected m inj).
      apply IH; [done|]. by exists d.
Qed.

(** X24: injection of required parameters.  When no parameter with a
    default is injected anywhere in the pipeline, a required parameter
    [p] of node [n] that is injected ends up, after conversion, in the
    context update of [n] under [p] with the injected value, whatever
    the command line gave for [<n>_<p>]; the node's name is taken to
    have no underscore. *)
Theorem injected_required_parameter_wins
    (self : GliderScript) (kwargs : list (string * value))
    (n : Node) (p : string) (v : value) (final : gmap string kwarg) :
  (∀ m kw, m ∈ nodes self → kw ∈ (run_kwargs m).*1 →
     od_mem kw (inject self) = false) →
  n ∈ nodes self →
  p ∈ (run_args n).*1 →
  od_mem p (inject self) = true →
  od_get p kwargs = Some v →
  has_char "_" (name n) = false →
  _convert_kwargs self kwargs = Ok final →
  ∃ d, final !! name n = Some (NodeContext d) ∧ d !! p = Some v.
Proof.
  intros Hno Hn Hp Hinj Hv Hbare. unfold _convert_kwargs.
  destruct (convert_loop self kwargs ∅ []) as [[nc unused]|e] eqn:Hloop;
    simpl; [|done].
  unfold _get_injected_node_contexts.
  destruct (inject_nodes self kwargs (nodes self) ([], None))
    as [st|e] eqn:Hnodes; simpl; [|done].
  intros Hpass.
  destruct (inject_nodes_entries self kwargs _ _ _ Hno Hnodes)
    as (Hnd & _ & Hnew); [apply NoDup_nil_2|].
  destruct (merge_injected_entry st.1 nc (name n) p v Hnd) as (d & Hd & Hdv).
  { by apply (Hnew n p v). }
  exists d. split; [|done].
  rewrite (pass_through_other _ _ _ _ (name n) Hpass).
  - by rewrite lookup_fmap, Hd.
  - intros Hun.
    destruct (convert_loop_unknown _ _ _ _ _ _ Hloop _ Hun) as [Hnil|Hunk].
    + by apply elem_of_nil in Hnil.
    + rewrite split_no_sep in Hunk by done. simpl in Hunk.
      assert (node_known (nodes self) (name n) = true); [|congruence].
      unfold node_known. apply existsb_exists. exists n.
      split; [by apply list_elem_of_In|apply String.eqb_refl].
Qed.

Lemma injected_required_parameter_wins_witness :
  ∃ final d,
    _convert_kwargs
      (GliderScript_init [node_requiring "a" ["x"; "conn"]]
         {| gs_items := ∅ |} [] [("conn", λ _, VStr "injected")] [])
      [("a_x", VInt 1); ("a_conn", VStr "cli"); ("conn", VStr "injected")]
    = Ok final
    ∧ final !! "a" = Some (NodeContext d)
    ∧ d !! "conn" = Some (VStr "injected").
Proof.
  eexists.
  match goal with
  | |- ∃ d, _ = Ok ?f ∧ _ =>
      assert (_convert_kwargs
                (GliderScript_init [node_requiring "a" ["x"; "conn"]]
                   {| gs_items := ∅ |} []
                   [("conn", λ _, VStr "injected")] [])
                [("a_x", VInt 1); ("a_conn", VStr "cli");
                 ("conn", VStr "injected")]
              = Ok f) as Hf by reflexivity;
      destruct (injected_required_parameter_wins
                  (GliderScript_init [node_requiring "a" ["x"; "conn"]]
                     {| gs_items := ∅ |} []
                     [("conn", λ _, VStr "injected")] [])
                  [("a_x", VInt 1); ("a_conn", VStr "cli");
                   ("conn", VStr "injected")]
                  (node_requiring "a" ["x"; "conn"]) "conn"
                  (VStr "injected") f) as (d & Hd & Hv)
  end.
  - intros m kw ->%list_elem_of_singleton Hkw. simpl in Hkw.
    by apply elem_of_nil in Hkw.
  - left.
  - right. left.
  - reflexivity.
  - reflexivity.
  - reflexivity.
  - exact Hf.
  - exists d. split; [exact Hf|]. split; [exact Hd|exact Hv].
Defined.

(** ** Skip-on-falsy and argument resolution together *)

(** X25: a [SkipFalseNode] resolves its arguments before it looks at
    the item.  With a required parameter that no source defines,
    [process] raises the missing-argument error for an empty or falsy
    item as for any other.  With every required parameter defined, the
    context keys that are not required parameters are passed on as
    keywords: when [self] or [item] is among them the call of [_run]
    raises [TypeError] and the item is neither pushed nor run, whatever
    the item; when neither is, an empty frame or a falsy item is pushed
    on and [run] is not called. *)
Theorem skip_false_node_process
    (run : item → list value → dict → list item * outcome unit)
    (n : Node) (h : heap) (gs : option GlobalState) (it : item) :
  (∀ pre p post,
     (run_args n).*1 = pre ++ p :: post →
     Forall (λ q, is_Some (resolved_value (live_context (n, h)) gs q)) pre →
     resolved_value (live_context (n, h)) gs p = None →
     process (SkipFalseNode_run run) n h gs it
     = ([], Raise (MissingRunArg p (live_context (n, h)))))
  ∧ (Forall (λ q, is_Some (resolved_value (live_context (n, h)) gs q))
       (run_args n).*1 →
     keyword_clash (populate_kwargs (live_context (n, h)) (run_args n).*1)
     = true →
     process (SkipFalseNode_run run) n h gs it = ([], Raise TypeError))
  ∧ (Forall (λ q, is_Some (resolved_value (live_context (n, h)) gs q))
       (run_args n).*1 →
     keyword_clash (populate_kwargs (live_context (n, h)) (run_args n).*1)
     = false →
     (is_pandas it = true ∧ item_empty it = true)
     ∨ (is_pandas it = false ∧ item_falsy it = true) →
     process (SkipFalseNode_run run) n h gs it = ([EPush it], Ok ())).
Proof.
  unfold process. change (deref h (context n)) with (live_context (n, h)).
  destruct (populate_run_args_spec (live_context (n, h)) gs (run_args n))
    as [Hmiss Hok].
  split; [|split].
  - intros pre p post Hra Hpre Hp. by rewrite (Hmiss pre p post).
  - intros Hall Hclash. destruct (Hok Hall) as (_args & -> & _).
    unfold SkipFalseNode_run. by rewrite Hclash.
  - intros Hall Hbind Hskip. destruct (Hok Hall) as (_args & -> & _).
    unfold SkipFalseNode_run. rewrite Hbind.
    destruct Hskip as [[-> ->]|[-> ->]]; done.
Qed.

Lemma skip_false_node_process_witness :
  process (SkipFalseNode_run (λ it _ _, ([it], Ok ())))
    (node_requiring "n" ["conn"]) (heap_with_context ∅) None
    (Plain (VList []))
  = ([], Raise (MissingRunArg "conn" ∅))
  ∧ process (SkipFalseNode_run (λ it _ _, ([it], Ok ())))
      (node_requiring "n" ["conn"])
      (heap_with_context {["conn" := VStr "c"; "self" := VInt 1]}) None
      (Tabular ["a"] [])
    = ([], Raise TypeError)
  ∧ process (SkipFalseNode_run (λ it _ _, ([], Raise (Raised "boom"))))
      (node_requiring "n" ["conn"])
      (heap_with_context {["conn" := VStr "c"; "chunksize" := VInt 2]}) None
      (Tabular ["a"] [])
    = ([EPush (Tabular ["a"] [])], Ok ()).
Proof.
  split; [|split].
  - refine (eq_trans
              (proj1 (skip_false_node_process (λ it _ _, ([it], Ok ()))
                        (node_requiring "n" ["conn"]) (heap_with_context ∅)
                        None (Plain (VList [])))
                 [] "conn" [] eq_refl _ _) _).
    + constructor.
    + reflexivity.
    + reflexivity.
  - apply (proj1 (proj2 (skip_false_node_process
                    (λ it _ _, ([it], Ok ()))
                    (node_requiring "n" ["conn"])
                    (heap_with_context
                       {["conn" := VStr "c"; "self" := VInt 1]}) None
                    (Tabular ["a"] [])))).
    + repeat constructor. vm_compute. eauto.
    + vm_compute. reflexivity.
  - apply (proj2 (proj2 (skip_false_node_process
                    (λ it _ _, ([], Raise (Raised "boom")))
                    (node_requiring "n" ["conn"])
                    (heap_with_context
                       {["conn" := VStr "c"; "chunksize" := VInt 2]}) None
                    (Tabular ["a"] [])))).
    + repeat constructor. vm_compute. eauto.
    + vm_compute. reflexivity.
    + left. split; reflexivity.
Defined.

(** ** Witnesses of statements proved above *)

Lemma cursor_do_push_chunks_witness :
  ∃ pushed,
    cursor_do_push [1; 2; 3; 4; 5] (Some 2) = (pushed, [])
    ∧ concat pushed = [1; 2; 3; 4; 5]
    ∧ length pushed = 3.
Proof.
  destruct (proj1 (cursor_do_push_chunks [1; 2; 3; 4; 5] 1))
    as (pushed & Hp & Hc & _ & _ & Hlo & Hhi & _).
  exists pushed. split; [exact Hp|]. split; [exact Hc|].
  simpl in Hlo, Hhi. lia.
Defined.

Lemma clean_up_report_witness :
  (clean_up
     (GliderScript_init [] {| gs_items := ∅ |} [] []
        [("conn", λ _, Ok ()); ("tmp", λ _, Ok ())])
     [("conn", VInt 1)]).2
  = Raise (CleanUpErrors ["Could not clean up tmp, no arg found"]).
Proof.
  assert (∀ o : outcome unit, o ≠ Ok () → ∃ e, o = Raise e) as Hcases.
  { intros [[]|e] Ho; [done|by exists e]. }
  destruct (Hcases (clean_up
     (GliderScript_init [] {| gs_items := ∅ |} [] []
        [("conn", λ _, Ok ()); ("tmp", λ _, Ok ())])
     [("conn", VInt 1)]).2) as [e He].
  - discriminate.
  - rewrite He. f_equal.
    apply (proj2 (proj2 (clean_up_report
             (GliderScript_init [] {| gs_items := ∅ |} [] []
                [("conn", λ _, Ok ()); ("tmp", λ _, Ok ())])
             [("conn", VInt 1)])) e He).
Defined.
